(** * xoshiro / xoroshiro: states, polynomial reduction, jumps and partitions

    A shallow embedding of [include/xoshiro.h].  Words of state are modelled
    as [Z] with the wrap-around of the unsigned word type written out, arrays
    ([std::array<T, N>]) as [list Z], [std::size_t] indices as [nat], and a
    function that throws as a function into [result]. *)

From Stdlib Require Import String.
From Stdlib Require Import ZArith List Lia Bool Btauto.
From coqutil Require Import Z.bitblast.
Import ListNotations.
Local Open Scope Z_scope.

(** ** Results of functions that may throw *)

Inductive result (A : Type) : Type :=
| ok (a : A)
| invalid_argument (what : string).
Arguments ok {A} a.
Arguments invalid_argument {A} what.

(** ** Unsigned word types *)

Inductive word_type : Type := uint8_t | uint16_t | uint32_t | uint64_t.

(** [std::numeric_limits<T>::digits] *)
Definition digits (T : word_type) : Z :=
  match T with uint8_t => 8 | uint16_t => 16 | uint32_t => 32 | uint64_t => 64 end.

Definition word_type_eqb (T U : word_type) : bool :=
  match T, U with
  | uint8_t, uint8_t | uint16_t, uint16_t | uint32_t, uint32_t | uint64_t, uint64_t => true
  | _, _ => false
  end.

Module Word.

(** Conversion of a mathematical value to a [W]-bit unsigned word. *)
Definition wrap (W x : Z) : Z := x mod 2 ^ W.

(** [x << k] on a [W]-bit unsigned word. *)
Definition shl (W x k : Z) : Z := wrap W (Z.shiftl x k).

(** [x >> k] on an unsigned word. *)
Definition shr (x k : Z) : Z := Z.shiftr x k.

(** [std::rotl(x, s)]: with [r = s % digits], [x] itself when [r] is zero
    and [(x << r) | (x >> (digits - r))] otherwise. *)
Definition rotl (W x s : Z) : Z :=
  let r := s mod W in
  if r =? 0 then x else Z.lor (shl W x r) (shr x (W - r)).

(** [std::numeric_limits<T>::max()] *)
Definition ones (W : Z) : Z := 2 ^ W - 1.

Definition in_range (W x : Z) : Prop := 0 <= x < 2 ^ W.

End Word.

(** ** Arrays *)

(** [a[i]] *)
Definition get (a : list Z) (i : nat) : Z := nth i a 0.

(** [a[i] = x]; an index past the end is undefined behaviour in the source
    and leaves the list alone here. *)
Fixpoint upd (i : nat) (x : Z) (a : list Z) : list Z :=
  match a, i with
  | [], _ => []
  | _ :: t, O => x :: t
  | h :: t, S j => h :: upd j x t
  end.

(** [std::array<T, N> a = {x0, ...}]: the given initialisers, then zeros. *)
Definition aggregate_init (N : nat) (inits : list Z) : list Z :=
  inits ++ repeat 0 (N - length inits).

(** [std::copy(b, e, dst.begin())] for a source range [src]; the words of
    [dst] past the range keep their values. *)
Definition copy_into (src dst : list Z) : list Z :=
  firstn (length dst) src ++ skipn (length src) dst.

(** A state in which every word is an [W]-bit value, [N] of them. *)
Definition words_ok (W : Z) (N : nat) (a : list Z) : Prop :=
  length a = N /\ Forall (Word.in_range W) a.

(** The caller contract of [seed]: the words are not all zero. *)
Definition not_all_zero (a : list Z) : Prop := exists i, get a i <> 0.

(** ** The xoshiro state *)

Module Xoshiro.
Section Xoshiro.
(** Template parameters [N], [T] (through its width [W]), [A] and [B]. *)
Variables (N : nat) (W A B : Z).

(** [std::array<T, N> m_state = {1}] *)
Definition m_state_init : list Z := aggregate_init N [1].

(** [operator[]] *)
Definition index (m_state : list Z) (i : nat) : Z := get m_state i.

Definition get_state (m_state : list Z) : list Z := m_state.

Definition seed (words : list Z) (m_state : list Z) : list Z :=
  copy_into words m_state.

(** The [N == 4] branch of [step]. *)
Definition step4 (m : list Z) : list Z :=
  let tmp := Word.shl W (get m 1) A in
  let m := upd 2 (Z.lxor (get m 2) (get m 0)) m in
  let m := upd 3 (Z.lxor (get m 3) (get m 1)) m in
  let m := upd 1 (Z.lxor (get m 1) (get m 2)) m in
  let m := upd 0 (Z.lxor (get m 0) (get m 3)) m in
  let m := upd 2 (Z.lxor (get m 2) tmp) m in
  upd 3 (Word.rotl W (get m 3) B) m.

(** The [N == 8] branch of [step]. *)
Definition step8 (m : list Z) : list Z :=
  let tmp := Word.shl W (get m 1) A in
  let m := upd 2 (Z.lxor (get m 2) (get m 0)) m in
  let m := upd 5 (Z.lxor (get m 5) (get m 1)) m in
  let m := upd 1 (Z.lxor (get m 1) (get m 2)) m in
  let m := upd 7 (Z.lxor (get m 7) (get m 3)) m in
  let m := upd 3 (Z.lxor (get m 3) (get m 4)) m in
  let m := upd 4 (Z.lxor (get m 4) (get m 5)) m in
  let m := upd 0 (Z.lxor (get m 0) (get m 6)) m in
  let m := upd 6 (Z.lxor (get m 6) (get m 7)) m in
  let m := upd 6 (Z.lxor (get m 6) tmp) m in
  upd 7 (Word.rotl W (get m 7) B) m.

(** [step]: chosen by [if constexpr] on [N]; for any other word count the
    [static_assert] rejects the program, so there is no function. *)
Definition step : option (list Z -> list Z) :=
  match N with
  | 4%nat => Some step4
  | 8%nat => Some step8
  | _ => None
  end.

End Xoshiro.

(** [characteristic_coefficients]: the table of precomputed [p(x)]. *)
Definition characteristic_coefficients (N : nat) (T : word_type) (A B : Z)
  : result (list Z) :=
  if word_type_eqb T uint32_t && (N =? 4)%nat && (A =? 9) && (B =? 11) then
    ok [0xde18fc01; 0x1b489db6; 0x6254b1; 0xfc65a2]
  else if word_type_eqb T uint64_t && (N =? 4)%nat && (A =? 17) && (B =? 45) then
    ok [0x9d116f2bb0f0f001; 0x280002bcefd1a5e; 0x4b4edcf26259f85; 0x3c03c3f3ecb19]
  else if word_type_eqb T uint64_t && (N =? 8)%nat && (A =? 11) && (B =? 21) then
    ok [0xcf3cff0c00000001; 0x7fdc78d886f00c63; 0xf05e63fca6d7b781; 0x7a67058e7bbab6f0;
        0xf11eef832e32518f; 0x51ba7c47edc758ad; 0x8f2d27268ce4b20b; 0x500055d8b77f]
  else
    invalid_argument "xoshiro characteristic polynomial not pre-computed for given parameters!"%string.

End Xoshiro.

(** ** The xoroshiro state *)

Module Xoroshiro.

(** The private members: the array of words and the location of the final
    word of state. *)
Record t : Type := mk { m_state : list Z; m_final : nat }.

Section Xoroshiro.
(** Template parameters [N], [T] (through its width [W]), [A], [B], [C]. *)
Variables (N : nat) (W A B C : Z).

(** [m_state = {1}], [m_final = N - 1] *)
Definition init : t := mk (aggregate_init N [1]) (N - 1).

(** [operator[]]: the array is used as a ring buffer. *)
Definition index (s : t) (i : nat) : Z :=
  get (m_state s) ((i + m_final s + 1) mod N).

Definition get_state (s : t) : list Z :=
  map (index s) (seq 0 N).

Definition seed (words : list Z) (s : t) : t :=
  mk (copy_into words (m_state s)) (N - 1).

Definition simple_step (s : t) : t :=
  let m := m_state s in
  let s0 := get m 0 in
  let s1 := get m (N - 1) in
  let m := fold_left (fun m i => upd i (get m (i + 1)) m) (seq 0 (N - 2)) m in
  let s1 := Z.lxor s1 s0 in
  let m := upd (N - 2) (Z.lxor (Z.lxor (Word.rotl W s0 A) (Word.shl W s1 B)) s1) m in
  let m := upd (N - 1) (Word.rotl W s1 C) m in
  mk m (m_final s).

Definition clever_step (s : t) : t :=
  let m := m_state s in
  let i_final := m_final s in
  let i_first := ((m_final s + 1) mod N)%nat in
  let s_final := get m i_final in
  let s_first := get m i_first in
  let s_final := Z.lxor s_final s_first in
  let m := upd i_final
             (Z.lxor (Z.lxor (Word.rotl W s_first A) (Word.shl W s_final B)) s_final) m in
  let m := upd i_first (Word.rotl W s_final C) m in
  mk m i_first.

Definition step (s : t) : t :=
  if (N =? 2)%nat then simple_step s else clever_step s.

(** What an object holds between calls: [N] words of the word type and the
    index of one of them, which [simple_step] never moves from the place
    where the constructor and [seed] put it. *)
Definition invariant (s : t) : Prop :=
  words_ok W N (m_state s) /\ (m_final s < N)%nat /\
  (N = 2%nat -> m_final s = (N - 1)%nat).

End Xoroshiro.

Definition characteristic_coefficients (N : nat) (T : word_type) (A B C : Z)
  : result (list Z) :=
  if word_type_eqb T uint32_t && (N =? 2)%nat && (A =? 26) && (B =? 9) && (C =? 13) then
    ok [0x6e2286c1; 0x53be9da]
  else if word_type_eqb T uint64_t && (N =? 2)%nat && (A =? 24) && (B =? 16) && (C =? 37) then
    ok [0x95b8f76579aa001; 0x8828e513b43d5]
  else if word_type_eqb T uint64_t && (N =? 2)%nat && (A =? 49) && (B =? 21) && (C =? 28) then
    ok [0x8dae70779760b081; 0x31bcf2f855d6e5]
  else if word_type_eqb T uint64_t && (N =? 16)%nat && (A =? 25) && (B =? 27) && (C =? 36) then
    ok [0x5cfeb8cc48ddb211; 0xb73e379d035a06dd; 0x17d5100a20a0350e; 0x7550223f68f98cac;
        0x29d373b5c5ed3459; 0x3689b412ef70de48; 0xa1d3b6ee079a7cc6; 0x9bf0b669abd100f8;
        0x955c84e105f60997; 0x6ca140c61889cddd; 0xabaf68c5fc3a0e4a; 0xa46134526b83adc5;
        0x710704d05683d63;  0x580d080b44b606a2; 0x8040a0580158a1;   0x800081]
  else
    invalid_argument "xoroshiro characteristic polynomial not pre-computed for given parameters!"%string.

End Xoroshiro.

(** ** Polynomial reduction: [namespace xso::internal] *)

Module Internal.

(** [static_cast<std::size_t>(-1)] *)
Definition npos : Z := 2 ^ 64 - 1.

(** [std::countr_zero] on a [W]-bit word. *)
Fixpoint countr_zero_pos (p : positive) : Z :=
  match p with
  | xO q => 1 + countr_zero_pos q
  | _ => 0
  end.

Definition countr_zero (W w : Z) : Z :=
  match w with
  | Zpos p => countr_zero_pos p
  | _ => W
  end.

(** [std::bit_width] *)
Definition bit_width (w : Z) : Z :=
  match w with
  | Zpos p => Zpos (Pos.size p)
  | _ => 0
  end.

(** [std::bit_floor] *)
Definition bit_floor (w : Z) : Z :=
  match w with
  | Zpos p => 2 ^ (Zpos (Pos.size p) - 1)
  | _ => 0
  end.

Section Riffle.
(** [bits_per_word] of the word type. *)
Variable W : Z.

(** The loop [for (i = bits_per_word / 4; i > 0; i /= 2)] of the word
    riffle, entered with [i > 0]; halving a positive number drops its last
      binary digit, and the loop ends when that leaves nothing. *)
Fixpoint riffle_loop (i : positive) (lo hi : Z) : Z * Z :=
  let div := Z.lor (Word.shl W 1 (Zpos i)) 1 in
  let msk := Word.ones W / div in
  let lo := Z.land (Z.lxor lo (Word.shl W lo (Zpos i))) msk in
  let hi := Z.land (Z.lxor hi (Word.shl W hi (Zpos i))) msk in
  match i with
  | xH => (lo, hi)
  | xO j | xI j => riffle_loop j lo hi
  end.

(** [riffle(src, lo, hi)] on one word: the pair of the final [lo], [hi]. *)
Definition riffle (src : Z) : Z * Z :=
  let half_bits := W / 2 in
  let lo := Z.land src (Word.shr (Word.ones W) half_bits) in
  let hi := Word.shr src half_bits in
  match W / 4 with
  | Zpos i => riffle_loop i lo hi
  | _ => (lo, hi)
  end.

(** [riffle(poly, poly, hi)] on arrays, as [square_step] calls it: [src]
    and [lo] are the same array, so [src[i]] reads the current [lo].  The
      index [i] runs from [N - 1] down to [0]. *)
Definition riffle_array (N : nat) (lo hi : list Z) : list Z * list Z :=
  fold_left
    (fun (acc : list Z * list Z) (i : nat) =>
       let (lo, hi) := acc in
       let (x, y) := riffle (get lo i) in
       if (N <? 2 * i + 1)%nat then
         (lo, upd (2 * i + 1 - N) y (upd (2 * i - N) x hi))
       else if (2 * i + 1 =? N)%nat then
         (upd (N - 1) x lo, upd 0 y hi)
       else
         (upd (2 * i + 1) y (upd (2 * i) x lo), hi))
    (rev (seq 0 N)) (lo, hi).

End Riffle.

Section Reduce.
(** [bits_per_word], the word count, and the coefficients of [p(x)]. *)
Variables (W : Z) (N : nat) (p : list Z).

Definition n : Z := Z.of_nat N * W.

Definition word (i : Z) : nat := Z.to_nat (i / W).
Definition bit (i : Z) : Z := i mod W.
Definition mask (i : Z) : Z := Word.shl W 1 (bit i).

Definition test (poly : list Z) (i : Z) : bool :=
  negb (Z.land (get poly (word i)) (mask i) =? 0).

Definition set (poly : list Z) (i : Z) : list Z :=
  upd (word i) (Z.lor (get poly (word i)) (mask i)) poly.

Definition lsb (w : Z) : Z := if w =? 0 then npos else countr_zero W w.

Definition msb (w : Z) : Z := (bit_width w - 1) mod 2 ^ 64.

Definition first_set (poly : list Z) : Z :=
  match find (fun i => negb (get poly i =? 0)) (seq 0 N) with
  | Some i => Z.of_nat i * W + lsb (get poly i)
  | None => npos
  end.

Definition final_set (poly : list Z) : Z :=
  match find (fun i => negb (get poly i =? 0)) (rev (seq 0 N)) with
  | Some i => Z.of_nat i * W + msb (get poly i)
  | None => npos
  end.

Definition monic (poly : list Z) : bool :=
  negb (Z.land (get poly (N - 1)) (Word.shl W 1 (W - 1)) =? 0).

Definition add (lhs rhs : list Z) : list Z :=
  fold_left (fun lhs i => upd i (Z.lxor (get lhs i) (get rhs i)) lhs) (seq 0 N) lhs.

(** The index [i] runs from [N - 1] down to [1]; then [poly[0] <<= 1]. *)
Definition shift (poly : list Z) : list Z :=
  let complement := W - 1 in
  let poly :=
    fold_left
      (fun poly i =>
         let l := Word.shl W (get poly i) 1 in
         let r := Word.shr (get poly (i - 1)) complement in
         upd i (Z.lor l r) poly)
      (rev (seq 1 (N - 1))) poly in
  upd 0 (Word.shl W (get poly 0) 1) poly.

Definition times_x_step (poly : list Z) : list Z :=
  let add_p := monic poly in
  let poly := shift poly in
  if add_p then add poly p else poly.

(** [power_mod]: entry [0] is [p] and entry [i] is [times_x_step] of entry
    [i - 1]; [k] entries starting from [cur]. *)
Fixpoint power_table (k : nat) (cur : list Z) : list (list Z) :=
  match k with
  | O => []
  | S k' => cur :: power_table k' (times_x_step cur)
  end.

Definition power_mod : list (list Z) := power_table (Z.to_nat n) p.

(** [square_step]: the work space [hi] is shared by all calls, so the
    function takes and returns the pair of [poly] and [hi]. *)
Definition square_step (st : list Z * list Z) : list Z * list Z :=
  let (poly, hi) := riffle_array W N (fst st) (snd st) in
  let hi_first := first_set hi in
  if hi_first =? npos then (poly, hi)
  else
    let hi_final := final_set hi in
    let poly :=
      fold_left
        (fun poly i =>
           if test hi i then add poly (nth (Z.to_nat i) power_mod []) else poly)
        (map (fun k => hi_first + 2 * Z.of_nat k)
             (seq 0 (Z.to_nat ((hi_final - hi_first) / 2 + 1))))
        poly in
    (poly, hi).

(** The loop [while (J_bit) { ...; J_bit >>= 1; }], entered with
    [J_bit > 0]. *)
Fixpoint square_multiply (J : Z) (J_bit : positive) (st : list Z * list Z)
  : list Z * list Z :=
  let st := square_step st in
  let st := if Z.land J (Zpos J_bit) =? 0 then st else (times_x_step (fst st), snd st) in
  match J_bit with
  | xH => st
  | xO q | xI q => square_multiply J q st
  end.

(** [reduce(p, J, J_is_pow2)].  The work space [hi] starts out
    uninitialised in the source; every word of it is written before it is
      read, and it starts as zeros here. *)
Definition reduce (J : Z) (J_is_pow2 : bool) : list Z :=
  let hi := repeat 0 N in
  let r := repeat 0 N in
  if J_is_pow2 then
    let r := set r 1 in
    fst (Nat.iter (Z.to_nat J) square_step (r, hi))
  else if J <? n then set r J
  else if J =? n then p
  else
    let J_bit := bit_floor J in
    let r := set r 1 in
    let J_bit := Z.shiftr J_bit 1 in
    match J_bit with
    | Zpos q => fst (square_multiply J q (r, hi))
    | _ => r
    end.

End Reduce.

End Internal.

(** ** States as the jump functions see them *)

(** What the templates [jump_coefficients], [jump] and [partition] use of
    their [State] parameter. *)
Record State : Type := {
  carrier : Type;
  word_count : nat;
  word_digits : Z;
  index : carrier -> nat -> Z;
  get_state : carrier -> list Z;
  seed : list Z -> carrier -> carrier;
  step : carrier -> carrier;
  characteristic_coefficients : result (list Z);
  (* the invariant of the objects of the class: what its members hold
     between calls *)
  wf : carrier -> Prop
}.

Definition bit_count (S : State) : Z := Z.of_nat (word_count S) * word_digits S.

(** [xoshiro<N, T, A, B>] with the [step] its word count selects. *)
Definition xoshiro_with (N : nat) (T : word_type) (A B : Z) (f : list Z -> list Z) : State :=
  {| carrier := list Z;
     word_count := N;
     word_digits := digits T;
     index := Xoshiro.index;
     get_state := Xoshiro.get_state;
     seed := Xoshiro.seed;
     step := f;
     characteristic_coefficients := Xoshiro.characteristic_coefficients N T A B;
     wf := words_ok (digits T) N |}.

(** [xoshiro<N, T, A, B>] as a state that can be stepped: none when [step]
    does not compile. *)
Definition xoshiro (N : nat) (T : word_type) (A B : Z) : option State :=
  option_map (xoshiro_with N T A B) (Xoshiro.step N (digits T) A B).

Definition xoroshiro (N : nat) (T : word_type) (A B C : Z) : State :=
  {| carrier := Xoroshiro.t;
     word_count := N;
     word_digits := digits T;
     index := Xoroshiro.index N;
     get_state := Xoroshiro.get_state N;
     seed := Xoroshiro.seed N;
     step := Xoroshiro.step N (digits T) A B C;
     characteristic_coefficients := Xoroshiro.characteristic_coefficients N T A B C;
     wf := Xoroshiro.invariant N (digits T) |}.

Definition xoshiro_4x32 : State := xoshiro_with 4 uint32_t 9 11 (Xoshiro.step4 32 9 11).
Definition xoshiro_4x64 : State := xoshiro_with 4 uint64_t 17 45 (Xoshiro.step4 64 17 45).
Definition xoshiro_8x64 : State := xoshiro_with 8 uint64_t 11 21 (Xoshiro.step8 64 11 21).
Definition xoroshiro_2x32 : State := xoroshiro 2 uint32_t 26 9 13.
Definition xoroshiro_2x64 : State := xoroshiro 2 uint64_t 24 16 37.
Definition xoroshiro_2x64b : State := xoroshiro 2 uint64_t 49 21 28.
Definition xoroshiro_16x64 : State := xoroshiro 16 uint64_t 25 27 36.

(** ** Jumps *)

Definition jump_coefficients (S : State) (J : Z) (N_is_pow2 : bool) : result (list Z) :=
  match characteristic_coefficients S with
  | ok p => ok (Internal.reduce (word_digits S) (word_count S) p J N_is_pow2)
  | invalid_argument what => invalid_argument what
  end.

(** The body of the innermost loop of [jump]: [sum[w] ^= state[w]]. *)
Definition add_state (S : State) (state : carrier S) (sum : list Z) : list Z :=
  fold_left (fun sum w => upd w (Z.lxor (get sum w) (index S state w)) sum)
            (seq 0 (word_count S)) sum.

(** The two nested loops of [jump], on the pair of [sum] and [state]. *)
Definition jump_loop (S : State) (jump_coeff : list Z) (acc : list Z * carrier S)
  : list Z * carrier S :=
  fold_left
    (fun acc i =>
       let ji := get jump_coeff i in
       fold_left
         (fun (acc : list Z * carrier S) b =>
            let (sum, state) := acc in
            let sum :=
              if Z.land ji (Word.shl (word_digits S) 1 (Z.of_nat b)) =? 0
              then sum else add_state S state sum in
            (sum, step S state))
         (seq 0 (Z.to_nat (word_digits S))) acc)
    (seq 0 (word_count S)) acc.

(** [jump(state, jump_coeff)]: the state after the call. *)
Definition jump (S : State) (state : carrier S) (jump_coeff : list Z) : carrier S :=
  let sum := repeat 0 (word_count S) in
  let (sum, state) := jump_loop S jump_coeff (sum, state) in
  seed S sum state.

(** ** Partitions *)

Module Partition.

Record t (S : State) : Type := mk {
  m_state : carrier S;
  m_jump_coefficients : list Z
}.
Arguments mk {S}.
Arguments m_state {S}.
Arguments m_jump_coefficients {S}.

(** The constructor; [n_partitions] is a [std::size_t] and the
    subtractions are done on [std::size_t]. *)
Definition partition (S : State) (state : carrier S) (n_partitions : Z) : result (t S) :=
  let n_partitions := if n_partitions =? 0 then 1 else n_partitions in
  let n_bits := bit_count S in
  let n := Internal.bit_width ((n_partitions - 1) mod 2 ^ 64) in
  let power_2 := (n_bits - n) mod 2 ^ 64 in
  match jump_coefficients S power_2 true with
  | ok c => ok (mk state c)
  | invalid_argument what => invalid_argument what
  end.

(** [next]: the returned state and the partition after the call. *)
Definition next {S : State} (part : t S) : carrier S * t S :=
  let retval := m_state part in
  (retval, mk (jump S (m_state part) (m_jump_coefficients part)) (m_jump_coefficients part)).

End Partition.

(** * Specification level *)

(** ** Polynomials over GF(2)

    A polynomial over GF(2) is a non-negative integer: the coefficient of
    [x^i] is bit [i].  Addition is [Z.lxor] and [x^e] is [2 ^ e]. *)

Module GF2.

(** Carry-less multiplication: the product of polynomials over GF(2). *)
Fixpoint clmul_pos (a : positive) (b : Z) : Z :=
  match a with
  | xH => b
  | xO a' => 2 * clmul_pos a' b
  | xI a' => Z.lxor b (2 * clmul_pos a' b)
  end.

Definition clmul (a b : Z) : Z :=
  match a with
  | Zpos a' => clmul_pos a' b
  | _ => 0
  end.

(** [r] is the remainder of the polynomial [a] modulo [c]: [a = q c + r]
    for some polynomial [q], with the degree of [r] below [n], the degree
    of [c]. *)
Definition is_remainder (n c a r : Z) : Prop :=
  0 <= r < 2 ^ n /\ exists q, 0 <= q /\ a = Z.lxor (clmul q c) r.

(** The square of a polynomial over GF(2): every coefficient moves from
    [x^i] to [x^(2i)]. *)
Fixpoint spread_pos (a : positive) : positive :=
  match a with
  | xH => xH
  | xO a' => xO (xO (spread_pos a'))
  | xI a' => xI (xO (spread_pos a'))
  end.

Definition spread (a : Z) : Z :=
  match a with
  | Zpos a' => Zpos (spread_pos a')
  | _ => 0
  end.

(** Multiplication by [x] modulo [c(x) = x^n + p(x)], on a polynomial of
    degree below [n]. *)
Definition mulx (n p r : Z) : Z :=
  Z.lxor ((2 * r) mod 2 ^ n) (if Z.testbit r (n - 1) then p else 0).

(** The value [q(T) v] of the polynomial [q] at a map [T], applied to [v]:
    the sum of [T^i v] over the coefficients [i] of [q]. *)
Fixpoint peval_pos (T : Z -> Z) (q : positive) (v : Z) : Z :=
  match q with
  | xH => v
  | xO q' => peval_pos T q' (T v)
  | xI q' => Z.lxor v (peval_pos T q' (T v))
  end.

Definition peval (T : Z -> Z) (q v : Z) : Z :=
  match q with
  | Zpos q' => peval_pos T q' v
  | _ => 0
  end.

End GF2.

(** ** Arrays of words as integers *)

(** The [n]-bit integer whose [W]-bit digits, lowest first, are the words:
    a coefficient array as its polynomial, a state as its bit vector. *)
Fixpoint pack (W : Z) (a : list Z) : Z :=
  match a with
  | [] => 0
  | w :: t => w + 2 ^ W * pack W t
  end.

Definition unpack (W : Z) (N : nat) (z : Z) : list Z :=
  map (fun j => Z.land (Z.shiftr z (W * Z.of_nat j)) (Z.ones W)) (seq 0 N).

(** Word-wise exclusive or. *)
Fixpoint vxor (a b : list Z) : list Z :=
  match a, b with
  | x :: a', y :: b' => Z.lxor x y :: vxor a' b'
  | _, _ => []
  end.

(** The transition of a state type as a map on bit vectors. *)
Definition on_bits (W : Z) (N : nat) (F : list Z -> list Z) (z : Z) : Z :=
  pack W (F (unpack W N z)).

(** [q(F) s] on arrays of words, as [GF2.peval] is on integers. *)
Fixpoint peval_words (F : list Z -> list Z) (q : positive) (s : list Z) : list Z :=
  match q with
  | xH => s
  | xO q' => peval_words F q' (F s)
  | xI q' => vxor s (peval_words F q' (F s))
  end.

Definition all_zero (a : list Z) : bool := forallb (Z.eqb 0) a.

(** [c(F)] sends the unit vectors [lo], ..., [lo + cnt - 1] to zero. *)
Definition annihilates (W : Z) (N : nat) (F : list Z -> list Z) (c : positive)
  (lo cnt : nat) : bool :=
  forallb (fun k => all_zero (peval_words F c (unpack W N (2 ^ Z.of_nat k)))) (seq lo cnt).

(** ** The transitions on the words of state, in logical order *)

Module Logical.

Definition xoshiro4 (W A B : Z) (s : list Z) : list Z :=
  match s with
  | [s0; s1; s2; s3] =>
      let t2 := Z.lxor s2 s0 in
      let t3 := Z.lxor s3 s1 in
      [Z.lxor s0 t3; Z.lxor s1 t2; Z.lxor t2 (Word.shl W s1 A); Word.rotl W t3 B]
  | _ => s
  end.

Definition xoshiro8 (W A B : Z) (s : list Z) : list Z :=
  match s with
  | [s0; s1; s2; s3; s4; s5; s6; s7] =>
      let t2 := Z.lxor s2 s0 in
      let t5 := Z.lxor s5 s1 in
      let t7 := Z.lxor s7 s3 in
      [Z.lxor s0 s6; Z.lxor s1 t2; t2; Z.lxor s3 s4; Z.lxor s4 t5; t5;
       Z.lxor (Z.lxor s6 t7) (Word.shl W s1 A); Word.rotl W t7 B]
  | _ => s
  end.

(** The first word leaves, the others move down one place, and the last two
    places take the two new words. *)
Definition xoroshiro (W A B C : Z) (s : list Z) : list Z :=
  match s with
  | s0 :: rest =>
      let s1 := Z.lxor (last rest 0) s0 in
      removelast rest
        ++ [Z.lxor (Z.lxor (Word.rotl W s0 A) (Word.shl W s1 B)) s1; Word.rotl W s1 C]
  | [] => s
  end.

End Logical.

(** The sum over GF(2) of [f i] over the coefficients [i < k] of [q]. *)
Fixpoint xsum (f : nat -> Z) (q : Z) (k : nat) : Z :=
  match k with
  | O => 0
  | S k' => Z.lxor (xsum f q k') (if Z.testbit q (Z.of_nat k') then f k' else 0)
  end.

(** What the loop of the word riffle does to one of its two words. *)
Fixpoint riffle_half (W : Z) (i : positive) (x : Z) : Z :=
  let div := Z.lor (Word.shl W 1 (Zpos i)) 1 in
  let msk := Word.ones W / div in
  let x := Z.land (Z.lxor x (Word.shl W x (Zpos i))) msk in
  match i with
  | xH => x
  | xO j | xI j => riffle_half W j x
  end.

(** The word riffle squares the unit vectors of a half word. *)
Definition riffle_units (W : Z) : bool :=
  match W / 4 with
  | Zpos i =>
      forallb (fun k => riffle_half W i (2 ^ Z.of_nat k) =? GF2.spread (2 ^ Z.of_nat k))
              (seq 0 (Z.to_nat (W / 2)))
  | _ => false
  end.

(** ** A state type and its transition on the words in logical order *)

Record refines (S : State) (F : list Z -> list Z) : Prop := {
  refines_digits : 0 < word_digits S;
  refines_count : (1 <= word_count S)%nat;
  refines_words : forall st, wf S st ->
    words_ok (word_digits S) (word_count S) (get_state S st);
  refines_index : forall st w, wf S st -> (w < word_count S)%nat ->
    index S st w = get (get_state S st) w;
  refines_step_wf : forall st, wf S st -> wf S (step S st);
  refines_step : forall st, wf S st -> get_state S (step S st) = F (get_state S st);
  refines_seed_wf : forall ws st, wf S st ->
    words_ok (word_digits S) (word_count S) ws -> wf S (seed S ws st);
  refines_seed : forall ws st, wf S st ->
    words_ok (word_digits S) (word_count S) ws -> get_state S (seed S ws st) = ws;
  refines_ok : forall s, words_ok (word_digits S) (word_count S) s ->
    words_ok (word_digits S) (word_count S) (F s);
  refines_lin : forall a b,
    words_ok (word_digits S) (word_count S) a ->
    words_ok (word_digits S) (word_count S) b ->
    F (vxor a b) = vxor (F a) (F b)
}.

(** ** The transitions with their constants computed beforehand

    [m] is the largest word, [A'] and the like the distance of the right
    shift of a rotation. *)

Module Fast.

Definition shl (m x k : Z) : Z := Z.land (Z.shiftl x k) m.

Definition rotl (m x r r' : Z) : Z := Z.lor (shl m x r) (Z.shiftr x r').

Definition xoshiro4 (m A B B' : Z) (s : list Z) : list Z :=
  match s with
  | [s0; s1; s2; s3] =>
      let t2 := Z.lxor s2 s0 in
      let t3 := Z.lxor s3 s1 in
      [Z.lxor s0 t3; Z.lxor s1 t2; Z.lxor t2 (shl m s1 A); rotl m t3 B B']
  | _ => s
  end.

Definition xoshiro8 (m A B B' : Z) (s : list Z) : list Z :=
  match s with
  | [s0; s1; s2; s3; s4; s5; s6; s7] =>
      let t2 := Z.lxor s2 s0 in
      let t5 := Z.lxor s5 s1 in
      let t7 := Z.lxor s7 s3 in
      [Z.lxor s0 s6; Z.lxor s1 t2; t2; Z.lxor s3 s4; Z.lxor s4 t5; t5;
       Z.lxor (Z.lxor s6 t7) (shl m s1 A); rotl m t7 B B']
  | _ => s
  end.

Definition xoroshiro (m A A' B C C' : Z) (s : list Z) : list Z :=
  match s with
  | s0 :: rest =>
      let s1 := Z.lxor (last rest 0) s0 in
      removelast rest
        ++ [Z.lxor (Z.lxor (rotl m s0 A A') (shl m s1 B)) s1; rotl m s1 C C']
  | [] => s
  end.

End Fast.

Definition list_eqb (a b : list Z) : bool :=
  (length a =? length b)%nat && forallb (fun xy => fst xy =? snd xy) (combine a b).

(** [F] sends the unit vector [k + W] to the unit vector [k], for [k] in
    [lo], ..., [lo + cnt - 1]: a word alone in the state moves down one
    place. *)
Definition shifts_down (W : Z) (N : nat) (F : list Z -> list Z) (lo cnt : nat) : bool :=
  forallb (fun k => list_eqb (F (unpack W N (2 ^ (Z.of_nat k + W))))
                             (unpack W N (2 ^ Z.of_nat k)))
          (seq lo cnt).

(** ** The state types of the library *)

(** The instances of the two class templates that compile. *)
Inductive state_type : State -> Prop :=
| state_xoshiro (N : nat) (T : word_type) (A B : Z) (St : State) :
    xoshiro N T A B = Some St -> state_type St
| state_xoroshiro (N : nat) (T : word_type) (A B C : Z) :
    state_type (xoroshiro N T A B C).

(** [c(x) = x^n + p(x)] of a state type with a table entry. *)
Definition characteristic_polynomial (St : State) : positive :=
  match characteristic_coefficients St with
  | ok p => Z.to_pos (2 ^ bit_count St + pack (word_digits St) p)
  | invalid_argument _ => 1%positive
  end.

(** What makes the jumps of a state type with the table entry [p] right:
    a linear transition on its words for which [c(F) = 0]. *)
Definition jumpable (St : State) (p : list Z) : Prop :=
  exists (F : list Z -> list Z) (T : word_type),
    refines St F /\ word_digits St = digits T /\
    words_ok (word_digits St) (word_count St) p /\
    bit_count St < 2 ^ 64 /\ 64 <= bit_count St /\
    forall k : nat, Z.of_nat k < bit_count St ->
      all_zero (peval_words F (Z.to_pos (2 ^ bit_count St + pack (word_digits St) p))
                  (unpack (word_digits St) (word_count St) (2 ^ Z.of_nat k))) = true.

(** A state together with the number of calls of its [step]. *)
Definition counting (St : State) : State :=
  {| carrier := carrier St * nat;
     word_count := word_count St;
     word_digits := word_digits St;
     index := fun st => index St (fst st);
     get_state := fun st => get_state St (fst st);
     seed := fun ws st => (seed St ws (fst st), snd st);
     step := fun st => (step St (fst st), S (snd st));
     characteristic_coefficients := characteristic_coefficients St;
     wf := fun st => wf St (fst st) |}.

(** * Generators: [class generator<State, Scrambler>] *)

(** ** The scramblers

    A scrambler is a functor from a state, which it reads through
    [operator[]], to one output word.  The arithmetic is the one of the
    word type, as it is for [uint32_t] and [uint64_t]. *)

Module Scrambler.
Section Scrambler.
Variable W : Z.

(** [state[w] * S] *)
Definition star (S : Z) (w : nat) (state : nat -> Z) : Z :=
  Word.wrap W (state w * S).

(** [std::rotl(state[w] * S, R) * T] *)
Definition star_star (S R T : Z) (w : nat) (state : nat -> Z) : Z :=
  Word.wrap W (Word.rotl W (Word.wrap W (state w * S)) R * T).

(** [state[w0] + state[w1]] *)
Definition plus (w0 w1 : nat) (state : nat -> Z) : Z :=
  Word.wrap W (state w0 + state w1).

(** [std::rotl(state[w0] + state[w1], R) + state[w0]] *)
Definition plus_plus (R : Z) (w0 w1 : nat) (state : nat -> Z) : Z :=
  Word.wrap W (Word.rotl W (Word.wrap W (state w0 + state w1)) R + state w0).

End Scrambler.
End Scrambler.

Module Generator.

(** [split_mix64(state)]: the output and the state after the call. *)
Definition split_mix64 (state : Z) : Z * Z :=
  let state := Word.wrap 64 (state + 0x9e3779b97f4a7c15) in
  let z := state in
  let z := Word.wrap 64 (Z.lxor z (Word.shr z 30) * 0xbf58476d1ce4e5b9) in
  let z := Word.wrap 64 (Z.lxor z (Word.shr z 27) * 0x94d049bb133111eb) in
  let z := Z.lxor z (Word.shr z 31) in
  (z, state).

Definition murmur_scramble64 (x : Z) : Z :=
  let x := Z.lxor x (Word.shr x 33) in
  let x := Word.wrap 64 (x * 0xff51afd7ed558ccd) in
  let x := Z.lxor x (Word.shr x 33) in
  let x := Word.wrap 64 (x * 0xc4ceb9fe1a85ec53) in
  Z.lxor x (Word.shr x 33).

(** The loop [for (auto& word : full_state) word = split_mix64(sm64_state)]
    over an array of [n] words of [W] bits. *)
Fixpoint fill_words (W : Z) (n : nat) (sm64_state : Z) : list Z :=
  match n with
  | O => []
  | S n' =>
      let (z, sm64_state) := split_mix64 sm64_state in
      Word.wrap W z :: fill_words W n' sm64_state
  end.

Section Generator.
(** The template parameters: the state type and the scrambler. *)
Variables (St : State) (scrambler : (nat -> Z) -> Z).

(** What a generator gives to [jump] and [partition]: its methods hand
    over to the ones of [m_state]. *)
Definition as_state : State :=
  {| carrier := carrier St;
     word_count := word_count St;
     word_digits := word_digits St;
     index := fun g i => index St g i;
     get_state := fun g => get_state St g;
     seed := fun words g => seed St words g;
     step := fun g => step St g;
     characteristic_coefficients := characteristic_coefficients St;
     wf := fun g => wf St g |}.

(** [seed(word_type seed)] *)
Definition seed_word (s : Z) (g : carrier St) : carrier St :=
  let sm64_state := murmur_scramble64 s in
  let full_state := fill_words (word_digits St) (word_count St) sm64_state in
  seed St full_state g.

(** [operator()]: the value returned and the generator after the call. *)
Definition call (g : carrier St) : Z * carrier St :=
  let retval := scrambler (index St g) in
  (retval, step St g).

(** [discard(z)] *)
Definition discard (z : Z) (g : carrier St) : carrier St :=
  Nat.iter (Z.to_nat z) (step St) g.

(** The values of [k] calls of [operator()] in a row. *)
Fixpoint outputs (k : nat) (g : carrier St) : list Z :=
  match k with
  | O => []
  | S k' => fst (call g) :: outputs k' (snd (call g))
  end.

End Generator.
End Generator.

(** * The reference generators: [examples/vigna.h], [namespace old] *)

Module Vigna.

(** [old::rotl] on [uint64_t]: [(x << k) | (x >> (64 - k))] *)
Definition rotl (x k : Z) : Z := Z.lor (Word.shl 64 x k) (Word.shr x (64 - k)).

(** [struct xoshiro_4x64_star_star]: [next] on the array [s], the value
    returned and the array after the call. *)
Definition xoshiro_4x64_star_star_next (s : list Z) : Z * list Z :=
  let result := Word.wrap 64 (rotl (Word.wrap 64 (get s 1 * 5)) 7 * 9) in
  let t := Word.shl 64 (get s 1) 17 in
  let s := upd 2 (Z.lxor (get s 2) (get s 0)) s in
  let s := upd 3 (Z.lxor (get s 3) (get s 1)) s in
  let s := upd 1 (Z.lxor (get s 1) (get s 2)) s in
  let s := upd 0 (Z.lxor (get s 0) (get s 3)) s in
  let s := upd 2 (Z.lxor (get s 2) t) s in
  let s := upd 3 (rotl (get s 3) 45) s in
  (result, s).

(** [struct xoroshiro_2x64_plus] *)
Definition xoroshiro_2x64_plus_next (s : list Z) : Z * list Z :=
  let s0 := get s 0 in
  let s1 := get s 1 in
  let result := Word.wrap 64 (s0 + s1) in
  let s1 := Z.lxor s1 s0 in
  let s := upd 0 (Z.lxor (Z.lxor (rotl s0 24) s1) (Word.shl 64 s1 16)) s in
  let s := upd 1 (rotl s1 37) s in
  (result, s).

(** [struct xoroshiro_16x64_star_star]: the members [p] and [s]. *)
Record ring : Type := mk_ring { p : nat; s : list Z }.

Definition xoroshiro_16x64_star_star_next (g : ring) : Z * ring :=
  let q := p g in
  let p' := Nat.land (p g + 1) 15 in
  let s0 := get (s g) p' in
  let s15 := get (s g) q in
  let result := Word.wrap 64 (rotl (Word.wrap 64 (s0 * 5)) 7 * 9) in
  let s15 := Z.lxor s15 s0 in
  let arr := upd q (Z.lxor (Z.lxor (rotl s0 25) s15) (Word.shl 64 s15 27)) (s g) in
  let arr := upd p' (rotl s15 36) arr in
  (result, mk_ring p' arr).

(** The values of [k] calls of a [next] in a row. *)
Fixpoint outputs {A : Type} (next : A -> Z * A) (k : nat) (g : A) : list Z :=
  match k with
  | O => []
  | S k' => fst (next g) :: outputs next k' (snd (next g))
  end.

End Vigna.

(** * Arrays *)

Lemma length_upd (i : nat) (x : Z) (a : list Z) : length (upd i x a) = length a.
Proof.
  revert i; induction a as [|h t IH]; intros [|i]; simpl; auto.
Qed.

Lemma get_upd_same (i : nat) (x : Z) (a : list Z) :
  (i < length a)%nat -> get (upd i x a) i = x.
Proof.
  unfold get; revert i; induction a as [|h t IH]; intros [|i] H; simpl in *; try lia; auto.
  apply IH; lia.
Qed.

Lemma get_upd_other (i j : nat) (x : Z) (a : list Z) :
  i <> j -> get (upd i x a) j = get a j.
Proof.
  unfold get; revert i j; induction a as [|h t IH]; intros [|i] [|j] H; simpl; auto; try lia.
Qed.

Lemma get_upd (i j : nat) (x : Z) (a : list Z) :
  get (upd i x a) j = if (i =? j)%nat && (i <? length a)%nat then x else get a j.
Proof.
  destruct (Nat.eqb_spec i j) as [->|Hn]; simpl.
  - destruct (Nat.ltb_spec j (length a)).
    + apply get_upd_same; auto.
    + unfold get. rewrite !nth_overflow; auto. rewrite length_upd; auto.
  - apply get_upd_other; auto.
Qed.

Lemma get_overflow (a : list Z) (i : nat) : (length a <= i)%nat -> get a i = 0.
Proof. intros; unfold get; apply nth_overflow; auto. Qed.

Lemma list_get_ext (a b : list Z) :
  length a = length b ->
  (forall i, (i < length a)%nat -> get a i = get b i) ->
  a = b.
Proof.
  intros Hl H. apply (nth_ext a b 0 0); auto.
Qed.

Lemma Forall_get (P : Z -> Prop) (a : list Z) :
  Forall P a <-> (forall i, (i < length a)%nat -> P (get a i)).
Proof.
  split.
  - intros H i Hi. rewrite Forall_forall in H. apply H. apply nth_In; auto.
  - intros H. rewrite Forall_forall. intros x Hx.
    destruct (In_nth a x 0 Hx) as [i [Hi <-]]. apply H; auto.
Qed.

Lemma Forall_upd (P : Z -> Prop) (i : nat) (x : Z) (a : list Z) :
  Forall P a -> P x -> Forall P (upd i x a).
Proof.
  intros Ha Hx. rewrite Forall_get in *. intros j Hj.
  rewrite length_upd in Hj. rewrite get_upd.
  destruct ((i =? j)%nat && (i <? length a)%nat); auto.
Qed.

Lemma get_repeat (x : nat) (i : nat) : get (repeat 0 x) i = 0.
Proof.
  unfold get. revert i; induction x; intros [|i]; simpl; auto.
Qed.

Lemma get_app_l (a b : list Z) (i : nat) : (i < length a)%nat -> get (a ++ b) i = get a i.
Proof. intros; unfold get; apply app_nth1; auto. Qed.

Lemma get_app_r (a b : list Z) (i : nat) :
  (length a <= i)%nat -> get (a ++ b) i = get b (i - length a).
Proof. intros; unfold get; apply app_nth2; auto. Qed.

Lemma get_map_seq (f : nat -> Z) (N i : nat) :
  (i < N)%nat -> get (map f (seq 0 N)) i = f i.
Proof.
  intros H. unfold get.
  rewrite (nth_indep _ 0 (f 0%nat)) by (rewrite length_map, length_seq; auto).
  rewrite map_nth, seq_nth; auto.
Qed.

Lemma copy_into_full (src dst : list Z) :
  length src = length dst -> copy_into src dst = src.
Proof.
  intros H. unfold copy_into. rewrite <- H, firstn_all, H, skipn_all, app_nil_r; auto.
Qed.

(** A loop [for i in lo .. lo + cnt - 1] whose body writes [a[i]] from the
    words at [i] and above. *)
Lemma fold_upd_seq (f : list Z -> nat -> Z) (cnt lo : nat) (a : list Z) :
  (forall b i, (lo <= i < lo + cnt)%nat ->
               (forall j, (i <= j)%nat -> get b j = get a j) ->
               length b = length a -> f b i = f a i) ->
  let r := fold_left (fun m i => upd i (f m i) m) (seq lo cnt) a in
  length r = length a /\
  forall j, get r j =
            if (lo <=? j)%nat && (j <? lo + cnt)%nat && (j <? length a)%nat
            then f a j else get a j.
Proof.
  revert lo a; induction cnt as [|cnt IH]; intros lo a Hf; simpl.
  - split; auto. intros j.
    destruct (Nat.leb_spec lo j), (Nat.ltb_spec j (lo + 0)); simpl; auto; lia.
  - set (a1 := upd lo (f a lo) a).
    assert (Hl1 : length a1 = length a) by apply length_upd.
    assert (Hfa : forall i, (lo < i < lo + S cnt)%nat -> f a1 i = f a i).
    { intros i Hi. apply Hf; auto; try lia.
      intros j' Hj'. unfold a1. apply get_upd_other. lia. }
    destruct (IH (S lo) a1) as [L G].
    { intros b i Hi Hb Hlb.
      rewrite Hfa by lia. apply Hf; try lia.
      intros j Hj. rewrite Hb by lia. unfold a1. apply get_upd_other. lia. }
    split; [lia|]. intros j. rewrite G, Hl1.
    destruct (Nat.ltb_spec j (length a)); rewrite ?andb_false_r, ?andb_true_r.
    + destruct (Nat.leb_spec (S lo) j), (Nat.ltb_spec j (S lo + cnt)),
        (Nat.leb_spec lo j), (Nat.ltb_spec j (lo + S cnt)); simpl; try lia.
      * apply Hfa; lia.
      * unfold a1. rewrite get_upd_other; auto; lia.
      * assert (j = lo) by lia; subst j. unfold a1. apply get_upd_same; auto.
      * unfold a1. rewrite get_upd_other; auto; lia.
    + rewrite !(get_overflow _ j) by lia. reflexivity.
Qed.

(** A loop [for i in lo + cnt - 1 .. lo], downwards, whose body writes
    [a[i]] from the words at [i] and below. *)
Lemma fold_upd_rev_seq (f : list Z -> nat -> Z) (cnt lo : nat) (a : list Z) :
  (forall b i, (lo <= i < lo + cnt)%nat ->
               (forall j, (j <= i)%nat -> get b j = get a j) ->
               length b = length a -> f b i = f a i) ->
  let r := fold_left (fun m i => upd i (f m i) m) (rev (seq lo cnt)) a in
  length r = length a /\
  forall j, get r j =
            if (lo <=? j)%nat && (j <? lo + cnt)%nat && (j <? length a)%nat
            then f a j else get a j.
Proof.
  revert a; induction cnt as [|cnt IH]; intros a Hf.
  - simpl. split; auto. intros j.
    destruct (Nat.leb_spec lo j), (Nat.ltb_spec j (lo + 0)); simpl; auto; lia.
  - rewrite seq_S, rev_app_distr. simpl.
    set (a1 := upd (lo + cnt) (f a (lo + cnt)%nat) a).
    assert (Hl1 : length a1 = length a) by apply length_upd.
    assert (Hfa : forall i, (lo <= i < lo + cnt)%nat -> f a1 i = f a i).
    { intros i Hi. apply Hf; auto; try lia.
      intros j' Hj'. unfold a1. apply get_upd_other. lia. }
    destruct (IH a1) as [L G].
    { intros b i Hi Hb Hlb.
      rewrite Hfa by lia. apply Hf; try lia.
      intros j Hj. rewrite Hb by lia. unfold a1. apply get_upd_other. lia. }
    split; [lia|]. intros j. rewrite G, Hl1.
    destruct (Nat.ltb_spec j (length a)); rewrite ?andb_false_r, ?andb_true_r.
    + destruct (Nat.leb_spec lo j), (Nat.ltb_spec j (lo + cnt)),
        (Nat.ltb_spec j (lo + S cnt)); simpl; try lia.
      * apply Hfa; lia.
      * assert (j = (lo + cnt)%nat) by lia; subst j. unfold a1. apply get_upd_same; auto.
      * unfold a1. rewrite get_upd_other; auto; lia.
      * unfold a1. rewrite get_upd_other; auto; lia.
    + rewrite !(get_overflow _ j) by lia. reflexivity.
Qed.

(** * Words *)

Lemma in_range_mod (W x : Z) : 0 <= W -> (Word.in_range W x <-> x mod 2 ^ W = x).
Proof.
  intros HW. unfold Word.in_range. split; intros H.
  - apply Z.mod_small; auto.
  - rewrite <- H. apply Z.mod_pos_bound. apply Z.pow_pos_nonneg; lia.
Qed.

Lemma in_range_testbit (W x i : Z) :
  0 <= W -> Word.in_range W x -> W <= i -> Z.testbit x i = false.
Proof.
  intros HW H Hi. apply (in_range_mod W x HW) in H. rewrite <- H.
  apply Z.mod_pow2_bits_high; lia.
Qed.

Lemma in_range_wrap (W x : Z) : 0 <= W -> Word.in_range W (Word.wrap W x).
Proof.
  intros. unfold Word.in_range, Word.wrap. apply Z.mod_pos_bound.
  apply Z.pow_pos_nonneg; lia.
Qed.

Lemma in_range_shl (W x k : Z) : 0 <= W -> Word.in_range W (Word.shl W x k).
Proof. intros; apply in_range_wrap; auto. Qed.

Lemma in_range_0 (W : Z) : 0 <= W -> Word.in_range W 0.
Proof. intros. unfold Word.in_range. split; [lia|]. apply Z.pow_pos_nonneg; lia. Qed.

Lemma in_range_lxor (W a b : Z) :
  0 <= W -> Word.in_range W a -> Word.in_range W b -> Word.in_range W (Z.lxor a b).
Proof.
  intros HW Ha Hb. apply in_range_mod in Ha; auto. apply in_range_mod in Hb; auto.
  apply in_range_mod; auto. rewrite <- Ha, <- Hb at 2. Z.bitblast.
Qed.

Lemma in_range_lor (W a b : Z) :
  0 <= W -> Word.in_range W a -> Word.in_range W b -> Word.in_range W (Z.lor a b).
Proof.
  intros HW Ha Hb. apply in_range_mod in Ha; auto. apply in_range_mod in Hb; auto.
  apply in_range_mod; auto. rewrite <- Ha, <- Hb at 2. Z.bitblast.
Qed.

Lemma in_range_land_l (W a b : Z) :
  0 <= W -> Word.in_range W a -> Word.in_range W (Z.land a b).
Proof.
  intros HW Ha. apply in_range_mod in Ha; auto.
  apply in_range_mod; auto. rewrite <- Ha at 2. Z.bitblast.
Qed.

Lemma in_range_shr (W x k : Z) :
  0 <= W -> 0 <= k -> Word.in_range W x -> Word.in_range W (Word.shr x k).
Proof.
  intros HW Hk Hx. unfold Word.shr. apply in_range_mod; auto.
  apply Z.bits_inj'. intros i Hi.
  rewrite Z.testbit_mod_pow2, Z.shiftr_spec by lia.
  destruct (Z.ltb_spec i W); simpl; auto.
  symmetry. apply (in_range_testbit W); auto. lia.
Qed.

Lemma in_range_rotl (W x s : Z) :
  0 < W -> Word.in_range W x -> Word.in_range W (Word.rotl W x s).
Proof.
  intros HW Hx. unfold Word.rotl.
  destruct (s mod W =? 0); auto.
  apply in_range_lor; try lia.
  - apply in_range_shl; lia.
  - apply in_range_shr; try lia; auto.
    pose proof (Z.mod_pos_bound s W HW). lia.
Qed.

Lemma testbit_shl (W x k i : Z) :
  0 <= W -> 0 <= k -> 0 <= i ->
  Z.testbit (Word.shl W x k) i = (i <? W) && Z.testbit x (i - k).
Proof.
  intros. unfold Word.shl, Word.wrap.
  rewrite Z.testbit_mod_pow2, Z.shiftl_spec by lia. reflexivity.
Qed.

Lemma shl_lxor (W a b k : Z) :
  0 <= W -> 0 <= k ->
  Word.shl W (Z.lxor a b) k = Z.lxor (Word.shl W a k) (Word.shl W b k).
Proof.
  intros. unfold Word.shl, Word.wrap. Z.bitblast.
Qed.

Lemma rotl_lxor (W a b s : Z) :
  0 < W -> Word.in_range W a -> Word.in_range W b ->
  Word.rotl W (Z.lxor a b) s = Z.lxor (Word.rotl W a s) (Word.rotl W b s).
Proof.
  intros HW Ha Hb. unfold Word.rotl.
  destruct (s mod W =? 0); auto.
  pose proof (Z.mod_pos_bound s W HW) as Hs.
  unfold Word.shl, Word.wrap, Word.shr.
  apply Z.bits_inj'; intros i Hi.
  assert (Ha' := fun j => in_range_testbit W a j (Z.lt_le_incl _ _ HW) Ha).
  assert (Hb' := fun j => in_range_testbit W b j (Z.lt_le_incl _ _ HW) Hb).
  Z.rewrite_bitwise.
  destruct (Z.ltb_spec i W); simpl.
  - destruct (Z.ltb_spec i (s mod W)).
    + rewrite !(Z.testbit_neg_r _ (i - s mod W)) by lia. btauto.
    + rewrite (Ha' (i + (W - s mod W))), (Hb' (i + (W - s mod W))) by lia. btauto.
  - rewrite (Ha' (i + (W - s mod W))), (Hb' (i + (W - s mod W))) by lia. btauto.
Qed.

(** * Arrays of words as integers *)

Lemma words_ok_length (W : Z) (N : nat) (a : list Z) : words_ok W N a -> length a = N.
Proof. intros [H _]; auto. Qed.

Lemma words_ok_get (W : Z) (N : nat) (a : list Z) (i : nat) :
  0 <= W -> words_ok W N a -> Word.in_range W (get a i).
Proof.
  intros HW [Hl Hr]. destruct (Nat.ltb_spec i (length a)).
  - rewrite Forall_get in Hr. auto.
  - rewrite get_overflow by lia. apply in_range_0; auto.
Qed.

Lemma words_ok_upd (W : Z) (N : nat) (a : list Z) (i : nat) (x : Z) :
  words_ok W N a -> Word.in_range W x -> words_ok W N (upd i x a).
Proof.
  intros [Hl Hr] Hx. split.
  - rewrite length_upd; auto.
  - apply Forall_upd; auto.
Qed.

Lemma words_ok_repeat (W : Z) (N : nat) : 0 <= W -> words_ok W N (repeat 0 N).
Proof.
  intros. split.
  - apply repeat_length.
  - apply Forall_forall. intros x Hx. apply repeat_spec in Hx. subst. apply in_range_0; auto.
Qed.

Lemma pack_range (W : Z) (a : list Z) :
  0 <= W -> Forall (Word.in_range W) a ->
  0 <= pack W a < 2 ^ (W * Z.of_nat (length a)).
Proof.
  intros HW. induction 1 as [|w t Hw Ht IH].
  - simpl. rewrite Z.mul_0_r. simpl. lia.
  - cbn [pack length]. rewrite Nat2Z.inj_succ, Z.mul_succ_r, Z.pow_add_r by lia.
    unfold Word.in_range in Hw.
    assert (0 < 2 ^ W) by (apply Z.pow_pos_nonneg; lia).
    nia.
Qed.

Lemma testbit_pack (W : Z) (a : list Z) (i : Z) :
  0 < W -> Forall (Word.in_range W) a -> 0 <= i ->
  Z.testbit (pack W a) i = Z.testbit (get a (Z.to_nat (i / W))) (i mod W).
Proof.
  intros HW Ha. revert i. induction Ha as [|w t Hw Ht IH]; intros i Hi.
  - simpl. unfold get. destruct (Z.to_nat (i / W)); simpl; rewrite !Z.testbit_0_l; auto.
  - cbn [pack]. unfold Word.in_range in Hw.
    destruct (Z.ltb_spec i W).
    + rewrite Z.div_small, Z.mod_small by lia. simpl. unfold get; simpl.
      rewrite <- (Z.mod_pow2_bits_low _ W) by lia.
      replace (w + 2 ^ W * pack W t) with (w + pack W t * 2 ^ W) by lia.
      rewrite Z.mod_add, Z.mod_small by lia. auto.
    + replace i with ((i - W) + W) at 1 by lia.
      rewrite <- Z.div_pow2_bits by lia.
      replace (w + 2 ^ W * pack W t) with (w + pack W t * 2 ^ W) by lia.
      rewrite Z.div_add, Z.div_small, Z.add_0_l by lia.
      rewrite IH by lia.
      replace (i / W) with ((i - W) / W + 1).
      2:{ replace i with ((i - W) + 1 * W) at 2 by lia. rewrite Z.div_add by lia. auto. }
      replace (i mod W) with ((i - W) mod W).
      2:{ replace i with ((i - W) + 1 * W) at 2 by lia. rewrite Z.mod_add by lia. auto. }
      rewrite Z2Nat.inj_add by (try lia; apply Z.div_pos; lia).
      rewrite Nat.add_1_r. reflexivity.
Qed.

Lemma length_unpack (W : Z) (N : nat) (z : Z) : length (unpack W N z) = N.
Proof. unfold unpack. rewrite length_map, length_seq; auto. Qed.

Lemma get_unpack (W : Z) (N : nat) (z : Z) (j : nat) :
  0 <= W -> (j < N)%nat -> get (unpack W N z) j = Z.shiftr z (W * Z.of_nat j) mod 2 ^ W.
Proof. intros. unfold unpack. rewrite get_map_seq; auto. apply Z.land_ones; auto. Qed.

Lemma words_ok_unpack (W : Z) (N : nat) (z : Z) : 0 <= W -> words_ok W N (unpack W N z).
Proof.
  intros HW. split; [apply length_unpack|].
  apply Forall_get. intros i Hi. rewrite length_unpack in Hi.
  rewrite get_unpack by auto. apply Z.mod_pos_bound. apply Z.pow_pos_nonneg; lia.
Qed.

Lemma div_mod_index (W i : Z) (N : nat) :
  0 < W -> 0 <= i ->
  ((Z.to_nat (i / W) < N)%nat <-> i < Z.of_nat N * W).
Proof.
  intros HW Hi. pose proof (Z.div_pos i W Hi HW).
  rewrite Nat2Z.inj_lt, Z2Nat.id by auto.
  split; intros H1.
  - pose proof (Z.mul_div_le i W HW). pose proof (Z.mod_pos_bound i W HW).
    pose proof (Z.div_mod i W). nia.
  - apply Z.div_lt_upper_bound; lia.
Qed.

Lemma pack_unpack (W : Z) (N : nat) (z : Z) :
  0 < W -> pack W (unpack W N z) = z mod 2 ^ (Z.of_nat N * W).
Proof.
  intros HW. apply Z.bits_inj'. intros i Hi.
  rewrite testbit_pack; auto.
  2:{ apply words_ok_unpack; lia. }
  pose proof (Z.mod_pos_bound i W HW).
  rewrite Z.testbit_mod_pow2 by lia.
  destruct (Z.ltb_spec i (Z.of_nat N * W)) as [Hlt|Hge]; simpl.
  - rewrite get_unpack by (try lia; apply div_mod_index; auto).
    rewrite Z.testbit_mod_pow2 by lia.
    rewrite Z.shiftr_spec by lia.
    rewrite Z2Nat.id by (apply Z.div_pos; lia).
    replace (i mod W + W * (i / W)) with i by (pose proof (Z.div_mod i W); lia).
    destruct (Z.ltb_spec (i mod W) W); try lia. reflexivity.
  - rewrite get_overflow; [apply Z.testbit_0_l|].
    rewrite length_unpack.
    destruct (Nat.le_gt_cases N (Z.to_nat (i / W))); auto.
    apply div_mod_index in H0; auto. lia.
Qed.

Lemma unpack_pack (W : Z) (N : nat) (a : list Z) :
  0 < W -> words_ok W N a -> unpack W N (pack W a) = a.
Proof.
  intros HW [Hl Hr]. apply list_get_ext.
  - rewrite length_unpack; auto.
  - intros j Hj. rewrite length_unpack in Hj. rewrite get_unpack by (auto; lia).
    assert (Hg : Word.in_range W (get a j)) by (apply (words_ok_get W N); try lia; split; auto).
    apply in_range_mod in Hg; try lia. rewrite <- Hg.
    apply Z.bits_inj'. intros i Hi.
    rewrite !Z.testbit_mod_pow2 by lia.
    destruct (Z.ltb_spec i W); simpl; auto.
    rewrite Z.shiftr_spec, testbit_pack by (auto; nia).
    replace (i + W * Z.of_nat j) with (i + Z.of_nat j * W) by lia.
    rewrite Z.div_add, Z.mod_add, Z.div_small, Z.mod_small by lia.
    simpl. rewrite Nat2Z.id. reflexivity.
Qed.

Lemma pack_words_range (W : Z) (N : nat) (a : list Z) :
  0 <= W -> words_ok W N a -> 0 <= pack W a < 2 ^ (Z.of_nat N * W).
Proof.
  intros HW [Hl Hr]. pose proof (pack_range W a HW Hr) as H. rewrite Hl in H.
  rewrite Z.mul_comm. exact H.
Qed.

Lemma pack_inj (W : Z) (N : nat) (a b : list Z) :
  0 < W -> words_ok W N a -> words_ok W N b -> pack W a = pack W b -> a = b.
Proof.
  intros HW Ha Hb H.
  rewrite <- (unpack_pack W N a), <- (unpack_pack W N b), H; auto.
Qed.

Lemma pack_repeat_0 (W : Z) (N : nat) : pack W (repeat 0 N) = 0.
Proof. induction N; simpl; auto. rewrite IHN. lia. Qed.

(** * Word-wise exclusive or *)

Lemma length_vxor (a b : list Z) : length (vxor a b) = Nat.min (length a) (length b).
Proof.
  revert b; induction a as [|x a IH]; intros [|y b]; simpl; auto.
Qed.

Lemma get_vxor (a b : list Z) (i : nat) :
  length a = length b -> get (vxor a b) i = Z.lxor (get a i) (get b i).
Proof.
  unfold get. revert b i; induction a as [|x a IH]; intros [|y b] [|i] H; simpl in *;
    try discriminate; auto.
Qed.

Lemma words_ok_vxor (W : Z) (N : nat) (a b : list Z) :
  0 <= W -> words_ok W N a -> words_ok W N b -> words_ok W N (vxor a b).
Proof.
  intros HW Ha Hb. pose proof (words_ok_length _ _ _ Ha). pose proof (words_ok_length _ _ _ Hb).
  split.
  - rewrite length_vxor. lia.
  - apply Forall_get. intros i Hi. rewrite get_vxor by lia.
    apply in_range_lxor; auto; eapply words_ok_get; eauto.
Qed.

Lemma pack_vxor (W : Z) (N : nat) (a b : list Z) :
  0 < W -> words_ok W N a -> words_ok W N b ->
  pack W (vxor a b) = Z.lxor (pack W a) (pack W b).
Proof.
  intros HW Ha Hb.
  pose proof (words_ok_vxor W N a b (Z.lt_le_incl _ _ HW) Ha Hb) as Hv.
  apply Z.bits_inj'. intros i Hi.
  rewrite Z.lxor_spec, !testbit_pack by (auto; first [apply Ha|apply Hb|apply Hv]).
  rewrite get_vxor, Z.lxor_spec; auto.
  rewrite (words_ok_length _ _ _ Ha), (words_ok_length _ _ _ Hb); auto.
Qed.

Lemma unpack_lxor (W : Z) (N : nat) (x y : Z) :
  0 <= W -> unpack W N (Z.lxor x y) = vxor (unpack W N x) (unpack W N y).
Proof.
  intros HW. apply list_get_ext.
  - rewrite length_vxor, !length_unpack. lia.
  - intros j Hj. rewrite length_unpack in Hj.
    rewrite get_vxor by (rewrite !length_unpack; auto).
    rewrite !get_unpack by auto.
    Z.bitblast.
Qed.

Lemma vxor_zeros_l (N : nat) (a : list Z) : length a = N -> vxor (repeat 0 N) a = a.
Proof.
  revert a; induction N; intros [|x a] H; simpl in *; try discriminate; auto.
  rewrite IHN by lia. reflexivity.
Qed.

Lemma all_zero_repeat (a : list Z) : all_zero a = true -> a = repeat 0 (length a).
Proof.
  induction a as [|x a IH]; cbn [all_zero forallb length repeat]; auto.
  intros H. apply andb_true_iff in H. destruct H as [H1 H2].
  apply Z.eqb_eq in H1. subst x. f_equal; auto.
Qed.

(** * Polynomials over GF(2) *)

Lemma Z_binary_ind (P : Z -> Prop) :
  P 0 ->
  (forall (b : bool) (z : Z), 0 <= z -> P z -> P (2 * z + Z.b2z b)) ->
  forall z, 0 <= z -> P z.
Proof.
  intros H0 Hs z Hz. destruct z as [|p|p]; auto; try lia.
  induction p as [p IH|p IH|].
  - change (Zpos p~1) with (2 * Zpos p + Z.b2z true). apply Hs; auto; lia.
  - change (Zpos p~0) with (2 * Zpos p + Z.b2z false). apply Hs; auto; lia.
  - change 1 with (2 * 0 + Z.b2z true). apply Hs; auto; lia.
Qed.

Lemma lxor_double_bit (a b : Z) (x y : bool) :
  Z.lxor (2 * a + Z.b2z x) (2 * b + Z.b2z y) = 2 * Z.lxor a b + Z.b2z (xorb x y).
Proof.
  apply Z.bits_inj'. intros i Hi.
  rewrite Z.lxor_spec.
  destruct (Z.eq_dec i 0) as [->|Hn].
  - rewrite !Z.testbit_0_r. reflexivity.
  - replace i with (Z.succ (i - 1)) by lia.
    rewrite !Z.testbit_succ_r by lia. symmetry. apply Z.lxor_spec.
Qed.

Lemma lxor_cancel_l (a b c : Z) : Z.lxor a b = Z.lxor a c -> b = c.
Proof.
  intros H.
  rewrite <- (Z.lxor_0_l b), <- (Z.lxor_nilpotent a), Z.lxor_assoc, H,
    <- Z.lxor_assoc, Z.lxor_nilpotent, Z.lxor_0_l.
  reflexivity.
Qed.

Lemma lxor_move (a b c : Z) : a = Z.lxor b c -> Z.lxor a b = c.
Proof.
  intros ->. rewrite (Z.lxor_comm b c), Z.lxor_assoc, Z.lxor_nilpotent, Z.lxor_0_r.
  reflexivity.
Qed.

Lemma pow2_pred (n : Z) : 0 < n -> 2 ^ n = 2 * 2 ^ (n - 1).
Proof.
  intros. replace n with (Z.succ (n - 1)) at 1 by lia. apply Z.pow_succ_r. lia.
Qed.

Lemma testbit_true_ge (a i : Z) : 0 <= a -> 0 <= i -> Z.testbit a i = true -> 2 ^ i <= a.
Proof.
  intros Ha Hi H.
  destruct (Z.lt_ge_cases a (2 ^ i)) as [Hlt|]; auto.
  rewrite <- (Z.mod_small a (2 ^ i)) in H by lia.
  rewrite Z.mod_pow2_bits_high in H by lia. discriminate.
Qed.

Section LinOp.
(** A map on bit vectors that is linear over GF(2). *)
Variable T : Z -> Z.
Hypothesis T_lin : forall a b, T (Z.lxor a b) = Z.lxor (T a) (T b).

Lemma lin_zero : T 0 = 0.
Proof.
  pose proof (T_lin 0 0) as H. rewrite Z.lxor_0_l in H.
  rewrite H at 1. apply Z.lxor_nilpotent.
Qed.

Lemma iter_lin (k : nat) (a b : Z) :
  Nat.iter k T (Z.lxor a b) = Z.lxor (Nat.iter k T a) (Nat.iter k T b).
Proof. induction k; simpl; auto. rewrite IHk. apply T_lin. Qed.

Lemma iter_zero (k : nat) : Nat.iter k T 0 = 0.
Proof. induction k; simpl; auto. rewrite IHk. apply lin_zero. Qed.

Lemma iter_comm (k : nat) (v : Z) : Nat.iter k T (T v) = T (Nat.iter k T v).
Proof. induction k; simpl; auto. rewrite IHk. reflexivity. Qed.

Lemma peval_pos_lxor_r (q : positive) (v w : Z) :
  GF2.peval_pos T q (Z.lxor v w) = Z.lxor (GF2.peval_pos T q v) (GF2.peval_pos T q w).
Proof.
  revert v w; induction q as [q IH|q IH|]; intros v w; simpl; auto.
  - rewrite T_lin, IH. rewrite !Z.lxor_assoc. f_equal.
    rewrite <- !Z.lxor_assoc. f_equal. apply Z.lxor_comm.
  - rewrite T_lin, IH. reflexivity.
Qed.

Lemma peval_pos_commute (q : positive) (v : Z) :
  GF2.peval_pos T q (T v) = T (GF2.peval_pos T q v).
Proof.
  revert v; induction q as [q IH|q IH|]; intros v; simpl; auto.
  rewrite T_lin, IH. reflexivity.
Qed.

Lemma peval_lxor_r (q v w : Z) :
  GF2.peval T q (Z.lxor v w) = Z.lxor (GF2.peval T q v) (GF2.peval T q w).
Proof. destruct q; simpl; auto. apply peval_pos_lxor_r. Qed.

Lemma peval_commute (q v : Z) : GF2.peval T q (T v) = T (GF2.peval T q v).
Proof.
  destruct q; simpl; auto using lin_zero, peval_pos_commute.
  all: symmetry; apply lin_zero.
Qed.

Lemma peval_0_r (q : Z) : GF2.peval T q 0 = 0.
Proof.
  pose proof (peval_lxor_r q 0 0) as H. rewrite Z.lxor_0_l in H.
  rewrite H at 1. apply Z.lxor_nilpotent.
Qed.

Lemma peval_iter (k : nat) (q v : Z) :
  GF2.peval T q (Nat.iter k T v) = Nat.iter k T (GF2.peval T q v).
Proof. induction k; simpl; auto. rewrite peval_commute, IHk. reflexivity. Qed.

Lemma peval_double_bit (b : bool) (q v : Z) :
  0 <= q ->
  GF2.peval T (2 * q + Z.b2z b) v = Z.lxor (if b then v else 0) (T (GF2.peval T q v)).
Proof.
  intros Hq. destruct q as [|p|p]; try lia.
  - destruct b; simpl; rewrite lin_zero; auto. rewrite Z.lxor_0_r. reflexivity.
  - destruct b; simpl; rewrite peval_pos_commute; auto.
Qed.

Lemma peval_double (q v : Z) : 0 <= q -> GF2.peval T (2 * q) v = T (GF2.peval T q v).
Proof.
  intros Hq. pose proof (peval_double_bit false q v Hq) as H. simpl in H.
  rewrite Z.add_0_r in H. exact H.
Qed.

Lemma peval_lxor_l (a b v : Z) :
  0 <= a -> 0 <= b ->
  GF2.peval T (Z.lxor a b) v = Z.lxor (GF2.peval T a v) (GF2.peval T b v).
Proof.
  intros Ha. revert b v. pattern a. apply Z_binary_ind; [ | | exact Ha ]; clear a Ha.
  - intros b v Hb. rewrite Z.lxor_0_l. simpl. reflexivity.
  - intros x a Ha IH b v Hb. revert v. pattern b. apply Z_binary_ind; [ | | exact Hb ].
    + intros v. rewrite Z.lxor_0_r. simpl (GF2.peval T 0 v). rewrite Z.lxor_0_r. reflexivity.
    + intros y b' Hb' _ v.
      rewrite lxor_double_bit, !peval_double_bit by (auto; apply Z.lxor_nonneg; tauto).
      rewrite IH, T_lin by auto.
      destruct x, y; simpl; rewrite ?Z.lxor_0_l, ?Z.lxor_0_r.
      * rewrite <- !Z.lxor_assoc. f_equal.
        rewrite (Z.lxor_comm (Z.lxor v _)), <- Z.lxor_assoc, Z.lxor_nilpotent, Z.lxor_0_l.
        reflexivity.
      * rewrite !Z.lxor_assoc. reflexivity.
      * rewrite <- !Z.lxor_assoc. f_equal. apply Z.lxor_comm.
      * reflexivity.
Qed.

Lemma peval_pow2 (k : nat) (v : Z) : GF2.peval T (2 ^ Z.of_nat k) v = Nat.iter k T v.
Proof.
  induction k.
  - reflexivity.
  - rewrite Nat2Z.inj_succ, Z.pow_succ_r by lia.
    rewrite peval_double by (apply Z.pow_nonneg; lia).
    rewrite IHk. reflexivity.
Qed.

Lemma peval_mul_pow2 (k : nat) (q v : Z) :
  0 <= q -> GF2.peval T (q * 2 ^ Z.of_nat k) v = Nat.iter k T (GF2.peval T q v).
Proof.
  intros Hq. induction k.
  - simpl. rewrite Z.mul_1_r. reflexivity.
  - rewrite Nat2Z.inj_succ, Z.pow_succ_r by lia.
    replace (q * (2 * 2 ^ Z.of_nat k)) with (2 * (q * 2 ^ Z.of_nat k)) by lia.
    rewrite peval_double, IHk; auto.
    apply Z.mul_nonneg_nonneg; auto. apply Z.pow_nonneg; lia.
Qed.

(** Squaring a polynomial over GF(2) and squaring its value agree. *)
Lemma peval_spread (q v : Z) :
  0 <= q -> GF2.peval T (GF2.spread q) v = GF2.peval T q (GF2.peval T q v).
Proof.
  intros Hq. revert v. pattern q. apply Z_binary_ind; [ | | exact Hq ]; clear q Hq.
  { intros v. reflexivity. }
  intros b q Hq IH v.
  assert (Hs : GF2.spread (2 * q + Z.b2z b) = 2 * (2 * GF2.spread q) + Z.b2z b).
  { destruct q as [|p|p]; try lia; destruct b; reflexivity. }
  assert (Hsp : 0 <= GF2.spread q) by (destruct q; simpl; lia).
  rewrite Hs, !peval_double_bit, peval_double, IH by (auto; lia).
  rewrite peval_lxor_r, peval_commute.
  destruct b; rewrite ?peval_0_r, ?Z.lxor_0_l; auto.
  rewrite T_lin. rewrite <- !Z.lxor_assoc. f_equal.
  rewrite Z.lxor_assoc, Z.lxor_nilpotent, Z.lxor_0_r. reflexivity.
Qed.

End LinOp.

Lemma xsum_ext (f g : nat -> Z) (q r : Z) (k : nat) :
  (forall i, (i < k)%nat -> Z.testbit q (Z.of_nat i) = Z.testbit r (Z.of_nat i)) ->
  (forall i, (i < k)%nat -> Z.testbit q (Z.of_nat i) = true -> f i = g i) ->
  xsum f q k = xsum g r k.
Proof.
  induction k; intros Hb Hf; simpl; auto.
  rewrite IHk by (intros; first [apply Hb | apply Hf]; auto; lia).
  rewrite <- Hb by lia.
  destruct (Z.testbit q (Z.of_nat k)) eqn:E; auto.
  rewrite Hf; auto.
Qed.

Lemma xsum_zero (f : nat -> Z) (q : Z) (k : nat) :
  (forall i, (i < k)%nat -> Z.testbit q (Z.of_nat i) = false) -> xsum f q k = 0.
Proof.
  induction k; intros H; simpl; auto.
  rewrite IHk, H by (intros; try apply H; lia). reflexivity.
Qed.

Lemma xsum_more (f : nat -> Z) (q : Z) (k m : nat) :
  (forall i, (k <= i < k + m)%nat -> Z.testbit q (Z.of_nat i) = false) ->
  xsum f q (k + m) = xsum f q k.
Proof.
  induction m; intros H.
  - rewrite Nat.add_0_r. reflexivity.
  - rewrite Nat.add_succ_r. simpl. rewrite IHm, H by (intros; try apply H; lia).
    apply Z.lxor_0_r.
Qed.

Lemma split_top_bit (q : Z) (k : Z) :
  0 <= k -> 0 <= q < 2 ^ (k + 1) ->
  q = Z.lxor (q mod 2 ^ k) (if Z.testbit q k then 2 ^ k else 0).
Proof.
  intros Hk Hq. apply Z.bits_inj'. intros i Hi.
  assert (Hhigh : k < i -> Z.testbit q i = false).
  { intros. apply (in_range_testbit (k + 1)); auto; lia. }
  assert (Hbit : Z.testbit (if Z.testbit q k then 2 ^ k else 0) i
                 = (k =? i) && Z.testbit q k).
  { destruct (Z.testbit q k); rewrite ?Z.pow2_bits_eqb, ?Z.testbit_0_l by lia;
      destruct (k =? i); reflexivity. }
  rewrite Z.lxor_spec, Z.testbit_mod_pow2, Hbit by lia.
  destruct (Z.ltb_spec i k), (Z.eqb_spec k i); simpl; try lia.
  - rewrite xorb_false_r. reflexivity.
  - subst. reflexivity.
  - apply Hhigh. lia.
Qed.

Lemma peval_xsum (T : Z -> Z) (q v : Z) (k : nat) :
  (forall a b, T (Z.lxor a b) = Z.lxor (T a) (T b)) ->
  0 <= q < 2 ^ Z.of_nat k ->
  GF2.peval T q v = xsum (fun i => Nat.iter i T v) q k.
Proof.
  intros HT. revert q. induction k; intros q Hq.
  - simpl in Hq. assert (q = 0) by lia. subst. reflexivity.
  - rewrite Nat2Z.inj_succ in Hq.
    assert (Hm : 0 <= q mod 2 ^ Z.of_nat k < 2 ^ Z.of_nat k).
    { apply Z.mod_pos_bound. apply Z.pow_pos_nonneg; lia. }
    rewrite (split_top_bit q (Z.of_nat k)) at 1 by lia.
    rewrite peval_lxor_l; auto; try lia.
    2:{ destruct (Z.testbit q (Z.of_nat k)); try lia. }
    rewrite (IHk _ Hm). simpl. f_equal.
    + apply xsum_ext; auto. intros i Hi. rewrite Z.testbit_mod_pow2 by lia.
      destruct (Z.ltb_spec (Z.of_nat i) (Z.of_nat k)); try lia. reflexivity.
    + destruct (Z.testbit q (Z.of_nat k)); auto. apply peval_pow2; auto.
Qed.

Section Mulx.
(** Multiplication by [x] modulo [c(x) = x^n + p(x)]. *)
Variables n p : Z.
Hypothesis Hn : 0 < n.
Hypothesis Hp : 0 <= p < 2 ^ n.

Lemma mulx_lin (a b : Z) :
  GF2.mulx n p (Z.lxor a b) = Z.lxor (GF2.mulx n p a) (GF2.mulx n p b).
Proof.
  unfold GF2.mulx. rewrite Z.lxor_spec.
  replace ((2 * Z.lxor a b) mod 2 ^ n)
    with (Z.lxor ((2 * a) mod 2 ^ n) ((2 * b) mod 2 ^ n)).
  2:{ assert (H2 : forall x, 2 * x = Z.shiftl x 1)
        by (intros; rewrite Z.shiftl_mul_pow2 by lia; lia).
      rewrite !H2. Z.bitblast. }
  destruct (Z.testbit a (n - 1)), (Z.testbit b (n - 1)); simpl;
    rewrite ?Z.lxor_0_r.
  - rewrite !Z.lxor_assoc. f_equal.
    rewrite (Z.lxor_comm p), Z.lxor_assoc, Z.lxor_nilpotent, Z.lxor_0_r. reflexivity.
  - rewrite !Z.lxor_assoc. f_equal. apply Z.lxor_comm.
  - rewrite !Z.lxor_assoc. reflexivity.
  - reflexivity.
Qed.

Lemma mulx_range (r : Z) : 0 <= GF2.mulx n p r < 2 ^ n.
Proof.
  unfold GF2.mulx. apply (in_range_lxor n); try lia.
  - apply Z.mod_pos_bound. apply Z.pow_pos_nonneg; lia.
  - destruct (Z.testbit r (n - 1)); [exact Hp|]. apply in_range_0; lia.
Qed.

Lemma mulx_small (r : Z) : 0 <= r < 2 ^ (n - 1) -> GF2.mulx n p r = 2 * r.
Proof.
  intros Hr. unfold GF2.mulx.
  rewrite (in_range_testbit (n - 1) r (n - 1)) by (unfold Word.in_range; lia).
  rewrite Z.lxor_0_r. apply Z.mod_small.
  pose proof (pow2_pred n Hn). lia.
Qed.

Lemma mulx_double (r : Z) :
  0 <= r < 2 ^ n ->
  2 * r = Z.lxor (if Z.testbit r (n - 1) then 2 ^ n + p else 0) (GF2.mulx n p r).
Proof.
  intros Hr. unfold GF2.mulx.
  assert (Hc : 2 ^ n + p = Z.lxor (2 ^ n) p).
  { apply Z.add_nocarry_lxor. apply Z.bits_inj'. intros i Hi.
    rewrite Z.land_spec, Z.pow2_bits_eqb, Z.testbit_0_l by lia.
    destruct (Z.eqb_spec n i); auto. subst i.
    rewrite (in_range_testbit n p n); auto; lia. }
  assert (H2 : 2 * r = Z.lxor ((2 * r) mod 2 ^ n) (if Z.testbit r (n - 1) then 2 ^ n else 0)).
  { assert (Hb : Z.testbit r (n - 1) = Z.testbit (2 * r) n).
    { replace n with (Z.succ (n - 1)) at 2 by lia. rewrite Z.double_bits_succ. reflexivity. }
    rewrite Hb. apply split_top_bit; try lia.
    rewrite Z.pow_add_r by lia. simpl (2 ^ 1). lia. }
  rewrite H2 at 1. rewrite Hc.
  destruct (Z.testbit r (n - 1)).
  - rewrite (Z.lxor_comm (2 ^ n) p), (Z.lxor_comm _ (Z.lxor _ p)).
    rewrite <- !Z.lxor_assoc. f_equal.
    rewrite Z.lxor_assoc, Z.lxor_nilpotent, Z.lxor_0_r. reflexivity.
  - rewrite Z.lxor_0_l. reflexivity.
Qed.

Lemma xpow_range (e : nat) : 0 <= Nat.iter e (GF2.mulx n p) 1 < 2 ^ n.
Proof.
  destruct e; simpl.
  - split; [lia|]. apply Z.pow_gt_1; lia.
  - apply mulx_range.
Qed.

Lemma xpow_small (e : nat) :
  Z.of_nat e < n -> Nat.iter e (GF2.mulx n p) 1 = 2 ^ Z.of_nat e.
Proof.
  induction e; intros He; auto.
  rewrite Nat2Z.inj_succ, Z.pow_succ_r by lia. simpl.
  rewrite IHe by lia. apply mulx_small.
  split; [apply Z.pow_nonneg; lia | apply Z.pow_lt_mono_r; lia].
Qed.

Lemma xpow_n : Nat.iter (Z.to_nat n) (GF2.mulx n p) 1 = p.
Proof.
  replace (Z.to_nat n) with (S (Z.to_nat (n - 1))) by lia. simpl.
  rewrite xpow_small by lia. rewrite Z2Nat.id by lia.
  unfold GF2.mulx.
  rewrite Z.pow2_bits_eqb, Z.eqb_refl by lia.
  rewrite <- (pow2_pred n Hn).
  rewrite Z.mod_same by (apply Z.pow_nonzero; lia). apply Z.lxor_0_l.
Qed.

Lemma peval_pos_mulx_id (q : positive) (j : Z) :
  0 <= j -> Zpos q * 2 ^ j < 2 ^ n ->
  GF2.peval_pos (GF2.mulx n p) q (2 ^ j) = Zpos q * 2 ^ j.
Proof.
  revert j. induction q as [q IH|q IH|]; intros j Hj Hq; simpl GF2.peval_pos.
  - assert (H2j : 0 < 2 ^ j) by (apply Z.pow_pos_nonneg; lia).
    assert (Hjn : 2 ^ j < 2 ^ (n - 1)).
    { apply Z.pow_lt_mono_r; try lia.
      destruct (Z.lt_ge_cases j (n - 1)); auto.
      assert (2 ^ (n - 1) <= 2 ^ j) by (apply Z.pow_le_mono_r; lia).
      pose proof (pow2_pred n Hn). nia. }
    rewrite mulx_small by lia.
    replace (2 * 2 ^ j) with (2 ^ (j + 1)) by (rewrite Z.pow_add_r by lia; lia).
    rewrite IH; try lia.
    2:{ rewrite Z.pow_add_r by lia. lia. }
    rewrite <- Z.add_nocarry_lxor.
    + rewrite Z.pow_add_r by lia. lia.
    + apply Z.bits_inj'. intros i Hi.
      rewrite Z.land_spec, Z.pow2_bits_eqb, Z.testbit_0_l, Z.mul_pow2_bits by lia.
      destruct (Z.eqb_spec j i); auto. subst i.
      rewrite Z.testbit_neg_r by lia. reflexivity.
  - assert (H2j : 0 < 2 ^ j) by (apply Z.pow_pos_nonneg; lia).
    assert (Hjn : 2 ^ j < 2 ^ (n - 1)).
    { apply Z.pow_lt_mono_r; try lia.
      destruct (Z.lt_ge_cases j (n - 1)); auto.
      assert (2 ^ (n - 1) <= 2 ^ j) by (apply Z.pow_le_mono_r; lia).
      pose proof (pow2_pred n Hn). nia. }
    rewrite mulx_small by lia.
    replace (2 * 2 ^ j) with (2 ^ (j + 1)) by (rewrite Z.pow_add_r by lia; lia).
    rewrite IH; try lia.
    + rewrite Z.pow_add_r by lia. lia.
    + rewrite Z.pow_add_r by lia. lia.
  - lia.
Qed.

(** A polynomial of degree below [n] is its own remainder. *)
Lemma peval_mulx_id (r : Z) : 0 <= r < 2 ^ n -> GF2.peval (GF2.mulx n p) r 1 = r.
Proof.
  intros Hr. destruct r as [|q|q]; try lia; auto.
  simpl. change 1 with (2 ^ 0). rewrite peval_pos_mulx_id; simpl; lia.
Qed.

(** The square of [x^a mod c] reduces to [x^(2a) mod c]. *)
Lemma peval_spread_xpow (a : nat) :
  GF2.peval (GF2.mulx n p) (GF2.spread (Nat.iter a (GF2.mulx n p) 1)) 1
  = Nat.iter (a + a) (GF2.mulx n p) 1.
Proof.
  pose proof (xpow_range a) as Hr.
  rewrite peval_spread by (try apply mulx_lin; lia).
  rewrite (peval_mulx_id _ Hr).
  rewrite peval_iter by apply mulx_lin.
  rewrite (peval_mulx_id _ Hr).
  rewrite Nat.iter_add. reflexivity.
Qed.

End Mulx.

(** ** Remainders *)

Lemma double_lxor (a b : Z) : 2 * Z.lxor a b = Z.lxor (2 * a) (2 * b).
Proof.
  assert (H2 : forall x, 2 * x = Z.shiftl x 1)
    by (intros; rewrite Z.shiftl_mul_pow2 by lia; lia).
  rewrite !H2. apply Z.shiftl_lxor.
Qed.

Lemma clmul_nonneg (a c : Z) : 0 <= c -> 0 <= GF2.clmul a c.
Proof.
  intros Hc. destruct a as [|q|q]; cbn [GF2.clmul]; try lia.
  induction q; cbn [GF2.clmul_pos]; try lia.
  apply Z.lxor_nonneg. lia.
Qed.

Lemma clmul_double_bit (b : bool) (q c : Z) :
  0 <= q ->
  GF2.clmul (2 * q + Z.b2z b) c = Z.lxor (if b then c else 0) (2 * GF2.clmul q c).
Proof.
  intros Hq. destruct q as [|q|q]; try lia; destruct b.
  - simpl. rewrite Z.lxor_0_r. reflexivity.
  - reflexivity.
  - change (2 * Z.pos q + Z.b2z true) with (Z.pos q~1). reflexivity.
  - change (2 * Z.pos q + Z.b2z false) with (Z.pos q~0). reflexivity.
Qed.

Lemma clmul_peval (a c : Z) : GF2.clmul a c = GF2.peval (Z.mul 2) a c.
Proof.
  destruct a as [|q|q]; auto. cbn [GF2.clmul GF2.peval]. revert c.
  induction q as [q IH|q IH|]; intros c; cbn [GF2.clmul_pos GF2.peval_pos]; auto.
  - rewrite peval_pos_commute by apply double_lxor. rewrite IH. reflexivity.
  - rewrite peval_pos_commute by apply double_lxor. rewrite IH. reflexivity.
Qed.

Lemma clmul_lxor_l (a b c : Z) :
  0 <= a -> 0 <= b ->
  GF2.clmul (Z.lxor a b) c = Z.lxor (GF2.clmul a c) (GF2.clmul b c).
Proof.
  intros. rewrite !clmul_peval. apply peval_lxor_l; auto. apply double_lxor.
Qed.

Lemma testbit_top (a k : Z) : 0 <= k -> 2 ^ k <= a < 2 ^ (k + 1) -> Z.testbit a k = true.
Proof.
  intros Hk Ha.
  assert (0 < 2 ^ k) by (apply Z.pow_pos_nonneg; lia).
  pose proof (Z.log2_unique a k Hk Ha) as Hl.
  rewrite <- Hl. apply Z.bit_log2. lia.
Qed.

Lemma clmul_pos_top (n c : Z) (q : positive) :
  0 <= n -> 2 ^ n <= c < 2 ^ (n + 1) ->
  2 ^ (n + Zpos (Pos.size q) - 1) <= GF2.clmul_pos q c < 2 ^ (n + Zpos (Pos.size q)).
Proof.
  intros Hn Hc. induction q as [q IH|q IH|].
  - cbn [GF2.clmul_pos Pos.size]. rewrite Pos2Z.inj_succ.
    set (s := Zpos (Pos.size q)) in *. assert (Hs : 0 < s) by (unfold s; lia).
    set (X := GF2.clmul_pos q c) in *.
    replace (n + Z.succ s - 1) with (n + s) by lia.
    replace (n + Z.succ s) with (n + s + 1) by lia.
    assert (E1 : 2 ^ (n + s) = 2 * 2 ^ (n + s - 1)) by (apply pow2_pred; lia).
    assert (E2 : 2 ^ (n + s + 1) = 2 * 2 ^ (n + s)).
    { rewrite (pow2_pred (n + s + 1)) by lia. do 2 f_equal. lia. }
    assert (H2X : 2 ^ (n + s) <= 2 * X < 2 ^ (n + s + 1)) by lia.
    assert (Hcs : c < 2 ^ (n + s)).
    { assert (2 ^ (n + 1) <= 2 ^ (n + s)) by (apply Z.pow_le_mono_r; lia). lia. }
    assert (0 < 2 ^ n) by (apply Z.pow_pos_nonneg; lia).
    split.
    + apply testbit_true_ge; try lia.
      * apply Z.lxor_nonneg. lia.
      * rewrite Z.lxor_spec, (testbit_top (2 * X)) by lia.
        rewrite (in_range_testbit (n + s) c) by (unfold Word.in_range; lia). reflexivity.
    + apply (in_range_lxor (n + s + 1)); unfold Word.in_range; try lia.
  - cbn [GF2.clmul_pos Pos.size]. rewrite Pos2Z.inj_succ.
    set (s := Zpos (Pos.size q)) in *. assert (Hs : 0 < s) by (unfold s; lia).
    replace (n + Z.succ s - 1) with (n + s) by lia.
    replace (n + Z.succ s) with (n + s + 1) by lia.
    assert (E1 : 2 ^ (n + s) = 2 * 2 ^ (n + s - 1)) by (apply pow2_pred; lia).
    assert (E2 : 2 ^ (n + s + 1) = 2 * 2 ^ (n + s)).
    { rewrite (pow2_pred (n + s + 1)) by lia. do 2 f_equal. lia. }
    lia.
  - simpl GF2.clmul_pos. simpl Pos.size. replace (n + 1 - 1) with n by lia. exact Hc.
Qed.

Lemma clmul_small (n c q : Z) :
  0 <= n -> 2 ^ n <= c < 2 ^ (n + 1) -> 0 <= q -> GF2.clmul q c < 2 ^ n -> q = 0.
Proof.
  intros Hn Hc Hq H. destruct q as [|q|q]; auto; try lia.
  simpl in H. pose proof (clmul_pos_top n c q Hn Hc) as [Hlo _].
  assert (2 ^ n <= 2 ^ (n + Zpos (Pos.size q) - 1)) by (apply Z.pow_le_mono_r; lia).
  lia.
Qed.

(** The remainder modulo a polynomial of degree [n] is unique. *)
Lemma remainder_unique (n c a r r' : Z) :
  0 <= n -> 2 ^ n <= c < 2 ^ (n + 1) ->
  GF2.is_remainder n c a r -> GF2.is_remainder n c a r' -> r = r'.
Proof.
  intros Hn Hc [Hr [q [Hq E]]] [Hr' [q' [Hq' E']]].
  assert (Hx : GF2.clmul (Z.lxor q q') c = Z.lxor r r').
  { rewrite clmul_lxor_l by auto.
    apply lxor_move in E. apply lxor_move in E'.
    rewrite <- E, <- E'. Z.bitblast. }
  assert (Hz : Z.lxor q q' = 0).
  { apply (clmul_small n c); auto.
    - apply Z.lxor_nonneg. lia.
    - rewrite Hx. apply (in_range_lxor n); unfold Word.in_range; auto. }
  rewrite Hz in Hx. simpl in Hx. symmetry in Hx.
  apply Z.lxor_eq in Hx. exact Hx.
Qed.

Section Remainder.
Variables n p : Z.
Hypothesis Hn : 0 < n.
Hypothesis Hp : 0 <= p < 2 ^ n.

(** Iterating the multiplication by [x] from [1] gives the remainder of
    [x^e] modulo [c(x) = x^n + p(x)]. *)
Lemma xpow_remainder (e : nat) :
  GF2.is_remainder n (2 ^ n + p) (2 ^ Z.of_nat e) (Nat.iter e (GF2.mulx n p) 1).
Proof.
  split; [apply xpow_range; auto|].
  induction e.
  - exists 0. split; [lia|]. reflexivity.
  - destruct IHe as [q [Hq E]].
    set (r := Nat.iter e (GF2.mulx n p) 1) in *.
    exists (2 * q + Z.b2z (Z.testbit r (n - 1))). split.
    { destruct (Z.testbit r (n - 1)); cbn [Z.b2z]; lia. }
    rewrite Nat2Z.inj_succ, Z.pow_succ_r, E by lia.
    rewrite double_lxor, clmul_double_bit by auto.
    rewrite (mulx_double n p Hn Hp r) by (apply xpow_range; auto).
    simpl Nat.iter. fold r.
    rewrite <- !Z.lxor_assoc. f_equal. apply Z.lxor_comm.
Qed.

End Remainder.

(** * Squares and the riffle *)

Lemma spread_nonneg (z : Z) : 0 <= GF2.spread z.
Proof. destruct z; simpl; lia. Qed.

Lemma spread_double_bit (b : bool) (z : Z) :
  0 <= z -> GF2.spread (2 * z + Z.b2z b) = 2 * (2 * GF2.spread z) + Z.b2z b.
Proof. intros Hz. destruct z as [|q|q]; try lia; destruct b; reflexivity. Qed.

Lemma testbit_double_bit (b : bool) (z i : Z) :
  0 <= i ->
  Z.testbit (2 * z + Z.b2z b) i = if i =? 0 then b else Z.testbit z (i - 1).
Proof.
  intros Hi. destruct (Z.eqb_spec i 0) as [->|Hn].
  - apply Z.testbit_0_r.
  - replace i with (Z.succ (i - 1)) at 1 by lia. apply Z.testbit_succ_r. lia.
Qed.

Lemma testbit_spread (z i : Z) :
  0 <= z -> 0 <= i ->
  Z.testbit (GF2.spread z) i = Z.even i && Z.testbit z (i / 2).
Proof.
  intros Hz. revert i. pattern z. apply Z_binary_ind; [ | | exact Hz ]; clear z Hz.
  - intros i Hi. simpl. rewrite !Z.testbit_0_l. btauto.
  - intros b z Hz IH i Hi.
    rewrite spread_double_bit by auto.
    rewrite !testbit_double_bit by (auto; apply Z.div_pos; lia).
    destruct (Z.eqb_spec i 0) as [->|Hn]; [reflexivity|].
    rewrite Z.double_bits.
    destruct (Z.eq_dec i 1) as [->|Hn1].
    { simpl. reflexivity. }
    assert (Hd : i / 2 = (i - 2) / 2 + 1).
    { replace i with ((i - 2) + 1 * 2) at 1 by lia. apply Z.div_add. lia. }
    assert (0 <= (i - 2) / 2) by (apply Z.div_pos; lia).
    destruct (Z.eqb_spec (i / 2) 0) as [E|E]; [lia|].
    replace (Z.pred (i - 1)) with (i - 2) by lia.
    rewrite IH by lia.
    replace (i / 2 - 1) with ((i - 2) / 2) by lia.
    f_equal.
    replace (i - 2) with (i - 2 * 1) by lia.
    rewrite Z.even_sub, Z.even_mul. simpl Z.even.
    destruct (Z.even i); reflexivity.
Qed.

Lemma spread_lxor (a b : Z) :
  0 <= a -> 0 <= b -> GF2.spread (Z.lxor a b) = Z.lxor (GF2.spread a) (GF2.spread b).
Proof.
  intros Ha Hb. apply Z.bits_inj'. intros i Hi.
  rewrite Z.lxor_spec, !testbit_spread, Z.lxor_spec by (auto; apply Z.lxor_nonneg; tauto).
  btauto.
Qed.

Lemma spread_range (z k : Z) :
  0 <= k -> 0 <= z < 2 ^ k -> 0 <= GF2.spread z < 2 ^ (2 * k).
Proof.
  intros Hk Hz. apply in_range_mod; try lia.
  apply Z.bits_inj'. intros i Hi.
  rewrite Z.testbit_mod_pow2, testbit_spread by lia.
  destruct (Z.ltb_spec i (2 * k)); simpl; auto.
  rewrite (in_range_testbit k z); auto; try lia.
  apply Z.div_le_lower_bound; lia.
Qed.

(** Two maps that are linear over GF(2) and agree on the unit vectors
    agree. *)
Lemma lin_ext (f g : Z -> Z) (m : nat) :
  (forall a b, 0 <= a -> 0 <= b -> f (Z.lxor a b) = Z.lxor (f a) (f b)) ->
  (forall a b, 0 <= a -> 0 <= b -> g (Z.lxor a b) = Z.lxor (g a) (g b)) ->
  (forall k, (k < m)%nat -> f (2 ^ Z.of_nat k) = g (2 ^ Z.of_nat k)) ->
  forall z, 0 <= z < 2 ^ Z.of_nat m -> f z = g z.
Proof.
  intros Hf Hg. 
  assert (Hz : forall h : Z -> Z,
             (forall a b, 0 <= a -> 0 <= b -> h (Z.lxor a b) = Z.lxor (h a) (h b)) -> h 0 = 0).
  { intros h Hh. pose proof (Hh 0 0) as H. rewrite Z.lxor_0_l in H.
    rewrite H at 1 by lia. apply Z.lxor_nilpotent. }
  induction m; intros Hk z Hzr.
  - simpl in Hzr. assert (z = 0) by lia. subst. rewrite !Hz; auto.
  - rewrite Nat2Z.inj_succ in Hzr.
    assert (Hm : 0 <= z mod 2 ^ Z.of_nat m < 2 ^ Z.of_nat m).
    { apply Z.mod_pos_bound. apply Z.pow_pos_nonneg; lia. }
    rewrite (split_top_bit z (Z.of_nat m)) by lia.
    assert (0 <= (if Z.testbit z (Z.of_nat m) then 2 ^ Z.of_nat m else 0))
      by (destruct (Z.testbit z (Z.of_nat m)); lia).
    rewrite Hf, Hg by lia. f_equal.
    + apply IHm; auto.
    + destruct (Z.testbit z (Z.of_nat m)).
      * apply Hk. lia.
      * rewrite !Hz; auto.
Qed.

Section RiffleWord.
Variable W : Z.
Hypothesis HW : 0 <= W.

Lemma riffle_loop_pair (i : positive) (lo hi : Z) :
  Internal.riffle_loop W i lo hi = (riffle_half W i lo, riffle_half W i hi).
Proof.
  revert lo hi. induction i as [i IH|i IH|]; intros lo hi;
    cbn [Internal.riffle_loop riffle_half]; auto.
Qed.

Lemma riffle_half_lin (i : positive) (a b : Z) :
  riffle_half W i (Z.lxor a b) = Z.lxor (riffle_half W i a) (riffle_half W i b).
Proof.
  assert (Hstep : forall a b m,
    Z.land (Z.lxor (Z.lxor a b) (Word.shl W (Z.lxor a b) (Z.pos m)))
      (Word.ones W / Z.lor (Word.shl W 1 (Z.pos m)) 1)
    = Z.lxor (Z.land (Z.lxor a (Word.shl W a (Z.pos m)))
               (Word.ones W / Z.lor (Word.shl W 1 (Z.pos m)) 1))
             (Z.land (Z.lxor b (Word.shl W b (Z.pos m)))
               (Word.ones W / Z.lor (Word.shl W 1 (Z.pos m)) 1))).
  { intros a' b' m. rewrite shl_lxor by lia. Z.bitblast. }
  revert a b. induction i as [i IH|i IH|]; intros a b; cbn [riffle_half];
    rewrite Hstep; auto.
Qed.

Lemma riffle_half_range (i : positive) (a : Z) :
  Word.in_range W a -> Word.in_range W (riffle_half W i a).
Proof.
  revert a. induction i as [i IH|i IH|]; intros a Ha; cbn [riffle_half];
    try apply IH; apply in_range_land_l; auto;
    apply in_range_lxor; auto; apply in_range_shl; auto.
Qed.

End RiffleWord.

Lemma riffle_units_digits (T : word_type) : riffle_units (digits T) = true.
Proof. destruct T; vm_compute; reflexivity. Qed.

Lemma riffle_spread (T : word_type) (src : Z) :
  Word.in_range (digits T) src ->
  let W := digits T in
  Internal.riffle W src = (GF2.spread (src mod 2 ^ (W / 2)), GF2.spread (Z.shiftr src (W / 2))).
Proof.
  intros Hsrc W.
  assert (HW : 0 < W) by (unfold W; destruct T; reflexivity).
  assert (Hh : 0 < W / 2 /\ W = 2 * (W / 2)) by (unfold W; destruct T; split; reflexivity).
  pose proof (riffle_units_digits T) as Hu. fold W in Hu.
  unfold riffle_units in Hu. unfold Internal.riffle.
  destruct (W / 4) as [|i|i] eqn:E4; try discriminate.
  rewrite forallb_forall in Hu.
  assert (Hmain : forall z, 0 <= z < 2 ^ (W / 2) -> riffle_half W i z = GF2.spread z).
  { intros z Hz. apply (lin_ext _ _ (Z.to_nat (W / 2))).
    - intros. apply riffle_half_lin. lia.
    - intros. apply spread_lxor; auto.
    - intros k Hk. apply Z.eqb_eq. apply Hu. apply in_seq. lia.
    - rewrite Z2Nat.id by lia. exact Hz. }
  rewrite riffle_loop_pair. f_equal.
  - replace (Z.land src (Word.shr (Word.ones W) (W / 2))) with (src mod 2 ^ (W / 2)).
    + apply Hmain. apply Z.mod_pos_bound. apply Z.pow_pos_nonneg; lia.
    + unfold Word.shr, Word.ones. rewrite <- Z.land_ones by lia.
      f_equal. replace (2 ^ W - 1) with (Z.ones W) by (rewrite Z.ones_equiv; lia).
      destruct Hh as [Hh1 Hh2].
      apply Z.bits_inj'. intros j Hj. rewrite Z.shiftr_spec by lia.
      rewrite !Z.testbit_ones_nonneg by lia.
      destruct (Z.ltb_spec (j + W / 2) W), (Z.ltb_spec j (W / 2)); auto; lia.
  - apply Hmain. unfold Word.shr. split.
    + apply Z.shiftr_nonneg. apply Hsrc.
    + rewrite Z.shiftr_div_pow2 by lia. apply Z.div_lt_upper_bound.
      * apply Z.pow_pos_nonneg; lia.
      * rewrite <- Z.pow_add_r by lia. destruct Hh as [Hh1 Hh2].
        replace (W / 2 + W / 2) with W by lia. apply Hsrc.
Qed.

(** * The polynomial reduction refines arithmetic modulo [c(x)] *)

Lemma digits_pos (T : word_type) : 0 < digits T.
Proof. destruct T; reflexivity. Qed.

Lemma digits_even (T : word_type) : digits T = 2 * (digits T / 2).
Proof. destruct T; reflexivity. Qed.

Lemma land_pow2_testbit (x k : Z) :
  0 <= k -> negb (Z.land x (2 ^ k) =? 0) = Z.testbit x k.
Proof.
  intros Hk.
  assert (E : Z.land x (2 ^ k) = if Z.testbit x k then 2 ^ k else 0).
  { apply Z.bits_inj'. intros i Hi. rewrite Z.land_spec, Z.pow2_bits_eqb by lia.
    destruct (Z.eqb_spec k i) as [->|Hn].
    - destruct (Z.testbit x i); rewrite ?Z.pow2_bits_eqb, ?Z.eqb_refl, ?Z.testbit_0_l by lia;
        reflexivity.
    - rewrite andb_false_r.
      destruct (Z.testbit x k); rewrite ?Z.pow2_bits_eqb, ?Z.testbit_0_l by lia; auto.
      destruct (Z.eqb_spec k i); auto; lia. }
  rewrite E. assert (0 < 2 ^ k) by (apply Z.pow_pos_nonneg; lia).
  destruct (Z.testbit x k); [destruct (Z.eqb_spec (2 ^ k) 0); auto; lia | reflexivity].
Qed.

Lemma shl_one (W k : Z) : 0 <= k < W -> Word.shl W 1 k = 2 ^ k.
Proof.
  intros Hk. unfold Word.shl, Word.wrap. rewrite Z.shiftl_1_l.
  apply Z.mod_small. split; [apply Z.pow_nonneg; lia | apply Z.pow_lt_mono_r; lia].
Qed.

Section Reduce.
Variables (W : Z) (N : nat) (p : list Z).
Hypothesis HW : 0 < W.
Hypothesis HN : (1 <= N)%nat.
Hypothesis Hp : words_ok W N p.

Lemma n_pos : 0 < Internal.n W N.
Proof. unfold Internal.n. nia. Qed.

Lemma add_vxor (a b : list Z) :
  length a = N -> length b = N -> Internal.add N a b = vxor a b.
Proof.
  intros Ha Hb. unfold Internal.add.
  destruct (fold_upd_seq (fun m i => Z.lxor (get m i) (get b i)) N 0 a) as [L G].
  { intros c i Hi Hc Hl. rewrite Hc by lia. reflexivity. }
  apply list_get_ext.
  - rewrite L, length_vxor. lia.
  - intros j Hj. rewrite L in Hj. rewrite G, get_vxor by lia.
    destruct (Nat.leb_spec 0 j), (Nat.ltb_spec j (0 + N)), (Nat.ltb_spec j (length a));
      simpl; try lia.
Qed.

Lemma get_shift (poly : list Z) (j : nat) :
  length poly = N ->
  get (Internal.shift W N poly) j =
  if (j =? 0)%nat then Word.shl W (get poly 0) 1
  else if (j <? N)%nat
       then Z.lor (Word.shl W (get poly j) 1)
                  (Word.shr (get poly (j - 1)) (W - 1))
       else 0.
Proof.
  intros Hl. unfold Internal.shift.
  destruct (fold_upd_rev_seq
              (fun m i => Z.lor (Word.shl W (get m i) 1)
                                (Word.shr (get m (i - 1)) (W - 1)))
              (N - 1) 1 poly) as [L G].
  { intros c i Hi Hc _. rewrite !Hc by lia. reflexivity. }
  cbv zeta in L, G. rewrite get_upd, L, G, G.
  destruct (Nat.eqb_spec j 0) as [->|Hj].
  - simpl. destruct (Nat.ltb_spec 0 (length poly)); try lia.
  - destruct (Nat.eqb_spec 0 j); try lia. cbn [andb].
    destruct (Nat.leb_spec 1 j), (Nat.ltb_spec j (1 + (N - 1))), (Nat.ltb_spec j (length poly)),
      (Nat.ltb_spec j N); cbn [andb]; try lia; auto.
    apply get_overflow. lia.
Qed.

Lemma length_shift (poly : list Z) :
  length (Internal.shift W N poly) = length poly.
Proof.
  unfold Internal.shift. rewrite length_upd.
  destruct (fold_upd_rev_seq
              (fun m i => Z.lor (Word.shl W (get m i) 1)
                                (Word.shr (get m (i - 1)) (W - 1)))
              (N - 1) 1 poly) as [L G]; auto.
  intros c i Hi Hc _. rewrite !Hc by lia. reflexivity.
Qed.

Lemma pack_shift (poly : list Z) :
  words_ok W N poly ->
  words_ok W N (Internal.shift W N poly) /\
  pack W (Internal.shift W N poly)
  = (2 * pack W poly) mod 2 ^ Internal.n W N.
Proof.
  intros Hok. pose proof n_pos as Hn.
  set (n := Internal.n W N) in *.
  pose proof (words_ok_length _ _ _ Hok) as Hl.
  assert (Hr : forall i, Word.in_range W (get poly i))
    by (intros; apply (words_ok_get W N); auto; lia).
  assert (Hb : forall i b, 0 <= b -> W <= b -> Z.testbit (get poly i) b = false)
    by (intros; apply (in_range_testbit W); auto; lia).
  assert (Hok' : words_ok W N (Internal.shift W N poly)).
  { split; [rewrite length_shift; auto|].
    apply Forall_get. intros j Hj. rewrite get_shift by auto.
    destruct (j =? 0)%nat; [apply in_range_shl; lia|].
    destruct (j <? N)%nat; [|apply in_range_0; lia].
    apply in_range_lor; try lia.
    - apply in_range_shl; lia.
    - apply in_range_shr; auto; lia. }
  split; auto.
  apply Z.bits_inj'. intros i Hi.
  rewrite testbit_pack by (auto; apply Hok').
  rewrite Z.testbit_mod_pow2 by lia.
  rewrite Z.double_bits.
  pose proof (Z.div_pos i W Hi HW) as Hq.
  pose proof (Z.mod_pos_bound i W HW) as Hm.
  pose proof (Z.div_mod i W ltac:(lia)) as Hdm.
  rewrite get_shift by auto.
  destruct (Z.ltb_spec i n) as [Hin|Hin].
  2:{ simpl. assert (~ (Z.to_nat (i / W) < N)%nat).
      { intros Hc. apply div_mod_index in Hc; auto; unfold n, Internal.n in Hin; lia. }
      destruct (Nat.eqb_spec (Z.to_nat (i / W)) 0); try lia.
      destruct (Nat.ltb_spec (Z.to_nat (i / W)) N); try lia. apply Z.testbit_0_l. }
  assert (HqN : (Z.to_nat (i / W) < N)%nat).
  { apply div_mod_index; auto; unfold n, Internal.n in Hin; lia. }
  simpl. destruct (Z.eq_dec i 0) as [->|Hi0].
  { rewrite Z.div_0_l, Z.mod_0_l by lia. simpl.
    rewrite <- Z.bit0_odd, testbit_shl by lia.
    rewrite (Z.testbit_neg_r _ (0 - 1)) by lia. apply andb_false_r. }
  rewrite testbit_pack by (auto; try apply Hok; lia).
  destruct (Z.eq_dec (i mod W) 0) as [E0|E0].
  - (* the lowest bit of a word comes from the word below *)
    assert (Hq1 : 1 <= i / W) by nia.
    replace (Z.pred i / W) with (i / W - 1).
    2:{ apply Z.div_unique with (r := W - 1); lia. }
    replace (Z.pred i mod W) with (W - 1).
    2:{ apply Z.mod_unique with (q := i / W - 1); lia. }
    destruct (Nat.eqb_spec (Z.to_nat (i / W)) 0); try lia.
    destruct (Nat.ltb_spec (Z.to_nat (i / W)) N); try lia.
    rewrite Z.lor_spec, testbit_shl by lia. rewrite E0.
    rewrite (Z.testbit_neg_r _ (0 - 1)) by lia. rewrite andb_false_r. cbn [orb].
    unfold Word.shr. rewrite Z.shiftr_spec by lia.
    replace (Z.to_nat (i / W) - 1)%nat with (Z.to_nat (i / W - 1)) by lia.
    f_equal.
  - replace (Z.pred i / W) with (i / W).
    2:{ apply Z.div_unique with (r := i mod W - 1); lia. }
    replace (Z.pred i mod W) with (i mod W - 1).
    2:{ apply Z.mod_unique with (q := i / W); lia. }
    destruct (Nat.eqb_spec (Z.to_nat (i / W)) 0) as [Ez|Ez].
    + rewrite Ez. rewrite testbit_shl by lia.
      destruct (Z.ltb_spec (i mod W) W); try lia. reflexivity.
    + destruct (Nat.ltb_spec (Z.to_nat (i / W)) N); try lia.
      rewrite Z.lor_spec, testbit_shl by lia.
      destruct (Z.ltb_spec (i mod W) W); try lia. cbn [andb].
      unfold Word.shr. rewrite Z.shiftr_spec by lia.
      rewrite (Hb _ (i mod W + (W - 1))) by lia. apply orb_false_r.
Qed.

Lemma monic_testbit (poly : list Z) :
  words_ok W N poly ->
  Internal.monic W N poly
  = Z.testbit (pack W poly) (Internal.n W N - 1).
Proof.
  intros Hok. pose proof n_pos as Hn.
  unfold Internal.monic.
  rewrite shl_one, land_pow2_testbit by lia.
  rewrite testbit_pack by (auto; try apply Hok; lia).
  unfold Internal.n.
  replace (Z.of_nat N * W - 1) with ((W - 1) + (Z.of_nat N - 1) * W) by lia.
  rewrite Z.div_add, Z.mod_add, Z.div_small, Z.mod_small by lia.
  f_equal. f_equal. lia.
Qed.

Lemma pack_times_x_step (poly : list Z) :
  words_ok W N poly ->
  words_ok W N (Internal.times_x_step W N p poly) /\
  pack W (Internal.times_x_step W N p poly)
  = GF2.mulx (Internal.n W N) (pack W p) (pack W poly).
Proof.
  intros Hok.
  destruct (pack_shift poly Hok) as [Hs Es].
  unfold Internal.times_x_step, GF2.mulx.
  rewrite monic_testbit by auto.
  destruct (Z.testbit _ _).
  - rewrite add_vxor by (eapply words_ok_length; eauto).
    split.
    + apply words_ok_vxor; auto; lia.
    + rewrite (pack_vxor _ N), Es; auto.
  - split; auto. rewrite Es, Z.lxor_0_r. reflexivity.
Qed.

Lemma nth_power_table (k i : nat) (cur : list Z) :
  (i < k)%nat ->
  nth i (Internal.power_table W N p k cur) []
  = Nat.iter i (Internal.times_x_step W N p) cur.
Proof.
  revert i cur. induction k; intros i cur Hi; [lia|].
  destruct i; [reflexivity|].
  cbn [Internal.power_table nth]. rewrite IHk by lia.
  symmetry. apply Nat.iter_succ_r.
Qed.

Lemma pack_iter_times_x (k : nat) (poly : list Z) :
  words_ok W N poly ->
  words_ok W N (Nat.iter k (Internal.times_x_step W N p) poly) /\
  pack W (Nat.iter k (Internal.times_x_step W N p) poly)
  = Nat.iter k (GF2.mulx (Internal.n W N) (pack W p)) (pack W poly).
Proof.
  intros Hok. induction k; simpl; auto.
  destruct IHk as [H1 H2]. destruct (pack_times_x_step _ H1) as [H3 H4].
  split; auto. rewrite H4, H2. reflexivity.
Qed.

Lemma pack_power_mod (i : nat) :
  Z.of_nat i < Internal.n W N ->
  words_ok W N (nth i (Internal.power_mod W N p) []) /\
  pack W (nth i (Internal.power_mod W N p) [])
  = Nat.iter (Z.to_nat (Internal.n W N) + i)
      (GF2.mulx (Internal.n W N) (pack W p)) 1.
Proof.
  intros Hi. unfold Internal.power_mod. rewrite nth_power_table by lia.
  destruct (pack_iter_times_x i p Hp) as [H1 H2]. split; auto.
  rewrite H2, Nat.add_comm, Nat.iter_add. f_equal.
  symmetry. apply xpow_n; first [apply n_pos | apply pack_words_range; auto; lia].
Qed.

End Reduce.

(** * Bits of coefficient arrays *)

Lemma find_seq_first (f : nat -> bool) (N a i : nat) :
  find f (seq a N) = Some i ->
  (a <= i < a + N)%nat /\ f i = true /\ forall j, (a <= j < i)%nat -> f j = false.
Proof.
  revert a. induction N; intros a H; simpl in H; [discriminate|].
  destruct (f a) eqn:E.
  - inversion H; subst. repeat split; auto; lia.
  - apply IHN in H. destruct H as [H1 [H2 H3]]. repeat split; auto; try lia.
    intros j Hj. destruct (Nat.eq_dec j a) as [->|]; auto. apply H3. lia.
Qed.

Lemma find_seq_none (f : nat -> bool) (N a : nat) :
  find f (seq a N) = None -> forall j, (a <= j < a + N)%nat -> f j = false.
Proof.
  intros H j Hj. apply (find_none _ _ H). apply in_seq. lia.
Qed.

Lemma find_rev_seq_last (f : nat -> bool) (N i : nat) :
  find f (rev (seq 0 N)) = Some i ->
  (i < N)%nat /\ f i = true /\ forall j, (i < j < N)%nat -> f j = false.
Proof.
  induction N; intros H; [discriminate|].
  rewrite seq_S, rev_app_distr in H. simpl in H.
  destruct (f N) eqn:E.
  - inversion H; subst. repeat split; auto; lia.
  - apply IHN in H. destruct H as [H1 [H2 H3]]. repeat split; auto; try lia.
    intros j Hj. destruct (Nat.eq_dec j N) as [->|]; auto. apply H3. lia.
Qed.

Lemma countr_zero_pos_spec (q : positive) :
  0 <= Internal.countr_zero_pos q /\
  Z.testbit (Zpos q) (Internal.countr_zero_pos q) = true /\
  forall j, 0 <= j < Internal.countr_zero_pos q -> Z.testbit (Zpos q) j = false.
Proof.
  induction q as [q IH|q IH|]; cbn [Internal.countr_zero_pos].
  - repeat split; auto; lia.
  - destruct IH as [H0 [H1 H2]]. repeat split; try lia.
    + change (Zpos q~0) with (2 * Zpos q). rewrite Z.double_bits.
      replace (Z.pred (1 + Internal.countr_zero_pos q)) with (Internal.countr_zero_pos q) by lia.
      exact H1.
    + intros j Hj. change (Zpos q~0) with (2 * Zpos q). rewrite Z.double_bits.
      destruct (Z.eq_dec j 0) as [->|]; [reflexivity|]. apply H2. lia.
  - repeat split; auto; lia.
Qed.

Lemma bit_width_log2 (w : Z) : 0 < w -> Internal.bit_width w = Z.log2 w + 1.
Proof.
  intros Hw. destruct w as [|q|q]; try lia.
  destruct q; simpl; try rewrite Pos2Z.inj_succ; lia.
Qed.

Lemma bit_floor_log2 (w : Z) : 0 < w -> Internal.bit_floor w = 2 ^ Z.log2 w.
Proof.
  intros Hw. pose proof (bit_width_log2 w Hw) as H.
  destruct w as [|q|q]; try lia.
  unfold Internal.bit_floor. unfold Internal.bit_width in H. rewrite H. f_equal. lia.
Qed.

Section Bits.
Variables (W : Z) (N : nat).
Hypothesis HW : 0 < W.
Hypothesis HN : (1 <= N)%nat.
Hypothesis Hn64 : Internal.n W N < 2 ^ 64.

Lemma index_split (i : Z) :
  0 <= i < Internal.n W N ->
  (Internal.word W i < N)%nat /\ 0 <= Internal.bit W i < W /\
  i = Z.of_nat (Internal.word W i) * W + Internal.bit W i.
Proof.
  intros Hi. unfold Internal.word, Internal.bit.
  pose proof (Z.div_pos i W ltac:(lia) HW). pose proof (Z.mod_pos_bound i W HW).
  pose proof (Z.div_mod i W ltac:(lia)).
  repeat split; try lia.
  apply div_mod_index; auto; try lia. apply Hi.
Qed.

Lemma index_unique (j : nat) (b : Z) :
  0 <= b < W ->
  Internal.word W (Z.of_nat j * W + b) = j /\ Internal.bit W (Z.of_nat j * W + b) = b.
Proof.
  intros Hb. unfold Internal.word, Internal.bit.
  rewrite Z.add_comm, Z.div_add, Z.mod_add, Z.div_small, Z.mod_small by lia.
  split; lia.
Qed.

Lemma mask_pow2 (i : Z) : 0 <= i -> Internal.mask W i = 2 ^ (i mod W).
Proof.
  intros Hi. unfold Internal.mask, Internal.bit. apply shl_one.
  apply Z.mod_pos_bound; auto.
Qed.

Lemma test_testbit (poly : list Z) (i : Z) :
  words_ok W N poly -> 0 <= i ->
  Internal.test W poly i = Z.testbit (pack W poly) i.
Proof.
  intros Hok Hi. unfold Internal.test. rewrite mask_pow2 by auto.
  rewrite land_pow2_testbit by (apply Z.mod_pos_bound; auto).
  rewrite testbit_pack by (auto; apply Hok). reflexivity.
Qed.

Lemma pack_set_zero (i : Z) :
  0 <= i < Internal.n W N ->
  words_ok W N (Internal.set W (repeat 0 N) i) /\
  pack W (Internal.set W (repeat 0 N) i) = 2 ^ i.
Proof.
  intros Hi. destruct (index_split i Hi) as [Hw [Hb Ei]].
  unfold Internal.set. rewrite get_repeat, Z.lor_0_l, mask_pow2 by lia.
  fold (Internal.bit W i).
  assert (Hok : words_ok W N (upd (Internal.word W i) (2 ^ Internal.bit W i) (repeat 0 N))).
  { apply words_ok_upd; [apply words_ok_repeat; lia|].
    split; [apply Z.pow_nonneg; lia | apply Z.pow_lt_mono_r; lia]. }
  split; auto.
  apply Z.bits_inj'. intros j Hj.
  rewrite testbit_pack by (auto; apply Hok).
  rewrite get_upd, repeat_length, get_repeat.
  rewrite Z.pow2_bits_eqb by lia.
  destruct (Nat.ltb_spec (Internal.word W i) N); try lia. rewrite andb_true_r.
  pose proof (Z.div_pos j W Hj HW). pose proof (Z.mod_pos_bound j W HW).
  pose proof (Z.div_mod j W ltac:(lia)).
  unfold Internal.word, Internal.bit in *.
  destruct (Nat.eqb_spec (Z.to_nat (i / W)) (Z.to_nat (j / W))) as [E|E].
  - rewrite Z.pow2_bits_eqb by lia.
    destruct (Z.eqb_spec (i mod W) (j mod W)), (Z.eqb_spec i j); auto; try lia.
  - rewrite Z.testbit_0_l. destruct (Z.eqb_spec i j); auto. subst j. lia.
Qed.

(** The lowest and the highest coefficient of a polynomial that is not
    zero. *)
Lemma first_set_spec (poly : list Z) :
  words_ok W N poly ->
  (Internal.first_set W N poly = Internal.npos -> pack W poly = 0) /\
  (Internal.first_set W N poly <> Internal.npos ->
   0 <= Internal.first_set W N poly < Internal.n W N /\
   Z.testbit (pack W poly) (Internal.first_set W N poly) = true /\
   forall j, 0 <= j < Internal.first_set W N poly -> Z.testbit (pack W poly) j = false).
Proof.
  intros Hok. unfold Internal.first_set.
  destruct (find _ _) as [i|] eqn:E.
  - apply find_seq_first in E. destruct E as [Hi [Hnz Hz]].
    apply negb_true_iff, Z.eqb_neq in Hnz.
    assert (Hr : Word.in_range W (get poly i)) by (apply (words_ok_get W N); auto; lia).
    unfold Internal.lsb. destruct (Z.eqb_spec (get poly i) 0); try lia.
    destruct (get poly i) as [|q|q] eqn:Eq; try lia; [|unfold Word.in_range in Hr; lia].
    cbn [Internal.countr_zero].
    destruct (countr_zero_pos_spec q) as [C0 [C1 C2]].
    set (c := Internal.countr_zero_pos q) in *.
    assert (Hc : c < W).
    { destruct (Z.lt_ge_cases c W); auto.
      rewrite (in_range_testbit W (Zpos q) c) in C1; auto; try lia; discriminate. }
    assert (Hlt : Z.of_nat i * W + c < Internal.n W N) by (unfold Internal.n; nia).
    assert (Hbits : Z.testbit (pack W poly) (Z.of_nat i * W + c) = true /\
                    forall j, 0 <= j < Z.of_nat i * W + c -> Z.testbit (pack W poly) j = false).
    { split.
      - rewrite testbit_pack by (auto; try apply Hok; lia).
        destruct (index_unique i c ltac:(lia)) as [E1 E2].
        unfold Internal.word, Internal.bit in E1, E2. rewrite E1, E2, Eq. exact C1.
      - intros j Hj. rewrite testbit_pack by (auto; try apply Hok; lia).
        pose proof (Z.div_pos j W ltac:(lia) HW). pose proof (Z.mod_pos_bound j W HW).
        pose proof (Z.div_mod j W ltac:(lia)).
        destruct (Nat.eq_dec (Z.to_nat (j / W)) i) as [Ej|Ej].
        + rewrite Ej, Eq. apply C2. nia.
        + assert (Hji : (Z.to_nat (j / W) < i)%nat) by nia.
          specialize (Hz (Z.to_nat (j / W)) ltac:(lia)).
          apply negb_false_iff, Z.eqb_eq in Hz. rewrite Hz. apply Z.testbit_0_l. }
    split.
    + intros Hnp. unfold Internal.npos in Hnp. lia.
    + intros _. split; [lia|]. exact Hbits.
  - split; [|intros Hc; contradiction].
    intros _. apply Z.bits_inj'. intros j Hj.
    rewrite Z.testbit_0_l, testbit_pack by (auto; apply Hok).
    destruct (Nat.ltb_spec (Z.to_nat (j / W)) N).
    + pose proof (find_seq_none _ _ _ E (Z.to_nat (j / W)) ltac:(lia)) as Hz.
      apply negb_false_iff, Z.eqb_eq in Hz. rewrite Hz. apply Z.testbit_0_l.
    + rewrite get_overflow; [apply Z.testbit_0_l|].
      rewrite (words_ok_length _ _ _ Hok). auto.
Qed.

Lemma final_set_spec (poly : list Z) :
  words_ok W N poly -> pack W poly <> 0 ->
  0 <= Internal.final_set W N poly < Internal.n W N /\
  forall j, Internal.final_set W N poly < j -> Z.testbit (pack W poly) j = false.
Proof.
  intros Hok Hnz. unfold Internal.final_set.
  destruct (find _ _) as [i|] eqn:E.
  - apply find_rev_seq_last in E. destruct E as [Hi [Hw Hz]].
    apply negb_true_iff, Z.eqb_neq in Hw.
    assert (Hr : Word.in_range W (get poly i)) by (apply (words_ok_get W N); auto; lia).
    assert (Hpos : 0 < get poly i) by (unfold Word.in_range in Hr; lia).
    unfold Internal.msb. rewrite bit_width_log2 by auto.
    replace (Z.log2 (get poly i) + 1 - 1) with (Z.log2 (get poly i)) by lia.
    pose proof (Z.log2_nonneg (get poly i)) as Hl0.
    assert (Hl : Z.log2 (get poly i) < W) by (apply Z.log2_lt_pow2; auto; apply Hr).
    assert (HnW : W <= Internal.n W N) by (unfold Internal.n; nia).
    rewrite Z.mod_small by lia.
    split; [unfold Internal.n; nia|].
    intros j Hj. rewrite testbit_pack by (auto; try apply Hok; lia).
    assert (0 <= j) by lia.
    pose proof (Z.div_pos j W ltac:(lia) HW). pose proof (Z.mod_pos_bound j W HW).
    pose proof (Z.div_mod j W ltac:(lia)).
    destruct (Nat.eq_dec (Z.to_nat (j / W)) i) as [Ej|Ej].
    + rewrite Ej. apply Z.bits_above_log2; try lia; nia.
    + assert (Hji : (i < Z.to_nat (j / W))%nat) by nia.
      destruct (Nat.ltb_spec (Z.to_nat (j / W)) N).
      * specialize (Hz (Z.to_nat (j / W)) ltac:(lia)).
        apply negb_false_iff, Z.eqb_eq in Hz. rewrite Hz. apply Z.testbit_0_l.
      * rewrite get_overflow; [apply Z.testbit_0_l|].
        rewrite (words_ok_length _ _ _ Hok). auto.
  - exfalso. apply Hnz. apply Z.bits_inj'. intros j Hj.
    rewrite Z.testbit_0_l, testbit_pack by (auto; apply Hok).
    destruct (Nat.ltb_spec (Z.to_nat (j / W)) N).
    + assert (Hin : In (Z.to_nat (j / W)) (rev (seq 0 N))) by (apply -> in_rev; apply in_seq; lia).
      pose proof (find_none _ _ E _ Hin) as Hz.
      apply negb_false_iff, Z.eqb_eq in Hz. rewrite Hz. apply Z.testbit_0_l.
    + rewrite get_overflow; [apply Z.testbit_0_l|].
      rewrite (words_ok_length _ _ _ Hok). auto.
Qed.

End Bits.

(** * The riffle of an array squares its polynomial *)

Lemma upd_app (j : nat) (x : Z) (a b : list Z) :
  upd j x (a ++ b) = if (j <? length a)%nat then upd j x a ++ b
                     else a ++ upd (j - length a) x b.
Proof.
  revert j. induction a as [|h a IH]; intros j; simpl.
  - rewrite Nat.sub_0_r. reflexivity.
  - destruct j; simpl; auto.
    rewrite IH. change (S j <? S (length a))%nat with (j <? length a)%nat.
    destruct (j <? length a)%nat; reflexivity.
Qed.

Lemma pack_app (W : Z) (a b : list Z) :
  0 <= W -> pack W (a ++ b) = pack W a + 2 ^ (W * Z.of_nat (length a)) * pack W b.
Proof.
  intros HW. induction a as [|h a IH]; cbn [pack app length].
  - change (Z.of_nat 0) with 0. rewrite Z.mul_0_r, Z.pow_0_r. lia.
  - rewrite IH, Nat2Z.inj_succ, Z.mul_succ_r, Z.pow_add_r by lia. ring.
Qed.

Section RiffleArray.
Variables (T : word_type) (N : nat).

(** One round of the loop, on the two arrays as one of [2 N] words. *)
Let round (C : list Z) (i : nat) : list Z :=
  upd (2 * i + 1) (snd (Internal.riffle (digits T) (get C i)))
    (upd (2 * i) (fst (Internal.riffle (digits T) (get C i))) C).

Let body (acc : list Z * list Z) (i : nat) : list Z * list Z :=
  let (lo, hi) := acc in
  let (x, y) := Internal.riffle (digits T) (get lo i) in
  if (N <? 2 * i + 1)%nat then
    (lo, upd (2 * i + 1 - N) y (upd (2 * i - N) x hi))
  else if (2 * i + 1 =? N)%nat then
    (upd (N - 1) x lo, upd 0 y hi)
  else
    (upd (2 * i + 1) y (upd (2 * i) x lo), hi).

Lemma riffle_body_round (lo hi : list Z) (i : nat) :
  length lo = N -> length hi = N -> (i < N)%nat ->
  length (fst (body (lo, hi) i)) = N /\ length (snd (body (lo, hi) i)) = N /\
  fst (body (lo, hi) i) ++ snd (body (lo, hi) i) = round (lo ++ hi) i.
Proof.
  intros Hlo Hhi Hi. unfold body, round.
  rewrite (get_app_l lo hi i) by lia.
  destruct (Internal.riffle (digits T) (get lo i)) as [x y]. cbn [fst snd].
  destruct (Nat.ltb_spec N (2 * i + 1)) as [H1|H1];
    [|destruct (Nat.eqb_spec (2 * i + 1) N) as [H2|H2]]; cbn [fst snd].
  - repeat split; auto; [rewrite !length_upd; auto|].
    rewrite (upd_app (2 * i)), Hlo.
    destruct (Nat.ltb_spec (2 * i) N); try lia.
    rewrite upd_app, Hlo.
    destruct (Nat.ltb_spec (2 * i + 1) N); try lia. reflexivity.
  - repeat split; auto; try (rewrite !length_upd; auto).
    rewrite (upd_app (2 * i)), Hlo.
    destruct (Nat.ltb_spec (2 * i) N); try lia.
    rewrite upd_app, length_upd, Hlo.
    destruct (Nat.ltb_spec (2 * i + 1) N); try lia.
    replace (N - 1)%nat with (2 * i)%nat by lia.
    replace (2 * i + 1 - N)%nat with 0%nat by lia. reflexivity.
  - repeat split; auto; try (rewrite !length_upd; auto).
    rewrite (upd_app (2 * i)), Hlo.
    destruct (Nat.ltb_spec (2 * i) N); try lia.
    rewrite upd_app, length_upd, Hlo.
    destruct (Nat.ltb_spec (2 * i + 1) N); try lia. reflexivity.
Qed.

Lemma riffle_fold_round (l : list nat) (lo hi : list Z) :
  length lo = N -> length hi = N -> (forall i, In i l -> (i < N)%nat) ->
  length (fst (fold_left body l (lo, hi))) = N /\
  length (snd (fold_left body l (lo, hi))) = N /\
  fst (fold_left body l (lo, hi)) ++ snd (fold_left body l (lo, hi))
  = fold_left round l (lo ++ hi).
Proof.
  revert lo hi. induction l as [|i l IH]; intros lo hi Hlo Hhi Hl; cbn [fold_left].
  - auto.
  - destruct (riffle_body_round lo hi i Hlo Hhi (Hl i (or_introl eq_refl))) as [H1 [H2 H3]].
    destruct (body (lo, hi) i) as [lo1 hi1] eqn:E. cbn [fst snd] in *.
    rewrite <- H3. apply IH; auto. intros; apply Hl; right; auto.
Qed.

(** The word the riffle leaves at place [j] of the two arrays. *)
Let riffled (C : list Z) (j : nat) : Z :=
  if Nat.even j then fst (Internal.riffle (digits T) (get C (j / 2)))
  else snd (Internal.riffle (digits T) (get C (j / 2))).

Lemma get_round (C : list Z) (i j : nat) :
  (2 * i + 1 < length C)%nat ->
  get (round C i) j =
  if (j =? 2 * i)%nat || (j =? 2 * i + 1)%nat then riffled C j else get C j.
Proof.
  intros Hi. unfold round, riffled. rewrite !get_upd, !length_upd.
  destruct (Nat.eqb_spec j (2 * i)) as [->|E1].
  - destruct (Nat.eqb_spec (2 * i + 1) (2 * i)); try lia.
    destruct (Nat.eqb_spec (2 * i) (2 * i)); try lia.
    destruct (Nat.ltb_spec (2 * i) (length C)); try lia. cbn [andb orb].
    rewrite Nat.even_mul. cbn [Nat.even orb].
    rewrite Nat.mul_comm, Nat.div_mul by lia. reflexivity.
  - destruct (Nat.eqb_spec j (2 * i + 1)) as [->|E2].
    + destruct (Nat.eqb_spec (2 * i + 1) (2 * i + 1)); try lia.
      destruct (Nat.ltb_spec (2 * i + 1) (length C)); try lia. cbn [andb orb].
      rewrite Nat.even_add, Nat.even_mul. cbn [Nat.even orb Bool.eqb].
      replace ((2 * i + 1) / 2)%nat with i; auto.
      apply Nat.div_unique with (r := 1%nat); lia.
    + destruct (Nat.eqb_spec (2 * i + 1) j); try lia.
      destruct (Nat.eqb_spec (2 * i) j); try lia. reflexivity.
Qed.

Lemma length_round (C : list Z) (i : nat) : length (round C i) = length C.
Proof. unfold round. rewrite !length_upd. reflexivity. Qed.

Lemma fold_round (cnt k : nat) (C : list Z) :
  (2 * (k + cnt) <= length C)%nat ->
  length (fold_left round (rev (seq k cnt)) C) = length C /\
  forall j, get (fold_left round (rev (seq k cnt)) C) j =
            if (2 * k <=? j)%nat && (j <? 2 * (k + cnt))%nat then riffled C j else get C j.
Proof.
  revert C. induction cnt as [|cnt IH]; intros C Hl.
  - cbn [seq rev fold_left]. split; auto. intros j.
    destruct (Nat.leb_spec (2 * k) j), (Nat.ltb_spec j (2 * (k + 0))); auto; lia.
  - rewrite seq_S, rev_app_distr. cbn [rev app fold_left].
    destruct (IH (round C (k + cnt))) as [L G].
    { rewrite length_round. lia. }
    rewrite length_round in L. split; auto.
    intros j. rewrite G, get_round by lia.
    assert (Hsame : (j < 2 * (k + cnt))%nat -> riffled (round C (k + cnt)) j = riffled C j).
    { intros Hj. unfold riffled. rewrite !get_round by lia.
      assert (j / 2 < k + cnt)%nat by (apply Nat.Div0.div_lt_upper_bound; lia).
      destruct (Nat.eqb_spec (j / 2) (2 * (k + cnt))); try lia.
      destruct (Nat.eqb_spec (j / 2) (2 * (k + cnt) + 1)); try lia. reflexivity. }
    destruct (Nat.leb_spec (2 * k) j), (Nat.ltb_spec j (2 * (k + cnt))),
      (Nat.ltb_spec j (2 * (k + S cnt))), (Nat.eqb_spec j (2 * (k + cnt))),
      (Nat.eqb_spec j (2 * (k + cnt) + 1)); cbn [andb orb]; auto; lia.
Qed.

Lemma riffle_array_words (poly hi : list Z) :
  length poly = N -> length hi = N ->
  let r := Internal.riffle_array (digits T) N poly hi in
  length (fst r) = N /\ length (snd r) = N /\
  forall j, (j < 2 * N)%nat -> get (fst r ++ snd r) j = riffled poly j.
Proof.
  intros Hlo Hhi r.
  destruct (riffle_fold_round (rev (seq 0 N)) poly hi Hlo Hhi) as [H1 [H2 H3]].
  { intros i Hi. apply in_rev, in_seq in Hi. lia. }
  destruct (fold_round N 0 (poly ++ hi)) as [L G].
  { rewrite length_app. lia. }
  subst r. unfold Internal.riffle_array. fold body.
  repeat split; auto.
  intros j Hj. rewrite H3, G.
  destruct (Nat.leb_spec (2 * 0) j), (Nat.ltb_spec j (2 * (0 + N))); try lia. cbn [andb].
  unfold riffled. rewrite get_app_l; auto.
  rewrite Hlo. apply Nat.Div0.div_lt_upper_bound. lia.
Qed.

End RiffleArray.

Lemma even_to_nat (q : Z) : 0 <= q -> Nat.even (Z.to_nat q) = Z.even q.
Proof.
  intros Hq. rewrite <- (Z2Nat.id q) at 2 by auto.
  generalize (Z.to_nat q). intros m.
  induction m using (well_founded_induction lt_wf).
  destruct m as [|[|m]]; auto.
  change (Nat.even (S (S m))) with (Nat.even m).
  rewrite H by lia.
  replace (Z.of_nat (S (S m))) with (Z.of_nat m + 2 * 1) by lia.
  rewrite Z.even_add_mul_2. reflexivity.
Qed.

Lemma add_pow2_lxor (a b n : Z) :
  0 <= n -> 0 <= a < 2 ^ n -> a + 2 ^ n * b = Z.lxor a (b * 2 ^ n).
Proof.
  intros Hn Ha. rewrite (Z.mul_comm (2 ^ n)). apply Z.add_nocarry_lxor.
  apply Z.bits_inj'. intros i Hi.
  rewrite Z.land_spec, Z.testbit_0_l, Z.mul_pow2_bits by lia.
  destruct (Z.lt_ge_cases i n).
  - rewrite (Z.testbit_neg_r b) by lia. apply andb_false_r.
  - rewrite (in_range_testbit n a i); auto; lia.
Qed.

Section Square.
Variables (T : word_type) (N : nat).
Hypothesis HN : (1 <= N)%nat.

Lemma pack_riffle_array (poly hi : list Z) :
  words_ok (digits T) N poly -> length hi = N ->
  let r := Internal.riffle_array (digits T) N poly hi in
  words_ok (digits T) N (fst r) /\ words_ok (digits T) N (snd r) /\
  pack (digits T) (fst r) + 2 ^ Internal.n (digits T) N * pack (digits T) (snd r)
  = GF2.spread (pack (digits T) poly).
Proof.
  intros Hok Hhi r.
  pose proof (digits_pos T) as HW. pose proof (digits_even T) as He.
  pose proof (words_ok_length _ _ _ Hok) as Hl.
  destruct (riffle_array_words T N poly hi Hl Hhi) as [L1 [L2 G]]. fold r in L1, L2, G.
  set (W := digits T) in *. set (h := W / 2) in *.
  assert (Hh : 0 < h) by lia.
  assert (Hw : forall i, Word.in_range W (get poly i))
    by (intros; apply (words_ok_get W N); auto; lia).
  assert (Hrif : forall i, Internal.riffle W (get poly i)
                 = (GF2.spread (get poly i mod 2 ^ h), GF2.spread (Z.shiftr (get poly i) h))).
  { intros i. apply (riffle_spread T). apply Hw. }
  assert (Hr1 : forall i, Word.in_range W (GF2.spread (get poly i mod 2 ^ h))).
  { intros i. unfold Word.in_range. rewrite He. apply spread_range; try lia.
    apply Z.mod_pos_bound. apply Z.pow_pos_nonneg; lia. }
  assert (Hr2 : forall i, Word.in_range W (GF2.spread (Z.shiftr (get poly i) h))).
  { intros i. unfold Word.in_range. rewrite He. apply spread_range; try lia.
    destruct (Hw i) as [Hw0 Hw1]. split; [apply Z.shiftr_nonneg; auto|].
    rewrite Z.shiftr_div_pow2 by lia. apply Z.div_lt_upper_bound.
    - apply Z.pow_pos_nonneg; lia.
    - rewrite <- Z.pow_add_r by lia. replace (h + h) with W by lia. auto. }
  assert (HC : words_ok W (2 * N) (fst r ++ snd r)).
  { split; [rewrite length_app; lia|].
    apply Forall_get. intros j Hj. rewrite length_app in Hj.
    rewrite G by lia. rewrite Hrif. destruct (Nat.even j); cbn [fst snd]; auto. }
  assert (H1 : words_ok W N (fst r)).
  { split; auto. destruct HC as [_ HC]. apply Forall_app in HC. tauto. }
  assert (H2 : words_ok W N (snd r)).
  { split; auto. destruct HC as [_ HC]. apply Forall_app in HC. tauto. }
  repeat split; try apply H1; try apply H2.
  assert (Hpa : pack W (fst r ++ snd r)
                = pack W (fst r) + 2 ^ Internal.n W N * pack W (snd r)).
  { rewrite pack_app, L1 by lia. unfold Internal.n. do 3 f_equal. lia. }
  rewrite <- Hpa.
  pose proof (pack_words_range W N poly ltac:(lia) Hok) as HP.
  apply Z.bits_inj'. intros i Hi.
  rewrite testbit_pack by (auto; apply HC).
  rewrite testbit_spread by lia.
  pose proof (Z.div_pos i W Hi HW) as Hq0.
  pose proof (Z.mod_pos_bound i W HW) as Hb.
  pose proof (Z.div_mod i W ltac:(lia)) as Hdm.
  set (q := i / W) in *. set (b := i mod W) in *.
  assert (Hev : Z.even i = Z.even b).
  { rewrite Hdm, He. replace (2 * h * q + b) with (b + 2 * (h * q)) by lia.
    apply Z.even_add_mul_2. }
  destruct (Nat.ltb_spec (Z.to_nat q) (2 * N)) as [Hlt|Hge].
  2:{ rewrite get_overflow by (rewrite length_app; lia). rewrite Z.testbit_0_l.
      rewrite (in_range_testbit (Internal.n W N) (pack W poly)); auto.
      - symmetry. apply andb_false_r.
      - unfold Internal.n. nia.
      - apply Z.div_le_lower_bound; try lia. unfold Internal.n. nia. }
  rewrite G by auto. rewrite Hrif.
  rewrite testbit_pack by (auto; try apply Hok; try (apply Z.div_pos; lia)).
  pose proof (Z.div_pos q 2 Hq0 ltac:(lia)) as Hq'0.
  pose proof (Z.mod_pos_bound q 2 ltac:(lia)) as He2.
  pose proof (Z.div_mod q 2 ltac:(lia)) as Hdq.
  pose proof (Z.div_pos b 2 ltac:(lia) ltac:(lia)) as Hb'0.
  pose proof (Z.mod_pos_bound b 2 ltac:(lia)) as Hbe.
  pose proof (Z.div_mod b 2 ltac:(lia)) as Hdb.
  assert (Hi2 : i / 2 = h * q + b / 2).
  { symmetry. apply Z.div_unique with (r := b mod 2); lia. }
  assert (Hqq : (i / 2) / W = q / 2).
  { symmetry. apply Z.div_unique with (r := (q mod 2) * h + b / 2); nia. }
  assert (Hmm : (i / 2) mod W = (q mod 2) * h + b / 2).
  { symmetry. apply Z.mod_unique with (q := q / 2); nia. }
  rewrite Hqq, Hmm, Hev.
  replace (Z.to_nat q / 2)%nat with (Z.to_nat (q / 2))
    by (rewrite Z2Nat.inj_div by lia; reflexivity).
  rewrite even_to_nat by lia.
  rewrite Zeven_mod.
  destruct (Z.eqb_spec (q mod 2) 0) as [E0|E0]; cbn [fst snd];
    rewrite testbit_spread; try lia.
  - rewrite Z.testbit_mod_pow2 by lia. rewrite E0.
    destruct (Z.ltb_spec (b / 2) h); try lia. reflexivity.
  - unfold Word.in_range in *. apply Z.mod_pos_bound. apply Z.pow_pos_nonneg; lia.
  - rewrite Z.shiftr_spec by lia. f_equal. f_equal. nia.
  - apply Z.shiftr_nonneg. apply Hw.
Qed.

End Square.

Lemma pack_n_range (W : Z) (N : nat) (a : list Z) :
  0 <= W -> words_ok W N a -> 0 <= pack W a < 2 ^ Internal.n W N.
Proof. apply pack_words_range. Qed.

Lemma xsum_S (f : nat -> Z) (q : Z) (k : nat) :
  xsum f q (S k) = Z.lxor (xsum f q k) (if Z.testbit q (Z.of_nat k) then f k else 0).
Proof. reflexivity. Qed.

Section SquareStep.
Variables (T : word_type) (N : nat) (p : list Z).
Hypothesis HN : (1 <= N)%nat.
Hypothesis Hp : words_ok (digits T) N p.
Hypothesis Hn64 : Internal.n (digits T) N < 2 ^ 64.

(** The loop of [square_step] over the coefficients [f], [f + 2], ... of
    [hi], which has no coefficient at an odd distance from [f]. *)
Lemma square_loop (hi : list Z) (f : Z) (m : nat) (poly : list Z) :
  let W := digits T in
  let M := GF2.mulx (Internal.n W N) (pack W p) in
  let F := fun i : nat => Nat.iter (Z.to_nat (Internal.n W N) + i) M 1 in
  words_ok W N hi -> words_ok W N poly -> 0 <= f ->
  (forall k : nat, Z.testbit (pack W hi) (f + 2 * Z.of_nat k + 1) = false) ->
  let r := fold_left
             (fun poly i =>
                if Internal.test W hi i
                then Internal.add N poly (nth (Z.to_nat i) (Internal.power_mod W N p) [])
                else poly)
             (map (fun k => f + 2 * Z.of_nat k) (seq 0 m)) poly in
  words_ok W N r /\
  Z.lxor (pack W r) (xsum F (pack W hi) (Z.to_nat f))
  = Z.lxor (pack W poly) (xsum F (pack W hi) (Z.to_nat f + 2 * m)).
Proof.
  intros W M F Hhi Hpoly Hf Hodd.
  pose proof (digits_pos T) as HW. fold W in HW.
  induction m as [|m IH].
  - cbn [seq map fold_left]. split; auto.
    rewrite Nat.mul_0_r, Nat.add_0_r. reflexivity.
  - intros r. subst r. rewrite seq_S, map_app, fold_left_app. cbn [map fold_left].
    cbv zeta in IH. destruct IH as [Hok E].
    set (r := fold_left _ _ poly) in *.
    replace (Z.to_nat f + 2 * S m)%nat with (S (S (Z.to_nat f + 2 * m))) by lia.
    rewrite !xsum_S. rewrite <- !Z.lxor_assoc. rewrite <- E.
    replace (Z.of_nat (S (Z.to_nat f + 2 * m))) with (f + 2 * Z.of_nat m + 1) by lia.
    rewrite Hodd, Z.lxor_0_r.
    replace (Z.of_nat (Z.to_nat f + 2 * m)) with (f + 2 * Z.of_nat m) by lia.
    change (0 + m)%nat with m. rewrite (test_testbit W N) by (auto; lia).
    destruct (Z.testbit (pack W hi) (f + 2 * Z.of_nat m)) eqn:Eb.
    + assert (Hlt : f + 2 * Z.of_nat m < Internal.n W N).
      { destruct (Z.lt_ge_cases (f + 2 * Z.of_nat m) (Internal.n W N)); auto.
        rewrite (in_range_testbit (Internal.n W N) (pack W hi)) in Eb; try discriminate.
        - unfold Internal.n; nia.
        - apply pack_words_range; auto; lia.
        - auto. }
      destruct (pack_power_mod W N p HW HN Hp (Z.to_nat (f + 2 * Z.of_nat m))) as [Hpm Epm];
        [lia|].
      rewrite add_vxor by first [exact HN | eapply words_ok_length; eauto].
      split; [apply words_ok_vxor; auto; lia|].
      rewrite (pack_vxor W N) by auto. rewrite Epm.
      subst F. cbv beta.
      replace (Z.to_nat f + 2 * m)%nat with (Z.to_nat (f + 2 * Z.of_nat m)) by lia.
      rewrite !Z.lxor_assoc. f_equal. apply Z.lxor_comm.
    + split; auto. rewrite Z.lxor_0_r. reflexivity.
Qed.

(** [square_step] squares modulo [c(x)]. *)
Lemma pack_square_step (st : list Z * list Z) :
  let W := digits T in
  let M := GF2.mulx (Internal.n W N) (pack W p) in
  words_ok W N (fst st) -> length (snd st) = N ->
  words_ok W N (fst (Internal.square_step W N p st)) /\
  length (snd (Internal.square_step W N p st)) = N /\
  pack W (fst (Internal.square_step W N p st))
  = GF2.peval M (GF2.spread (pack W (fst st))) 1.
Proof.
  intros W M Hok Hhi.
  pose proof (digits_pos T) as HW. pose proof (digits_even T) as He. fold W in HW, He.
  pose proof (n_pos W N HW HN) as Hn.
  pose proof (pack_n_range W N p ltac:(lia) Hp) as HP.
  destruct (pack_riffle_array T N HN (fst st) (snd st) Hok Hhi) as [H1 [H2 E]].
  fold W in H1, H2, E.
  unfold Internal.square_step.
  destruct (Internal.riffle_array W N (fst st) (snd st)) as [lo hi]. cbn [fst snd] in *.
  pose proof (pack_n_range W N lo ltac:(lia) H1) as HLO.
  pose proof (pack_n_range W N hi ltac:(lia) H2) as HHI.
  set (n := Internal.n W N) in *.
  set (F := fun i : nat => Nat.iter (Z.to_nat n + i) M 1).
  (* the value, as a sum over the coefficients of [hi] *)
  assert (Hval : GF2.peval M (GF2.spread (pack W (fst st))) 1
                 = Z.lxor (pack W lo) (xsum F (pack W hi) (Z.to_nat n))).
  { rewrite <- E, add_pow2_lxor by lia.
    assert (HM : forall a b, M (Z.lxor a b) = Z.lxor (M a) (M b))
      by (intros; apply mulx_lin; lia).
    rewrite peval_lxor_l by (auto; try lia; apply Z.mul_nonneg_nonneg; lia).
    rewrite (peval_mulx_id n (pack W p)) by (auto; lia).
    f_equal.
    rewrite <- (Z2Nat.id n) at 1 by lia.
    rewrite peval_mul_pow2, <- peval_iter by (auto; lia).
    rewrite (peval_xsum M _ _ (Z.to_nat n)) by (auto; rewrite Z2Nat.id; lia).
    apply xsum_ext; auto. intros i _ _. subst F. cbv beta.
    rewrite Nat.add_comm, Nat.iter_add. reflexivity. }
  (* the coefficients of [hi] sit at even places *)
  assert (Heven : forall j, 0 <= j -> Z.testbit (pack W hi) j = true -> Z.even j = true).
  { intros j Hj Hb.
    assert (Hs : Z.testbit (GF2.spread (pack W (fst st))) (n + j) = true).
    { rewrite <- E, add_pow2_lxor, Z.lxor_spec, Z.mul_pow2_bits by lia.
      rewrite (in_range_testbit n (pack W lo)) by (auto; lia).
      replace (n + j - n) with j by lia. rewrite Hb. reflexivity. }
    rewrite testbit_spread in Hs by (try lia; apply pack_n_range with (N := N); auto; lia).
    apply andb_true_iff in Hs. destruct Hs as [Hs _].
    replace (n + j) with (j + 2 * (Z.of_nat N * (W / 2))) in Hs by (unfold n, Internal.n; nia).
    rewrite Z.even_add_mul_2 in Hs. exact Hs. }
  destruct (first_set_spec W N HW HN Hn64 hi H2) as [Hnone Hsome].
  destruct (Z.eqb_spec (Internal.first_set W N hi) Internal.npos) as [Enp|Enp].
  - cbn [fst snd]. repeat split; try apply H1; try apply H2.
    rewrite Hval, (Hnone Enp). rewrite xsum_zero; [rewrite Z.lxor_0_r; reflexivity|].
    intros. apply Z.testbit_0_l.
  - cbn [fst snd]. destruct (Hsome Enp) as [Hf [Hbit Hlow]].
    set (f := Internal.first_set W N hi) in *.
    assert (Hnz : pack W hi <> 0).
    { intros Hz. rewrite Hz, Z.testbit_0_l in Hbit. discriminate. }
    destruct (final_set_spec W N HW HN Hn64 hi H2 Hnz) as [Hl Hhigh].
    set (l := Internal.final_set W N hi) in *.
    assert (Hfl : f <= l).
    { destruct (Z.lt_ge_cases l f); auto. rewrite Hhigh in Hbit by lia. discriminate. }
    set (m := Z.to_nat ((l - f) / 2 + 1)).
    pose proof (Z.div_pos (l - f) 2 ltac:(lia) ltac:(lia)) as Hd0.
    pose proof (Z.mod_pos_bound (l - f) 2 ltac:(lia)) as Hmb.
    pose proof (Z.div_mod (l - f) 2 ltac:(lia)) as Hdm.
    assert (Hodd : forall k : nat, Z.testbit (pack W hi) (f + 2 * Z.of_nat k + 1) = false).
    { intros k. destruct (Z.testbit (pack W hi) (f + 2 * Z.of_nat k + 1)) eqn:Eb; auto.
      apply Heven in Eb; try lia. pose proof (Heven f ltac:(lia) Hbit) as Ef.
      replace (f + 2 * Z.of_nat k + 1) with ((f + 1) + 2 * Z.of_nat k) in Eb by lia.
      rewrite Z.even_add_mul_2 in Eb.
      rewrite Z.even_add in Eb. rewrite Ef in Eb. discriminate. }
    destruct (square_loop hi f m lo H2 H1 ltac:(lia) Hodd) as [Hr Er].
    fold W in Hr, Er. fold n in Er. fold M in Er. fold F in Er.
    repeat split; try apply Hr; try apply H2.
    rewrite Hval.
    rewrite (xsum_zero F (pack W hi) (Z.to_nat f)) in Er by (intros; apply Hlow; lia).
    rewrite Z.lxor_0_r in Er. rewrite Er. f_equal.
    destruct (Nat.le_gt_cases (Z.to_nat f + 2 * m) (Z.to_nat n)) as [Hle|Hgt].
    + replace (Z.to_nat n) with ((Z.to_nat f + 2 * m) + (Z.to_nat n - (Z.to_nat f + 2 * m)))%nat
        by lia.
      symmetry. apply xsum_more. intros i Hi. apply Hhigh. unfold m in Hi. lia.
    + replace (Z.to_nat f + 2 * m)%nat
        with (Z.to_nat n + ((Z.to_nat f + 2 * m) - Z.to_nat n))%nat by lia.
      apply xsum_more. intros i Hi.
      apply (in_range_testbit n); unfold Word.in_range; try lia.
Qed.

End SquareStep.

(** * [reduce] computes the remainder of a power of [x] *)

Lemma div_pow2_bit (J k : Z) :
  0 <= J -> 0 <= k ->
  J / 2 ^ k = 2 * (J / 2 ^ (k + 1)) + Z.b2z (Z.testbit J k).
Proof.
  intros HJ Hk.
  rewrite Z.pow_add_r, <- Z.div_div by (try lia; apply Z.pow_pos_nonneg; lia).
  rewrite Z.testbit_odd, Z.shiftr_div_pow2 by lia.
  change (2 ^ 1) with 2.
  rewrite (Z.div_mod (J / 2 ^ k) 2) at 1 by lia.
  rewrite Zmod_odd. destruct (Z.odd (J / 2 ^ k)); reflexivity.
Qed.

Section ReduceCorrect.
Variables (T : word_type) (N : nat) (p : list Z).
Hypothesis HN : (1 <= N)%nat.
Hypothesis Hp : words_ok (digits T) N p.
Hypothesis Hn64 : Internal.n (digits T) N < 2 ^ 64.

(** [x^e mod c(x)], by [e] multiplications by [x]. *)
Let X (e : nat) : Z :=
  Nat.iter e (GF2.mulx (Internal.n (digits T) N) (pack (digits T) p)) 1.

(** The state of the loops: [r] holds [x^e mod c(x)]. *)
Let holds (st : list Z * list Z) (e : nat) : Prop :=
  words_ok (digits T) N (fst st) /\ length (snd st) = N /\ pack (digits T) (fst st) = X e.

Lemma square_step_holds (st : list Z * list Z) (e : nat) :
  holds st e -> holds (Internal.square_step (digits T) N p st) (e + e).
Proof.
  intros [H1 [H2 H3]].
  pose proof (pack_square_step T N p HN Hp Hn64 st H1 H2) as K.
  cbv zeta in K. destruct K as [K1 [K2 K3]].
  split; [exact K1|]. split; [exact K2|].
  rewrite K3, H3. unfold X. apply peval_spread_xpow.
  - apply n_pos; auto. apply digits_pos.
  - apply pack_n_range; auto. pose proof (digits_pos T). lia.
Qed.

Lemma times_x_step_holds (st : list Z * list Z) (e : nat) :
  holds st e ->
  holds (Internal.times_x_step (digits T) N p (fst st), snd st) (S e).
Proof.
  intros [H1 [H2 H3]].
  destruct (pack_times_x_step (digits T) N p (digits_pos T) HN Hp (fst st) H1) as [K1 K2].
  split; [exact K1|]. split; [exact H2|].
  cbn [fst]. rewrite K2, H3. reflexivity.
Qed.

Lemma iter_square_step_holds (j : nat) (st : list Z * list Z) :
  holds st 1 -> holds (Nat.iter j (Internal.square_step (digits T) N p) st) (2 ^ j).
Proof.
  intros H. induction j.
  - exact H.
  - cbn [Nat.iter]. apply square_step_holds in IHj.
    replace (2 ^ S j)%nat with (2 ^ j + 2 ^ j)%nat by (cbn [Nat.pow]; lia).
    exact IHj.
Qed.

Lemma square_multiply_holds (J : Z) (q : positive) :
  0 <= J ->
  forall (k : Z) (st : list Z * list Z),
    0 <= k -> Zpos q = 2 ^ k ->
    holds st (Z.to_nat (J / 2 ^ (k + 1))) ->
    holds (Internal.square_multiply (digits T) N p J q st) (Z.to_nat J).
Proof.
  intros HJ. induction q as [q IH|q IH|]; intros k st Hk Hq Hst.
  - exfalso.
    destruct (Z.eq_dec k 0) as [->|Hk0]; [simpl in Hq; lia|].
    rewrite (pow2_pred k) in Hq by lia. lia.
  - assert (Hk1 : 1 <= k).
    { destruct (Z.eq_dec k 0) as [->|Hk0]; [simpl in Hq; lia|lia]. }
    assert (Hq' : Zpos q = 2 ^ (k - 1)).
    { rewrite (pow2_pred k) in Hq by lia. lia. }
    cbn [Internal.square_multiply].
    apply (IH (k - 1)); auto; try lia.
    replace (k - 1 + 1) with k by lia.
    apply square_step_holds in Hst.
    assert (Hdiv : 0 <= J / 2 ^ (k + 1)) by (apply Z.div_pos; auto; apply Z.pow_pos_nonneg; lia).
    rewrite (div_pow2_bit J k) by lia.
    rewrite Hq, <- (land_pow2_testbit J k) by lia.
    destruct (Z.land J (2 ^ k) =? 0); cbn [negb Z.b2z].
    + replace (Z.to_nat (2 * (J / 2 ^ (k + 1)) + 0))
        with (Z.to_nat (J / 2 ^ (k + 1)) + Z.to_nat (J / 2 ^ (k + 1)))%nat by lia.
      exact Hst.
    + apply times_x_step_holds in Hst.
      replace (Z.to_nat (2 * (J / 2 ^ (k + 1)) + 1))
        with (S (Z.to_nat (J / 2 ^ (k + 1)) + Z.to_nat (J / 2 ^ (k + 1)))) by lia.
      exact Hst.
  - assert (Hk0 : k = 0).
    { destruct (Z.eq_dec k 0); auto. rewrite (pow2_pred k) in Hq by lia.
      assert (0 < 2 ^ (k - 1)) by (apply Z.pow_pos_nonneg; lia). lia. }
    subst k. cbn [Internal.square_multiply].
    apply square_step_holds in Hst.
    assert (Hdiv : 0 <= J / 2 ^ (0 + 1)) by (apply Z.div_pos; auto; lia).
    replace (Z.to_nat J) with (Z.to_nat (J / 2 ^ 0))
      by (rewrite Z.pow_0_r, Z.div_1_r; reflexivity).
    rewrite (div_pow2_bit J 0) by lia.
    change (Z.land J 1) with (Z.land J (2 ^ 0)). rewrite <- (land_pow2_testbit J 0) by lia.
    destruct (Z.land J (2 ^ 0) =? 0); cbn [negb Z.b2z].
    + replace (Z.to_nat (2 * (J / 2 ^ (0 + 1)) + 0))
        with (Z.to_nat (J / 2 ^ (0 + 1)) + Z.to_nat (J / 2 ^ (0 + 1)))%nat by lia.
      exact Hst.
    + apply times_x_step_holds in Hst.
      replace (Z.to_nat (2 * (J / 2 ^ (0 + 1)) + 1))
        with (S (Z.to_nat (J / 2 ^ (0 + 1)) + Z.to_nat (J / 2 ^ (0 + 1)))) by lia.
      exact Hst.
Qed.

Lemma reduce_xpow (J : Z) (J_is_pow2 : bool) :
  0 <= J ->
  words_ok (digits T) N (Internal.reduce (digits T) N p J J_is_pow2) /\
  pack (digits T) (Internal.reduce (digits T) N p J J_is_pow2)
  = X (Z.to_nat (if J_is_pow2 then 2 ^ J else J)).
Proof.
  intros HJ.
  pose proof (digits_pos T) as HW.
  pose proof (n_pos (digits T) N HW HN) as Hn.
  assert (Hn2 : 2 <= Internal.n (digits T) N).
  { unfold Internal.n. destruct T; simpl; lia. }
  assert (Hx : holds (Internal.set (digits T) (repeat 0 N) 1, repeat 0 N) 1).
  { destruct (pack_set_zero (digits T) N HW HN 1 ltac:(lia)) as [S1 S2].
    split; [exact S1|]. split; [apply repeat_length|].
    cbn [fst]. rewrite S2. unfold X. rewrite xpow_small by (simpl; lia). reflexivity. }
  unfold Internal.reduce. destruct J_is_pow2.
  - destruct (iter_square_step_holds (Z.to_nat J) _ Hx) as [R1 [R2 R3]].
    split; auto. rewrite R3. f_equal.
    rewrite Z2Nat.inj_pow by lia. reflexivity.
  - destruct (Z.ltb_spec J (Internal.n (digits T) N)) as [Hlt|Hge].
    + destruct (pack_set_zero (digits T) N HW HN J ltac:(lia)) as [S1 S2].
      split; auto. rewrite S2. unfold X. rewrite xpow_small by lia.
      rewrite Z2Nat.id by lia. reflexivity.
    + destruct (Z.eqb_spec J (Internal.n (digits T) N)) as [He|Hne].
      * split; auto. subst J. unfold X. rewrite xpow_n by auto. reflexivity.
      * assert (HJn : Internal.n (digits T) N < J) by lia.
        rewrite bit_floor_log2 by lia.
        pose proof (Z.log2_spec J ltac:(lia)) as Hl.
        assert (Hl1 : 1 <= Z.log2 J).
        { apply Z.log2_le_pow2; try lia. }
        rewrite Z.shiftr_div_pow2 by lia.
        rewrite <- Z.pow_sub_r by lia.
        destruct (2 ^ (Z.log2 J - 1)) as [|q|q] eqn:Eq;
          try (assert (0 < 2 ^ (Z.log2 J - 1)) by (apply Z.pow_pos_nonneg; lia); lia).
        destruct (square_multiply_holds J q HJ (Z.log2 J - 1)
                    (Internal.set (digits T) (repeat 0 N) 1, repeat 0 N)) as [R1 [R2 R3]];
          auto; try lia.
        replace (Z.log2 J - 1 + 1) with (Z.log2 J) by lia.
        replace (J / 2 ^ Z.log2 J) with 1; [exact Hx|].
        apply Z.div_unique with (r := J - 2 ^ Z.log2 J); try lia.
        rewrite Z.pow_succ_r in Hl by apply Z.log2_nonneg. lia.
Qed.

End ReduceCorrect.

(** * Jumps evaluate the jump polynomial at the transition *)

Lemma xsum_split (f : nat -> Z) (q : Z) (a m : nat) :
  xsum f q (a + m)
  = Z.lxor (xsum f q a) (xsum (fun i => f (a + i)%nat) (Z.shiftr q (Z.of_nat a)) m).
Proof.
  induction m.
  - rewrite Nat.add_0_r. simpl. rewrite Z.lxor_0_r. reflexivity.
  - rewrite Nat.add_succ_r, !xsum_S, IHm.
    rewrite Z.shiftr_spec by lia.
    replace (Z.of_nat m + Z.of_nat a) with (Z.of_nat (a + m)) by lia.
    apply Z.lxor_assoc.
Qed.

Section Jump.
Variables (St : State) (F : list Z -> list Z).
Hypothesis HS : refines St F.

Lemma on_bits_lin (a b : Z) :
  on_bits (word_digits St) (word_count St) F (Z.lxor a b)
  = Z.lxor (on_bits (word_digits St) (word_count St) F a)
           (on_bits (word_digits St) (word_count St) F b).
Proof.
  pose proof (refines_digits St F HS) as HW.
  unfold on_bits. rewrite unpack_lxor by lia.
  rewrite (refines_lin St F HS) by (apply words_ok_unpack; lia).
  apply (pack_vxor _ (word_count St)); auto; apply (refines_ok St F HS);
    apply words_ok_unpack; lia.
Qed.

Lemma on_bits_pack (s : list Z) :
  words_ok (word_digits St) (word_count St) s ->
  on_bits (word_digits St) (word_count St) F (pack (word_digits St) s)
  = pack (word_digits St) (F s).
Proof.
  intros Hs. unfold on_bits. rewrite unpack_pack; auto. apply (refines_digits St F HS).
Qed.

Lemma iter_on_bits (k : nat) (s : list Z) :
  words_ok (word_digits St) (word_count St) s ->
  words_ok (word_digits St) (word_count St) (Nat.iter k F s) /\
  Nat.iter k (on_bits (word_digits St) (word_count St) F) (pack (word_digits St) s)
  = pack (word_digits St) (Nat.iter k F s).
Proof.
  intros Hs. induction k; [simpl; auto|]. rewrite !Nat.iter_succ.
  destruct IHk as [H1 H2]. split.
  - apply (refines_ok St F HS); auto.
  - rewrite H2. apply on_bits_pack; auto.
Qed.

Lemma iter_step (k : nat) (st : carrier St) :
  wf St st ->
  wf St (Nat.iter k (step St) st) /\
  get_state St (Nat.iter k (step St) st) = Nat.iter k F (get_state St st).
Proof.
  intros Hst. induction k; [simpl; auto|]. rewrite !Nat.iter_succ.
  destruct IHk as [H1 H2]. split.
  - apply (refines_step_wf St F HS); auto.
  - rewrite (refines_step St F HS), H2; auto.
Qed.

Lemma add_state_vxor (st : carrier St) (sum : list Z) :
  wf St st -> length sum = word_count St ->
  add_state St st sum = vxor sum (get_state St st).
Proof.
  intros Hst Hl. unfold add_state.
  pose proof (refines_words St F HS st Hst) as [Hgl _].
  destruct (fold_upd_seq (fun m w => Z.lxor (get m w) (index St st w)) (word_count St) 0 sum)
    as [L G].
  { intros c i Hi Hc _. rewrite Hc by lia. reflexivity. }
  apply list_get_ext.
  - rewrite L, length_vxor. lia.
  - intros j Hj. rewrite L in Hj. rewrite G, get_vxor by lia.
    destruct (Nat.leb_spec 0 j), (Nat.ltb_spec j (0 + word_count St)),
      (Nat.ltb_spec j (length sum)); cbn [andb]; try lia.
    rewrite (refines_index St F HS) by (auto; lia). reflexivity.
Qed.

(** The loop over the bits of one word of the jump polynomial. *)
Lemma jump_word (ji : Z) (m : nat) (sum : list Z) (st : carrier St) :
  wf St st -> words_ok (word_digits St) (word_count St) sum ->
  Z.of_nat m <= word_digits St ->
  let r := fold_left
             (fun (acc : list Z * carrier St) b =>
                let (sum, state) := acc in
                let sum :=
                  if Z.land ji (Word.shl (word_digits St) 1 (Z.of_nat b)) =? 0
                  then sum else add_state St state sum in
                (sum, step St state))
             (seq 0 m) (sum, st) in
  words_ok (word_digits St) (word_count St) (fst r) /\
  snd r = Nat.iter m (step St) st /\
  pack (word_digits St) (fst r)
  = Z.lxor (pack (word_digits St) sum)
      (xsum (fun k => pack (word_digits St) (Nat.iter k F (get_state St st))) ji m).
Proof.
  intros Hst Hsum Hm. pose proof (refines_digits St F HS) as HW.
  induction m as [|m IH].
  - simpl. rewrite Z.lxor_0_r. auto.
  - intros r. subst r. rewrite seq_S, fold_left_app. cbn [fold_left Nat.add].
    cbv zeta in IH. destruct IH as [H1 [H2 H3]]; [lia|].
    destruct (fold_left _ (seq 0 m) (sum, st)) as [sum1 st1]. cbn [fst snd] in *.
    subst st1.
    destruct (iter_step m st Hst) as [Hwf Hget].
    rewrite xsum_S, shl_one, <- (land_pow2_testbit ji (Z.of_nat m)) by lia.
    split; [|split; [reflexivity|]].
    + destruct (Z.land ji (2 ^ Z.of_nat m) =? 0); auto.
      rewrite add_state_vxor by (auto; apply H1).
      apply words_ok_vxor; auto; try lia. apply (refines_words St F HS); auto.
    + destruct (Z.land ji (2 ^ Z.of_nat m) =? 0); cbn [negb].
      * rewrite Z.lxor_0_r. exact H3.
      * rewrite add_state_vxor by (auto; apply H1).
        rewrite (pack_vxor _ (word_count St)), H3, Hget; auto.
        -- apply Z.lxor_assoc.
        -- apply (refines_words St F HS); auto.
Qed.

(** The two loops of [jump]. *)
Lemma jump_loop_words (jump_coeff : list Z) (k : nat) (sum : list Z) (st : carrier St) :
  wf St st -> words_ok (word_digits St) (word_count St) sum ->
  words_ok (word_digits St) (word_count St) jump_coeff ->
  (k <= word_count St)%nat ->
  let r := fold_left
    (fun acc i =>
       let ji := get jump_coeff i in
       fold_left
         (fun (acc : list Z * carrier St) b =>
            let (sum, state) := acc in
            let sum :=
              if Z.land ji (Word.shl (word_digits St) 1 (Z.of_nat b)) =? 0
              then sum else add_state St state sum in
            (sum, step St state))
         (seq 0 (Z.to_nat (word_digits St))) acc)
    (seq 0 k) (sum, st) in
  words_ok (word_digits St) (word_count St) (fst r) /\
  snd r = Nat.iter (k * Z.to_nat (word_digits St)) (step St) st /\
  pack (word_digits St) (fst r)
  = Z.lxor (pack (word_digits St) sum)
      (xsum (fun t => pack (word_digits St) (Nat.iter t F (get_state St st)))
            (pack (word_digits St) jump_coeff) (k * Z.to_nat (word_digits St))).
Proof.
  intros Hst Hsum Hr Hk. pose proof (refines_digits St F HS) as HW.
  induction k as [|k IH].
  - simpl. rewrite Z.lxor_0_r. auto.
  - intros r. subst r. rewrite seq_S, fold_left_app. cbn [fold_left Nat.add].
    cbv zeta in IH. destruct IH as [H1 [H2 H3]]; [lia|].
    destruct (fold_left _ (seq 0 k) (sum, st)) as [sum1 st1]. cbn [fst snd] in *.
    subst st1.
    set (w := Z.to_nat (word_digits St)) in *.
    destruct (iter_step (k * w) st Hst) as [Hwf Hget].
    pose proof (jump_word (get jump_coeff k) w sum1 _ Hwf H1 ltac:(lia)) as J.
    cbv zeta in J. destruct J as [J1 [J2 J3]].
    split; [exact J1|]. split.
    + rewrite J2. rewrite <- Nat.iter_add. reflexivity.
    + rewrite J3, H3, Z.lxor_assoc. f_equal.
      replace (Datatypes.S k * w)%nat with (k * w + w)%nat by lia.
      rewrite xsum_split. f_equal.
      apply xsum_ext.
      * intros i Hi. rewrite Z.shiftr_spec by lia.
        rewrite testbit_pack by (auto; try apply Hr; lia).
        replace (Z.of_nat i + Z.of_nat (k * w)) with (Z.of_nat i + Z.of_nat k * word_digits St)
          by lia.
        rewrite Z.div_add, Z.mod_add, Z.div_small, Z.mod_small by lia.
        rewrite Z.add_0_l, Nat2Z.id. reflexivity.
      * intros i Hi _. rewrite Hget, <- Nat.iter_add. f_equal. f_equal. lia.
Qed.

(** [jump] leaves the words of [r(T) s] in the state. *)
Lemma jump_peval (st : carrier St) (jump_coeff : list Z) :
  wf St st -> words_ok (word_digits St) (word_count St) jump_coeff ->
  wf St (jump St st jump_coeff) /\
  pack (word_digits St) (get_state St (jump St st jump_coeff))
  = GF2.peval (on_bits (word_digits St) (word_count St) F)
      (pack (word_digits St) jump_coeff) (pack (word_digits St) (get_state St st)).
Proof.
  intros Hst Hr. pose proof (refines_digits St F HS) as HW.
  unfold jump, jump_loop.
  pose proof (jump_loop_words jump_coeff (word_count St) (repeat 0 (word_count St)) st Hst
                (words_ok_repeat (word_digits St) (word_count St) (Z.lt_le_incl _ _ HW))
                Hr (Nat.le_refl _)) as J.
  cbv zeta in J. destruct J as [J1 [J2 J3]].
  destruct (fold_left _ (seq 0 (word_count St)) _) as [sum st1]. cbn [fst snd] in *.
  destruct (iter_step (word_count St * Z.to_nat (word_digits St)) st Hst) as [Hwf _].
  rewrite <- J2 in Hwf.
  split; [apply (refines_seed_wf St F HS); auto|].
  rewrite (refines_seed St F HS) by auto.
  rewrite J3, pack_repeat_0, Z.lxor_0_l.
  rewrite (peval_xsum _ _ _ (word_count St * Z.to_nat (word_digits St))).
  - apply xsum_ext; auto. intros i _ _.
    destruct (iter_on_bits i (get_state St st) (refines_words St F HS st Hst)) as [_ E].
    symmetry. exact E.
  - apply on_bits_lin.
  - pose proof (pack_words_range _ _ _ (Z.lt_le_incl _ _ HW) Hr) as Hrange.
    replace (Z.of_nat (word_count St * Z.to_nat (word_digits St)))
      with (Z.of_nat (word_count St) * word_digits St) by lia.
    exact Hrange.
Qed.

End Jump.

(** * A jump by [x^e mod c(x)] is [e] steps *)

Lemma peval_words_ext (F G : list Z -> list Z) (q : positive) (s : list Z) :
  (forall x, F x = G x) -> peval_words F q s = peval_words G q s.
Proof.
  intros H. revert s. induction q as [q IH|q IH|]; intros s; cbn [peval_words]; auto.
  - rewrite H, IH. reflexivity.
  - rewrite H, IH. reflexivity.
Qed.

Section JumpSteps.
Variables (St : State) (F : list Z -> list Z) (T : word_type) (p : list Z).
Hypothesis HS : refines St F.
Hypothesis HT : word_digits St = digits T.
Hypothesis Hp : words_ok (word_digits St) (word_count St) p.
Hypothesis Hn64 : bit_count St < 2 ^ 64.

(** [c(T) = 0] on the unit vectors: what the tables of characteristic
    coefficients have to satisfy. *)
Hypothesis Hann : forall k : nat,
  Z.of_nat k < bit_count St ->
  all_zero (peval_words F (Z.to_pos (2 ^ bit_count St + pack (word_digits St) p))
              (unpack (word_digits St) (word_count St) (2 ^ Z.of_nat k))) = true.

Lemma peval_words_pack (q : positive) (s : list Z) :
  words_ok (word_digits St) (word_count St) s ->
  words_ok (word_digits St) (word_count St) (peval_words F q s) /\
  pack (word_digits St) (peval_words F q s)
  = GF2.peval_pos (on_bits (word_digits St) (word_count St) F) q (pack (word_digits St) s).
Proof.
  pose proof (refines_digits St F HS) as HW.
  revert s. induction q as [q IH|q IH|]; intros s Hs; cbn [peval_words GF2.peval_pos].
  - destruct (IH (F s) (refines_ok St F HS s Hs)) as [H1 H2]. split.
    + apply words_ok_vxor; auto; lia.
    + rewrite (pack_vxor _ (word_count St)), H2, (on_bits_pack St F HS); auto.
  - destruct (IH (F s) (refines_ok St F HS s Hs)) as [H1 H2]. split; auto.
    rewrite H2, (on_bits_pack St F HS); auto.
  - auto.
Qed.

Lemma bit_count_pos : 0 < bit_count St.
Proof.
  unfold bit_count. pose proof (refines_digits St F HS). pose proof (refines_count St F HS).
  nia.
Qed.

Lemma annihilated (z : Z) :
  0 <= z < 2 ^ bit_count St ->
  GF2.peval (on_bits (word_digits St) (word_count St) F)
    (2 ^ bit_count St + pack (word_digits St) p) z = 0.
Proof.
  intros Hz. pose proof (refines_digits St F HS) as HW. pose proof bit_count_pos as Hn.
  pose proof (pack_words_range _ _ _ (Z.lt_le_incl _ _ HW) Hp) as HP.
  assert (H2n : 0 < 2 ^ bit_count St) by (apply Z.pow_pos_nonneg; lia).
  set (c := 2 ^ bit_count St + pack (word_digits St) p) in *.
  apply (lin_ext (GF2.peval (on_bits (word_digits St) (word_count St) F) c) (fun _ => 0)
           (Z.to_nat (bit_count St))).
  - intros. apply peval_lxor_r. apply (on_bits_lin St F HS).
  - intros. reflexivity.
  - intros k Hk.
    specialize (Hann k ltac:(lia)). fold c in Hann.
    destruct (peval_words_pack (Z.to_pos c)
                (unpack (word_digits St) (word_count St) (2 ^ Z.of_nat k))
                (words_ok_unpack _ _ _ (Z.lt_le_incl _ _ HW))) as [_ E].
    rewrite pack_unpack in E by auto.
    rewrite Z.mod_small in E.
    2:{ split; [apply Z.pow_nonneg; lia|]. apply Z.pow_lt_mono_r; try lia.
        unfold bit_count in *. lia. }
    assert (Hc : c = Zpos (Z.to_pos c)) by (rewrite Z2Pos.id; auto; unfold c; lia).
    rewrite Hc. cbn [GF2.peval]. rewrite <- E.
    apply all_zero_repeat in Hann. rewrite Hann. apply pack_repeat_0.
  - rewrite Z2Nat.id by lia. exact Hz.
Qed.

Lemma peval_xpow (e : nat) (z : Z) :
  0 <= z < 2 ^ bit_count St ->
  GF2.peval (on_bits (word_digits St) (word_count St) F)
    (Nat.iter e (GF2.mulx (bit_count St) (pack (word_digits St) p)) 1) z
  = Nat.iter e (on_bits (word_digits St) (word_count St) F) z.
Proof.
  intros Hz. pose proof (refines_digits St F HS) as HW. pose proof bit_count_pos as Hn.
  pose proof (pack_words_range _ _ _ (Z.lt_le_incl _ _ HW) Hp) as HP.
  fold (bit_count St) in HP.
  induction e.
  - reflexivity.
  - rewrite !Nat.iter_succ.
    set (r := Nat.iter e (GF2.mulx (bit_count St) (pack (word_digits St) p)) 1) in *.
    pose proof (xpow_range (bit_count St) (pack (word_digits St) p) Hn HP e) as Hr.
    fold r in Hr.
    pose proof (mulx_double (bit_count St) (pack (word_digits St) p) Hn HP r Hr) as Hd.
    apply lxor_move in Hd. rewrite <- Hd.
    assert (HK : 0 <= (if Z.testbit r (bit_count St - 1)
                       then 2 ^ bit_count St + pack (word_digits St) p else 0)).
    { assert (0 < 2 ^ bit_count St) by (apply Z.pow_pos_nonneg; lia).
      destruct (Z.testbit r (bit_count St - 1)); lia. }
    rewrite peval_lxor_l by (try apply (on_bits_lin St F HS); lia).
    rewrite peval_double by (try apply (on_bits_lin St F HS); lia).
    rewrite IHe.
    destruct (Z.testbit r (bit_count St - 1)).
    + rewrite annihilated by auto. apply Z.lxor_0_r.
    + simpl (GF2.peval _ 0 z). apply Z.lxor_0_r.
Qed.

(** The state after a jump with the coefficients that [reduce] returns holds
    the words that [e] steps leave, for [e = J] or [e = 2^J]. *)
Lemma jump_reduce_steps (st : carrier St) (J : Z) (J_is_pow2 : bool) :
  wf St st -> 0 <= J ->
  let r := Internal.reduce (word_digits St) (word_count St) p J J_is_pow2 in
  let e := Z.to_nat (if J_is_pow2 then 2 ^ J else J) in
  wf St (jump St st r) /\
  get_state St (jump St st r) = get_state St (Nat.iter e (step St) st).
Proof.
  intros Hst HJ r e. pose proof (refines_digits St F HS) as HW.
  pose proof (refines_count St F HS) as HN.
  assert (Hn64' : Internal.n (digits T) (word_count St) < 2 ^ 64).
  { rewrite <- HT. exact Hn64. }
  assert (Hp' : words_ok (digits T) (word_count St) p) by (rewrite <- HT; exact Hp).
  pose proof (reduce_xpow T (word_count St) p HN Hp' Hn64' J J_is_pow2 HJ) as R.
  rewrite <- HT in R. fold r in R. fold e in R. destruct R as [R1 R2].
  change (Internal.n (word_digits St) (word_count St)) with (bit_count St) in R2.
  destruct (jump_peval St F HS st r Hst R1) as [J1 J2].
  split; auto.
  pose proof (refines_words St F HS st Hst) as Hw.
  destruct (iter_step St F HS e st Hst) as [K1 K2].
  destruct (iter_on_bits St F HS e (get_state St st) Hw) as [I1 I2].
  apply (pack_inj (word_digits St) (word_count St)); auto.
  - apply (refines_words St F HS); auto.
  - apply (refines_words St F HS); auto.
  - rewrite J2, R2, K2, <- I2. apply peval_xpow.
    apply pack_words_range; auto; lia.
Qed.

End JumpSteps.

(** * The state types refine their transitions *)

Lemma lxor_swap (a b c d : Z) :
  Z.lxor (Z.lxor a b) (Z.lxor c d) = Z.lxor (Z.lxor a c) (Z.lxor b d).
Proof. Z.bitblast. Qed.

(** An array of a known number of words, as its words. *)
Ltac words_of H :=
  let Hl := fresh "Hl" in
  let Hr := fresh "Hr" in
  destruct H as [Hl Hr];
  repeat match type of Hl with
         | length ?s = _ =>
             destruct s as [|? s]; cbn [length] in Hl; try discriminate Hl;
             try (apply Nat.succ_inj in Hl)
         end;
  repeat match goal with
         | Hr : Forall _ (_ :: _) |- _ =>
             let h := fresh "Hw" in
             apply Forall_cons_iff in Hr; destruct Hr as [h Hr]
         end.

Lemma words_ok_cons (W : Z) (N : nat) (x : Z) (a : list Z) :
  Word.in_range W x -> words_ok W N a -> words_ok W (S N) (x :: a).
Proof.
  intros Hx [Hl Hr]. split; [cbn [length]; lia|]. constructor; auto.
Qed.

Lemma words_ok_nil (W : Z) : words_ok W 0 [].
Proof. split; auto. Qed.

Create HintDb words.
#[local] Hint Resolve words_ok_cons words_ok_nil in_range_lxor in_range_shl in_range_rotl
  : words.

Section XoshiroRefines.
Variables (T : word_type) (A B : Z).
Hypothesis HA : 0 <= A.

Lemma xoshiro4_refines :
  refines (xoshiro_with 4 T A B (Xoshiro.step4 (digits T) A B))
          (Logical.xoshiro4 (digits T) A B).
Proof.
  pose proof (digits_pos T) as HW.
  assert (Hstep : forall s, words_ok (digits T) 4 s ->
                            Xoshiro.step4 (digits T) A B s = Logical.xoshiro4 (digits T) A B s).
  { intros s Hs. words_of Hs. reflexivity. }
  assert (Hok : forall s, words_ok (digits T) 4 s ->
                          words_ok (digits T) 4 (Logical.xoshiro4 (digits T) A B s)).
  { intros s Hs. words_of Hs. cbn [Logical.xoshiro4].
    repeat apply words_ok_cons; auto 6 with words zarith. }
  constructor; cbn [xoshiro_with word_digits word_count wf get_state index seed step carrier];
    auto; try lia.
  - intros st Hst. rewrite Hstep; auto.
  - intros ws st Hst Hws. unfold Xoshiro.seed. rewrite copy_into_full; auto.
    destruct Hst, Hws; lia.
  - intros ws st Hst Hws. unfold Xoshiro.seed, Xoshiro.get_state.
    apply copy_into_full. destruct Hst, Hws; lia.
  - intros a b Ha Hb. words_of Ha. words_of Hb. cbn [vxor Logical.xoshiro4].
    repeat (apply (f_equal2 (@cons Z))); try reflexivity.
    + Z.bitblast.
    + Z.bitblast.
    + rewrite shl_lxor by lia. Z.bitblast.
    + rewrite lxor_swap. apply rotl_lxor; auto with words zarith.
Qed.

Lemma xoshiro8_refines :
  refines (xoshiro_with 8 T A B (Xoshiro.step8 (digits T) A B))
          (Logical.xoshiro8 (digits T) A B).
Proof.
  pose proof (digits_pos T) as HW.
  assert (Hstep : forall s, words_ok (digits T) 8 s ->
                            Xoshiro.step8 (digits T) A B s = Logical.xoshiro8 (digits T) A B s).
  { intros s Hs. words_of Hs. reflexivity. }
  assert (Hok : forall s, words_ok (digits T) 8 s ->
                          words_ok (digits T) 8 (Logical.xoshiro8 (digits T) A B s)).
  { intros s Hs. words_of Hs. cbn [Logical.xoshiro8].
    repeat apply words_ok_cons; auto 6 with words zarith. }
  constructor; cbn [xoshiro_with word_digits word_count wf get_state index seed step carrier];
    auto; try lia.
  - intros st Hst. rewrite Hstep; auto.
  - intros ws st Hst Hws. unfold Xoshiro.seed. rewrite copy_into_full; auto.
    destruct Hst, Hws; lia.
  - intros ws st Hst Hws. unfold Xoshiro.seed, Xoshiro.get_state.
    apply copy_into_full. destruct Hst, Hws; lia.
  - intros a b Ha Hb. words_of Ha. words_of Hb. cbn [vxor Logical.xoshiro8].
    repeat (apply (f_equal2 (@cons Z))); try reflexivity.
    + Z.bitblast.
    + Z.bitblast.
    + Z.bitblast.
    + Z.bitblast.
    + Z.bitblast.
    + Z.bitblast.
    + rewrite shl_lxor by lia. Z.bitblast.
    + rewrite lxor_swap. apply rotl_lxor; auto with words zarith.
Qed.

End XoshiroRefines.

(** * The ring buffer of xoroshiro *)

Lemma mod_wrap (a N : nat) :
  (0 < N)%nat -> (a < 2 * N)%nat -> (a mod N = if a <? N then a else a - N)%nat.
Proof.
  intros HN Ha. destruct (Nat.ltb_spec a N).
  - apply Nat.mod_small; auto.
  - symmetry. apply Nat.mod_unique with (q := 1%nat); lia.
Qed.

Lemma length_removelast (l : list Z) : length (removelast l) = (length l - 1)%nat.
Proof.
  induction l as [|x l IH]; auto.
  destruct l as [|y l]; auto. cbn [removelast length] in *. lia.
Qed.

Lemma get_removelast (l : list Z) (i : nat) :
  (i < length l - 1)%nat -> get (removelast l) i = get l i.
Proof.
  revert i. induction l as [|x l IH]; intros i Hi; [simpl in Hi; lia|].
  destruct l as [|y l]; [simpl in Hi; lia|].
  destruct i; [reflexivity|].
  change (get (removelast (x :: y :: l)) (S i)) with (get (removelast (y :: l)) i).
  change (get (x :: y :: l) (S i)) with (get (y :: l) i).
  apply IH. cbn [length] in *. lia.
Qed.

Lemma last_get (l : list Z) : last l 0 = get l (length l - 1).
Proof.
  induction l as [|x l IH]; auto.
  destruct l as [|y l]; auto.
  change (last (x :: y :: l) 0) with (last (y :: l) 0). rewrite IH.
  cbn [length]. replace (S (S (length l)) - 1)%nat with (S (length l - 0)) by lia.
  replace (S (length l) - 1)%nat with (length l - 0)%nat by lia. reflexivity.
Qed.

Section XoroshiroRefines.
Variables (N : nat) (W A B C : Z).
Hypothesis HN : (2 <= N)%nat.

(** The two words that a step computes from the first and the last. *)
Let new_first (s0 sl : Z) : Z :=
  Z.lxor (Z.lxor (Word.rotl W s0 A) (Word.shl W (Z.lxor sl s0) B)) (Z.lxor sl s0).
Let new_last (s0 sl : Z) : Z := Word.rotl W (Z.lxor sl s0) C.

Lemma logical_xoroshiro_get (s : list Z) :
  length s = N ->
  length (Logical.xoroshiro W A B C s) = N /\
  forall i, get (Logical.xoroshiro W A B C s) i =
            if (i <? N - 2)%nat then get s (i + 1)
            else if (i =? N - 2)%nat then new_first (get s 0) (get s (N - 1))
            else if (i =? N - 1)%nat then new_last (get s 0) (get s (N - 1))
            else 0.
Proof.
  intros Hl. destruct s as [|s0 rest]; [simpl in Hl; lia|].
  cbn [length] in Hl. cbn [Logical.xoroshiro].
  assert (Hlast : last rest 0 = get (s0 :: rest) (N - 1)).
  { rewrite last_get. replace (N - 1)%nat with (S (length rest - 1)) by lia. reflexivity. }
  split.
  - rewrite length_app, length_removelast. cbn [length]. lia.
  - intros i. rewrite Hlast. change (get (s0 :: rest) 0) with s0.
    destruct (Nat.ltb_spec i (N - 2)).
    + rewrite get_app_l by (rewrite length_removelast; lia).
      rewrite get_removelast by lia. rewrite Nat.add_1_r. reflexivity.
    + rewrite get_app_r by (rewrite length_removelast; lia).
      rewrite length_removelast.
      destruct (Nat.eqb_spec i (N - 2)) as [->|E1].
      * replace (N - 2 - (length rest - 1))%nat with 0%nat by lia. reflexivity.
      * destruct (Nat.eqb_spec i (N - 1)) as [->|E2].
        -- replace (N - 1 - (length rest - 1))%nat with 1%nat by lia. reflexivity.
        -- unfold get. apply nth_overflow. cbn [length]. lia.
Qed.

Lemma get_get_state (s : Xoroshiro.t) (i : nat) :
  (i < N)%nat ->
  get (Xoroshiro.get_state N s) i
  = get (Xoroshiro.m_state s) ((i + Xoroshiro.m_final s + 1) mod N).
Proof.
  intros Hi. unfold Xoroshiro.get_state. rewrite get_map_seq by auto. reflexivity.
Qed.

Lemma length_get_state (s : Xoroshiro.t) : length (Xoroshiro.get_state N s) = N.
Proof. unfold Xoroshiro.get_state. rewrite length_map, length_seq. reflexivity. Qed.

(** The ring-buffer step is the transition on the words in logical order. *)
Lemma clever_step_logical (s : Xoroshiro.t) :
  length (Xoroshiro.m_state s) = N -> (Xoroshiro.m_final s < N)%nat ->
  length (Xoroshiro.m_state (Xoroshiro.clever_step N W A B C s)) = N /\
  (Xoroshiro.m_final (Xoroshiro.clever_step N W A B C s) < N)%nat /\
  Xoroshiro.get_state N (Xoroshiro.clever_step N W A B C s)
  = Logical.xoroshiro W A B C (Xoroshiro.get_state N s).
Proof.
  intros Hl Hf.
  destruct (logical_xoroshiro_get (Xoroshiro.get_state N s) (length_get_state s)) as [L G].
  destruct s as [m f]. cbn [Xoroshiro.m_state Xoroshiro.m_final] in *.
  unfold Xoroshiro.clever_step. cbn [Xoroshiro.m_state Xoroshiro.m_final].
  assert (Hf1 : ((f + 1) mod N < N)%nat) by (apply Nat.mod_upper_bound; lia).
  split; [rewrite !length_upd; auto|]. split; [auto|].
  apply list_get_ext.
  - rewrite length_get_state, L. reflexivity.
  - intros i Hi. rewrite length_get_state in Hi.
    assert (E0 : get (Xoroshiro.get_state N (Xoroshiro.mk m f)) 0
                 = get m (if (f + 1 <? N)%nat then f + 1 else 0)).
    { rewrite get_get_state by lia. cbn [Xoroshiro.m_state Xoroshiro.m_final].
      rewrite mod_wrap by lia. f_equal.
      destruct (Nat.ltb_spec (0 + f + 1) N), (Nat.ltb_spec (f + 1) N); lia. }
    assert (EL : get (Xoroshiro.get_state N (Xoroshiro.mk m f)) (N - 1) = get m f).
    { rewrite get_get_state by lia. cbn [Xoroshiro.m_state Xoroshiro.m_final].
      rewrite mod_wrap by lia. f_equal.
      destruct (Nat.ltb_spec (N - 1 + f + 1) N); lia. }
    assert (E1 : (i + 1 < N)%nat ->
                 get (Xoroshiro.get_state N (Xoroshiro.mk m f)) (i + 1)
                 = get m (if (i + f + 2 <? N)%nat then i + f + 2 else i + f + 2 - N)).
    { intros Hi1. rewrite get_get_state by lia. cbn [Xoroshiro.m_state Xoroshiro.m_final].
      rewrite mod_wrap by lia. f_equal.
      destruct (Nat.ltb_spec (i + 1 + f + 1) N), (Nat.ltb_spec (i + f + 2) N); lia. }
    rewrite G, E0, EL. rewrite get_get_state by lia.
    cbn [Xoroshiro.m_state Xoroshiro.m_final].
    rewrite !get_upd, !length_upd, Hl.
    rewrite !(mod_wrap (_ + _ + 1)) by lia.
    rewrite !(mod_wrap (f + 1)) by lia.
    unfold new_first, new_last.
    destruct (Nat.ltb_spec i (N - 2)) as [Hi2|Hi2].
    + rewrite E1 by lia.
      repeat match goal with
             | |- context [(?a <? ?b)%nat] => destruct (Nat.ltb_spec a b); try lia
             | |- context [(?a =? ?b)%nat] => destruct (Nat.eqb_spec a b); try lia
             end; cbn [andb]; try reflexivity; try (f_equal; lia).
    + repeat match goal with
             | |- context [(?a <? ?b)%nat] => destruct (Nat.ltb_spec a b); try lia
             | |- context [(?a =? ?b)%nat] => destruct (Nat.eqb_spec a b); try lia
             end; cbn [andb]; try reflexivity; try (f_equal; lia);
        try (replace (f + 1 - N)%nat with 0%nat by lia; reflexivity).
Qed.

(** The array-shift step, on a state whose words are in place. *)
Lemma simple_step_logical (s : Xoroshiro.t) :
  length (Xoroshiro.m_state s) = N -> Xoroshiro.m_final s = (N - 1)%nat ->
  Xoroshiro.m_final (Xoroshiro.simple_step N W A B C s) = (N - 1)%nat /\
  Xoroshiro.m_state (Xoroshiro.simple_step N W A B C s)
  = Logical.xoroshiro W A B C (Xoroshiro.m_state s).
Proof.
  intros Hl Hf.
  destruct (logical_xoroshiro_get (Xoroshiro.m_state s) Hl) as [L G].
  destruct s as [m f]. cbn [Xoroshiro.m_state Xoroshiro.m_final] in *.
  unfold Xoroshiro.simple_step. cbn [Xoroshiro.m_state Xoroshiro.m_final].
  split; auto.
  destruct (fold_upd_seq (fun m i => get m (i + 1)) (N - 2) 0 m) as [L1 G1].
  { intros b i Hi Hb _. apply Hb. lia. }
  cbv zeta in L1, G1.
  apply list_get_ext.
  - rewrite !length_upd, L1, L. auto.
  - intros i Hi. rewrite !length_upd, L1 in Hi.
    rewrite G, !get_upd, !length_upd, L1, G1, Hl.
    unfold new_first, new_last.
    repeat match goal with
           | |- context [(?a <? ?b)%nat] => destruct (Nat.ltb_spec a b); try lia
           | |- context [(?a <=? ?b)%nat] => destruct (Nat.leb_spec a b); try lia
           | |- context [(?a =? ?b)%nat] => destruct (Nat.eqb_spec a b); try lia
           end; cbn [andb]; try reflexivity; try (f_equal; lia).
Qed.

Lemma get_state_in_place (s : Xoroshiro.t) :
  length (Xoroshiro.m_state s) = N -> Xoroshiro.m_final s = (N - 1)%nat ->
  Xoroshiro.get_state N s = Xoroshiro.m_state s.
Proof.
  intros Hl Hf. apply list_get_ext.
  - rewrite length_get_state. auto.
  - intros i Hi. rewrite length_get_state in Hi. rewrite get_get_state by auto.
    rewrite Hf. f_equal. rewrite mod_wrap by lia.
    destruct (Nat.ltb_spec (i + (N - 1) + 1) N); lia.
Qed.

End XoroshiroRefines.

Lemma words_ok_intro (W : Z) (N : nat) (a : list Z) :
  length a = N -> (forall i, (i < N)%nat -> Word.in_range W (get a i)) -> words_ok W N a.
Proof.
  intros Hl H. split; auto. apply Forall_get. intros i Hi. apply H. lia.
Qed.

Ltac in_range_tac :=
  repeat match goal with
         | |- Word.in_range _ (Z.lxor _ _) => apply in_range_lxor; [lia| |]
         | |- Word.in_range _ (Word.rotl _ _ _) => apply in_range_rotl; [lia|]
         | |- Word.in_range _ (Word.shl _ _ _) => apply in_range_shl; lia
         | |- Word.in_range _ 0 => apply in_range_0; lia
         | |- Word.in_range _ (get _ _) => auto
         end.

Section XoroshiroState.
Variables (N : nat) (T : word_type) (A B C : Z).
Hypothesis HN : (2 <= N)%nat.
Hypothesis HB : 0 <= B.

Lemma logical_xoroshiro_ok (s : list Z) :
  words_ok (digits T) N s -> words_ok (digits T) N (Logical.xoroshiro (digits T) A B C s).
Proof.
  intros Hs. pose proof (digits_pos T) as HW.
  destruct (logical_xoroshiro_get N (digits T) A B C HN s (words_ok_length _ _ _ Hs)) as [L G].
  apply words_ok_intro; auto.
  intros i Hi. rewrite G.
  assert (R : forall j, Word.in_range (digits T) (get s j))
    by (intros j; apply (words_ok_get _ N); auto; lia).
  destruct (i <? N - 2)%nat; auto.
  destruct (i =? N - 2)%nat.
  { in_range_tac. }
  destruct (i =? N - 1)%nat; in_range_tac.
Qed.

Lemma logical_xoroshiro_lin (a b : list Z) :
  words_ok (digits T) N a -> words_ok (digits T) N b ->
  Logical.xoroshiro (digits T) A B C (vxor a b)
  = vxor (Logical.xoroshiro (digits T) A B C a) (Logical.xoroshiro (digits T) A B C b).
Proof.
  intros Ha Hb. pose proof (digits_pos T) as HW.
  pose proof (words_ok_length _ _ _ Ha) as La. pose proof (words_ok_length _ _ _ Hb) as Lb.
  assert (Lab : length (vxor a b) = N) by (rewrite length_vxor; lia).
  destruct (logical_xoroshiro_get N (digits T) A B C HN a La) as [L1 G1].
  destruct (logical_xoroshiro_get N (digits T) A B C HN b Lb) as [L2 G2].
  destruct (logical_xoroshiro_get N (digits T) A B C HN _ Lab) as [L3 G3].
  assert (Ra : forall j, Word.in_range (digits T) (get a j))
    by (intros j; apply (words_ok_get _ N); auto; lia).
  assert (Rb : forall j, Word.in_range (digits T) (get b j))
    by (intros j; apply (words_ok_get _ N); auto; lia).
  apply list_get_ext.
  - rewrite length_vxor. lia.
  - intros i Hi. rewrite get_vxor by lia. rewrite G1, G2, G3.
    rewrite !get_vxor by lia.
    destruct (i <? N - 2)%nat; auto.
    destruct (i =? N - 2)%nat.
    { rewrite (lxor_swap (get a (N - 1))).
      rewrite shl_lxor, rotl_lxor by (auto; lia). Z.bitblast. }
    destruct (i =? N - 1)%nat; auto.
    rewrite (lxor_swap (get a (N - 1))).
    apply rotl_lxor; auto; in_range_tac.
Qed.

Lemma words_ok_get_state (s : Xoroshiro.t) :
  words_ok (digits T) N (Xoroshiro.m_state s) ->
  words_ok (digits T) N (Xoroshiro.get_state N s).
Proof.
  intros Hs. pose proof (digits_pos T) as HW.
  apply words_ok_intro; [apply length_get_state|].
  intros i Hi. rewrite get_get_state by auto. apply (words_ok_get _ N); auto; lia.
Qed.

Lemma xoroshiro_refines :
  refines (xoroshiro N T A B C) (Logical.xoroshiro (digits T) A B C).
Proof.
  pose proof (digits_pos T) as HW.
  constructor; cbn [xoroshiro word_digits word_count wf get_state index seed step carrier];
    auto; try lia.
  - intros st [Hs _]. apply words_ok_get_state; auto.
  - intros st w _ Hw. rewrite get_get_state by auto. reflexivity.
  - intros st [Hs [Hf H2]]. unfold Xoroshiro.step.
    destruct (Nat.eqb_spec N 2) as [E|E].
    + destruct (simple_step_logical N (digits T) A B C HN st (words_ok_length _ _ _ Hs) (H2 E))
        as [F1 F2].
      split; [rewrite F2; apply logical_xoroshiro_ok; auto|].
      split; [lia | auto].
    + split; [|split].
      * unfold Xoroshiro.clever_step. cbn [Xoroshiro.m_state].
        repeat apply words_ok_upd; auto.
        -- in_range_tac; apply (words_ok_get _ N); auto; lia.
        -- in_range_tac; apply (words_ok_get _ N); auto; lia.
      * unfold Xoroshiro.clever_step. cbn [Xoroshiro.m_final].
        apply Nat.mod_upper_bound. lia.
      * intros; contradiction.
  - intros st [Hs [Hf H2]]. unfold Xoroshiro.step.
    destruct (Nat.eqb_spec N 2) as [E|E].
    + destruct (simple_step_logical N (digits T) A B C HN st (words_ok_length _ _ _ Hs) (H2 E))
        as [F1 F2].
      rewrite !(get_state_in_place N HN); auto.
      * apply words_ok_length in Hs; auto.
      * rewrite F2. apply (words_ok_length (digits T)). apply logical_xoroshiro_ok; auto.
    + apply (clever_step_logical N (digits T) A B C HN st); auto.
      apply words_ok_length in Hs; auto.
  - intros ws st [Hs _] Hws. unfold Xoroshiro.seed, Xoroshiro.invariant.
    cbn [Xoroshiro.m_state Xoroshiro.m_final].
    rewrite copy_into_full by (destruct Hs, Hws; lia).
    split; auto. split; [lia | auto].
  - intros ws st [Hs _] Hws. unfold Xoroshiro.seed.
    rewrite (get_state_in_place N HN); cbn [Xoroshiro.m_state Xoroshiro.m_final]; auto.
    + apply copy_into_full. destruct Hs, Hws; lia.
    + rewrite copy_into_full by (destruct Hs, Hws; lia). destruct Hws; auto.
  - apply logical_xoroshiro_ok.
  - apply logical_xoroshiro_lin.
Qed.

End XoroshiroState.

(** * The transitions with their constants computed beforehand *)

Lemma fast_shl (W x k : Z) : 0 <= W -> Fast.shl (Z.ones W) x k = Word.shl W x k.
Proof. intros. unfold Fast.shl, Word.shl, Word.wrap. apply Z.land_ones; auto. Qed.

Lemma fast_rotl (W x s : Z) :
  0 <= W -> s mod W <> 0 ->
  Fast.rotl (Z.ones W) x (s mod W) (W - s mod W) = Word.rotl W x s.
Proof.
  intros HW Hs. unfold Fast.rotl, Word.rotl, Word.shr. rewrite fast_shl by auto.
  destruct (Z.eqb_spec (s mod W) 0); [contradiction | reflexivity].
Qed.

Lemma fast_xoshiro4 (W A B : Z) (s : list Z) :
  0 <= W -> B mod W <> 0 ->
  Fast.xoshiro4 (Z.ones W) A (B mod W) (W - B mod W) s = Logical.xoshiro4 W A B s.
Proof.
  intros HW HB. unfold Fast.xoshiro4, Logical.xoshiro4.
  repeat (destruct s as [|? s]; auto). rewrite fast_shl, fast_rotl by auto. reflexivity.
Qed.

Lemma fast_xoshiro8 (W A B : Z) (s : list Z) :
  0 <= W -> B mod W <> 0 ->
  Fast.xoshiro8 (Z.ones W) A (B mod W) (W - B mod W) s = Logical.xoshiro8 W A B s.
Proof.
  intros HW HB. unfold Fast.xoshiro8, Logical.xoshiro8.
  do 9 (destruct s as [|? s]; auto). rewrite fast_shl, fast_rotl by auto. reflexivity.
Qed.

Lemma fast_xoroshiro (W A B C : Z) (s : list Z) :
  0 <= W -> A mod W <> 0 -> C mod W <> 0 ->
  Fast.xoroshiro (Z.ones W) (A mod W) (W - A mod W) B (C mod W) (W - C mod W) s
  = Logical.xoroshiro W A B C s.
Proof.
  intros HW HA HC. unfold Fast.xoroshiro, Logical.xoroshiro.
  destruct s as [|s0 rest]; auto. rewrite fast_shl, !fast_rotl by auto. reflexivity.
Qed.

(** * What the checks by evaluation say *)

Lemma annihilates_spec (W : Z) (N : nat) (F : list Z -> list Z) (c : positive) (lo cnt k : nat) :
  annihilates W N F c lo cnt = true -> (lo <= k < lo + cnt)%nat ->
  all_zero (peval_words F c (unpack W N (2 ^ Z.of_nat k))) = true.
Proof.
  unfold annihilates. rewrite forallb_forall. intros H Hk. apply H. apply in_seq. lia.
Qed.

Lemma forallb_eq (f g : nat -> bool) (l : list nat) :
  (forall k, f k = g k) -> forallb f l = forallb g l.
Proof. intros H. induction l as [|x l IH]; auto. cbn [forallb]. rewrite H, IH. reflexivity. Qed.

Lemma annihilates_ext (W : Z) (N : nat) (F G : list Z -> list Z) (c : positive) (lo cnt : nat) :
  (forall x, F x = G x) -> annihilates W N F c lo cnt = annihilates W N G c lo cnt.
Proof.
  intros H. unfold annihilates. apply forallb_eq. intros k.
  rewrite (peval_words_ext F G); auto.
Qed.

Lemma list_eqb_eq (a b : list Z) : list_eqb a b = true -> a = b.
Proof.
  unfold list_eqb. revert b. induction a as [|x a IH]; intros [|y b] H; auto;
    cbn [length combine forallb fst snd] in H; try discriminate.
  apply andb_true_iff in H. destruct H as [H1 H2].
  apply andb_true_iff in H2. destruct H2 as [H2 H3].
  apply Z.eqb_eq in H2. subst y. f_equal. apply IH.
  apply andb_true_iff. split; auto.
Qed.

Lemma shifts_down_spec (W : Z) (N : nat) (F : list Z -> list Z) (lo cnt k : nat) :
  shifts_down W N F lo cnt = true -> (lo <= k < lo + cnt)%nat ->
  F (unpack W N (2 ^ (Z.of_nat k + W))) = unpack W N (2 ^ Z.of_nat k).
Proof.
  unfold shifts_down. rewrite forallb_forall. intros H Hk.
  apply list_eqb_eq. apply H. apply in_seq. lia.
Qed.

Lemma shifts_down_ext (W : Z) (N : nat) (F G : list Z -> list Z) (lo cnt : nat) :
  (forall x, F x = G x) -> shifts_down W N F lo cnt = shifts_down W N G lo cnt.
Proof.
  intros H. unfold shifts_down. apply forallb_eq. intros k. rewrite H. reflexivity.
Qed.

Lemma vxor_self (a : list Z) : vxor a a = repeat 0 (length a).
Proof.
  induction a as [|x a IH]; auto. cbn [vxor length repeat].
  rewrite Z.lxor_nilpotent, IH. reflexivity.
Qed.

Section Annihilation.
Variables (St : State) (F : list Z -> list Z).
Hypothesis HS : refines St F.

Lemma peval_words_ok (q : positive) (s : list Z) :
  words_ok (word_digits St) (word_count St) s ->
  words_ok (word_digits St) (word_count St) (peval_words F q s).
Proof.
  pose proof (refines_digits St F HS) as HW.
  revert s. induction q as [q IH|q IH|]; intros s Hs; cbn [peval_words]; auto.
  - apply words_ok_vxor; auto; try lia. apply IH. apply (refines_ok St F HS); auto.
  - apply IH. apply (refines_ok St F HS); auto.
Qed.

Lemma peval_words_commute (q : positive) (s : list Z) :
  words_ok (word_digits St) (word_count St) s ->
  peval_words F q (F s) = F (peval_words F q s).
Proof.
  revert s. induction q as [q IH|q IH|]; intros s Hs; cbn [peval_words]; auto.
  - rewrite (refines_lin St F HS); auto.
    + rewrite IH; auto. apply (refines_ok St F HS); auto.
    + apply peval_words_ok. apply (refines_ok St F HS); auto.
  - apply IH. apply (refines_ok St F HS); auto.
Qed.

Lemma transition_zero :
  F (repeat 0 (word_count St)) = repeat 0 (word_count St).
Proof.
  pose proof (refines_digits St F HS) as HW.
  pose proof (words_ok_repeat (word_digits St) (word_count St) (Z.lt_le_incl _ _ HW)) as H0.
  pose proof (refines_lin St F HS _ _ H0 H0) as H.
  rewrite vxor_self, repeat_length in H. rewrite H, vxor_self.
  rewrite (words_ok_length _ _ _ (refines_ok St F HS _ H0)). reflexivity.
Qed.

(** A unit vector that the transition sends to another one is sent to zero
    by [c(F)] when the other one is. *)
Lemma annihilates_image (c : positive) (s : list Z) :
  words_ok (word_digits St) (word_count St) s ->
  all_zero (peval_words F c s) = true ->
  all_zero (peval_words F c (F s)) = true.
Proof.
  intros Hs H. rewrite peval_words_commute by auto.
  apply all_zero_repeat in H.
  rewrite (words_ok_length _ _ _ (peval_words_ok c s Hs)) in H.
  rewrite H, transition_zero.
  clear. induction (word_count St); auto.
Qed.

(** The unit vectors from [lo] on checked one by one, the ones below
    reached by the transition from the ones a word above. *)
Lemma annihilates_shift (W : Z) (N n : nat) (c : positive) (lo : nat) :
  W = word_digits St -> N = word_count St -> Z.of_nat n = bit_count St ->
  annihilates W N F c lo (n - lo) = true ->
  shifts_down W N F 0 lo = true ->
  Z.of_nat lo + W <= Z.of_nat n ->
  forall k : nat, (k < n)%nat ->
    all_zero (peval_words F c (unpack W N (2 ^ Z.of_nat k))) = true.
Proof.
  intros -> -> Hn Ha Hd Hlo. pose proof (refines_digits St F HS) as HW.
  assert (H : forall d k : nat, (k < n)%nat -> (n - k <= n - lo + d)%nat ->
            all_zero (peval_words F c
                        (unpack (word_digits St) (word_count St) (2 ^ Z.of_nat k))) = true).
  { induction d as [|d IH]; intros k Hk Hd'.
    - apply (annihilates_spec _ _ _ _ _ _ _ Ha). lia.
    - destruct (le_lt_dec lo k) as [L|L].
      + apply (annihilates_spec _ _ _ _ _ _ _ Ha). lia.
      + rewrite <- (shifts_down_spec _ _ _ _ _ k Hd) by lia.
        apply annihilates_image; [apply words_ok_unpack; lia|].
        replace (Z.of_nat k + word_digits St)
          with (Z.of_nat (k + Z.to_nat (word_digits St))) by lia.
        apply IH; lia. }
  intros k Hk. apply (H n k); auto. lia.
Qed.

End Annihilation.

(** A state type can jump when its table entry passes the check. *)
Lemma jumpable_intro (St : State) (F : list Z -> list Z) (T : word_type) (p : list Z)
  (W : Z) (N n : nat) :
  refines St F -> word_digits St = digits T ->
  characteristic_coefficients St = ok p ->
  W = word_digits St -> N = word_count St -> Z.of_nat n = bit_count St ->
  words_ok W N p -> bit_count St < 2 ^ 64 -> 64 <= bit_count St ->
  (forall k : nat, (k < n)%nat ->
     all_zero (peval_words F (characteristic_polynomial St) (unpack W N (2 ^ Z.of_nat k)))
     = true) ->
  jumpable St p.
Proof.
  intros HS HT E -> -> Hn Hp H64 Hlow H. exists F, T.
  split; auto. split; auto. split; auto. split; auto. split; auto.
  intros k Hk. unfold characteristic_polynomial in H. rewrite E in H. apply H. lia.
Qed.

(** * The tables of characteristic coefficients

    Each table entry is checked against the transition of its state type:
    [c(F)] sends every unit vector to zero. *)

Lemma xoshiro_4x32_annihilates :
  annihilates 32 4 (Fast.xoshiro4 (Z.ones 32) 9 (11 mod 32) (32 - 11 mod 32))
    (characteristic_polynomial xoshiro_4x32) 0 128 = true.
Proof. vm_compute. reflexivity. Qed.

Lemma xoshiro_4x64_annihilates :
  annihilates 64 4 (Fast.xoshiro4 (Z.ones 64) 17 (45 mod 64) (64 - 45 mod 64))
    (characteristic_polynomial xoshiro_4x64) 0 256 = true.
Proof. vm_compute. reflexivity. Qed.

Lemma xoshiro_8x64_annihilates :
  annihilates 64 8 (Fast.xoshiro8 (Z.ones 64) 11 (21 mod 64) (64 - 21 mod 64))
    (characteristic_polynomial xoshiro_8x64) 0 512 = true.
Proof. vm_compute. reflexivity. Qed.

Lemma xoroshiro_2x32_annihilates :
  annihilates 32 2
    (Fast.xoroshiro (Z.ones 32) (26 mod 32) (32 - 26 mod 32) 9 (13 mod 32) (32 - 13 mod 32))
    (characteristic_polynomial xoroshiro_2x32) 0 64 = true.
Proof. vm_compute. reflexivity. Qed.

Lemma xoroshiro_2x64_annihilates :
  annihilates 64 2
    (Fast.xoroshiro (Z.ones 64) (24 mod 64) (64 - 24 mod 64) 16 (37 mod 64) (64 - 37 mod 64))
    (characteristic_polynomial xoroshiro_2x64) 0 128 = true.
Proof. vm_compute. reflexivity. Qed.

Lemma xoroshiro_2x64b_annihilates :
  annihilates 64 2
    (Fast.xoroshiro (Z.ones 64) (49 mod 64) (64 - 49 mod 64) 21 (28 mod 64) (64 - 28 mod 64))
    (characteristic_polynomial xoroshiro_2x64b) 0 128 = true.
Proof. vm_compute. reflexivity. Qed.

Lemma xoroshiro_16x64_annihilates :
  annihilates 64 16
    (Fast.xoroshiro (Z.ones 64) (25 mod 64) (64 - 25 mod 64) 27 (36 mod 64) (64 - 36 mod 64))
    (characteristic_polynomial xoroshiro_16x64) 896 128 = true.
Proof. vm_compute. reflexivity. Qed.

Lemma xoroshiro_16x64_shifts_down :
  shifts_down 64 16
    (Fast.xoroshiro (Z.ones 64) (25 mod 64) (64 - 25 mod 64) 27 (36 mod 64) (64 - 36 mod 64))
    0 896 = true.
Proof. vm_compute. reflexivity. Qed.

(** * The state types that can jump *)

Ltac table_words :=
  split; [reflexivity | repeat constructor; unfold Word.in_range; lia].

Lemma xoshiro_4x32_jumpable (p : list Z) :
  characteristic_coefficients xoshiro_4x32 = ok p -> jumpable xoshiro_4x32 p.
Proof.
  intros E.
  apply (jumpable_intro xoshiro_4x32 (Logical.xoshiro4 32 9 11) uint32_t p 32 4 128);
    [ | reflexivity | exact E | reflexivity | reflexivity | reflexivity | | reflexivity | discriminate | ].
  - exact (xoshiro4_refines uint32_t 9 11 ltac:(lia)).
  - injection E as <-. table_words.
  - intros k Hk. pose proof xoshiro_4x32_annihilates as H.
    rewrite (annihilates_ext 32 4 _ (Logical.xoshiro4 32 9 11)) in H
      by (intros x; apply (fast_xoshiro4 32 9 11); [lia | discriminate]).
    apply (annihilates_spec 32 4 _ _ 0 128 k H). lia.
Qed.

Lemma xoshiro_4x64_jumpable (p : list Z) :
  characteristic_coefficients xoshiro_4x64 = ok p -> jumpable xoshiro_4x64 p.
Proof.
  intros E.
  apply (jumpable_intro xoshiro_4x64 (Logical.xoshiro4 64 17 45) uint64_t p 64 4 256);
    [ | reflexivity | exact E | reflexivity | reflexivity | reflexivity | | reflexivity | discriminate | ].
  - exact (xoshiro4_refines uint64_t 17 45 ltac:(lia)).
  - injection E as <-. table_words.
  - intros k Hk. pose proof xoshiro_4x64_annihilates as H.
    rewrite (annihilates_ext 64 4 _ (Logical.xoshiro4 64 17 45)) in H
      by (intros x; apply (fast_xoshiro4 64 17 45); [lia | discriminate]).
    apply (annihilates_spec 64 4 _ _ 0 256 k H). lia.
Qed.

Lemma xoshiro_8x64_jumpable (p : list Z) :
  characteristic_coefficients xoshiro_8x64 = ok p -> jumpable xoshiro_8x64 p.
Proof.
  intros E.
  apply (jumpable_intro xoshiro_8x64 (Logical.xoshiro8 64 11 21) uint64_t p 64 8 512);
    [ | reflexivity | exact E | reflexivity | reflexivity | reflexivity | | reflexivity | discriminate | ].
  - exact (xoshiro8_refines uint64_t 11 21 ltac:(lia)).
  - injection E as <-. table_words.
  - intros k Hk. pose proof xoshiro_8x64_annihilates as H.
    rewrite (annihilates_ext 64 8 _ (Logical.xoshiro8 64 11 21)) in H
      by (intros x; apply (fast_xoshiro8 64 11 21); [lia | discriminate]).
    apply (annihilates_spec 64 8 _ _ 0 512 k H). lia.
Qed.

Lemma xoroshiro_2x32_jumpable (p : list Z) :
  characteristic_coefficients xoroshiro_2x32 = ok p -> jumpable xoroshiro_2x32 p.
Proof.
  intros E.
  apply (jumpable_intro xoroshiro_2x32 (Logical.xoroshiro 32 26 9 13) uint32_t p 32 2 64);
    [ | reflexivity | exact E | reflexivity | reflexivity | reflexivity | | reflexivity | discriminate | ].
  - exact (xoroshiro_refines 2 uint32_t 26 9 13 ltac:(lia) ltac:(lia)).
  - injection E as <-. table_words.
  - intros k Hk. pose proof xoroshiro_2x32_annihilates as H.
    rewrite (annihilates_ext 32 2 _ (Logical.xoroshiro 32 26 9 13)) in H
      by (intros x; apply (fast_xoroshiro 32 26 9 13); [lia | discriminate | discriminate]).
    apply (annihilates_spec 32 2 _ _ 0 64 k H). lia.
Qed.

Lemma xoroshiro_2x64_jumpable (p : list Z) :
  characteristic_coefficients xoroshiro_2x64 = ok p -> jumpable xoroshiro_2x64 p.
Proof.
  intros E.
  apply (jumpable_intro xoroshiro_2x64 (Logical.xoroshiro 64 24 16 37) uint64_t p 64 2 128);
    [ | reflexivity | exact E | reflexivity | reflexivity | reflexivity | | reflexivity | discriminate | ].
  - exact (xoroshiro_refines 2 uint64_t 24 16 37 ltac:(lia) ltac:(lia)).
  - injection E as <-. table_words.
  - intros k Hk. pose proof xoroshiro_2x64_annihilates as H.
    rewrite (annihilates_ext 64 2 _ (Logical.xoroshiro 64 24 16 37)) in H
      by (intros x; apply (fast_xoroshiro 64 24 16 37); [lia | discriminate | discriminate]).
    apply (annihilates_spec 64 2 _ _ 0 128 k H). lia.
Qed.

Lemma xoroshiro_2x64b_jumpable (p : list Z) :
  characteristic_coefficients xoroshiro_2x64b = ok p -> jumpable xoroshiro_2x64b p.
Proof.
  intros E.
  apply (jumpable_intro xoroshiro_2x64b (Logical.xoroshiro 64 49 21 28) uint64_t p 64 2 128);
    [ | reflexivity | exact E | reflexivity | reflexivity | reflexivity | | reflexivity | discriminate | ].
  - exact (xoroshiro_refines 2 uint64_t 49 21 28 ltac:(lia) ltac:(lia)).
  - injection E as <-. table_words.
  - intros k Hk. pose proof xoroshiro_2x64b_annihilates as H.
    rewrite (annihilates_ext 64 2 _ (Logical.xoroshiro 64 49 21 28)) in H
      by (intros x; apply (fast_xoroshiro 64 49 21 28); [lia | discriminate | discriminate]).
    apply (annihilates_spec 64 2 _ _ 0 128 k H). lia.
Qed.

Lemma xoroshiro_16x64_jumpable (p : list Z) :
  characteristic_coefficients xoroshiro_16x64 = ok p -> jumpable xoroshiro_16x64 p.
Proof.
  intros E.
  pose proof (xoroshiro_refines 16 uint64_t 25 27 36 ltac:(lia) ltac:(lia)) as HS.
  apply (jumpable_intro xoroshiro_16x64 (Logical.xoroshiro 64 25 27 36) uint64_t p 64 16 1024);
    [ exact HS | reflexivity | exact E | reflexivity | reflexivity | reflexivity | | reflexivity | discriminate | ].
  - injection E as <-. table_words.
  - pose proof xoroshiro_16x64_annihilates as H.
    pose proof xoroshiro_16x64_shifts_down as D.
    rewrite (annihilates_ext 64 16 _ (Logical.xoroshiro 64 25 27 36)) in H
      by (intros x; apply (fast_xoroshiro 64 25 27 36); [lia | discriminate | discriminate]).
    rewrite (shifts_down_ext 64 16 _ (Logical.xoroshiro 64 25 27 36)) in D
      by (intros x; apply (fast_xoroshiro 64 25 27 36); [lia | discriminate | discriminate]).
    apply (annihilates_shift (xoroshiro 16 uint64_t 25 27 36) _ HS 64 16 1024 _ 896);
      [ reflexivity | reflexivity | reflexivity | exact H | exact D | lia ].
Qed.

(** * The tables, entry by entry *)

Ltac table_cases :=
  repeat match goal with
         | |- context [(?a =? ?b)%nat] => destruct (Nat.eqb_spec a b); subst
         | |- context [?a =? ?b] => destruct (Z.eqb_spec a b); subst
         end;
  cbn [andb].

Lemma xoshiro_table (N : nat) (T : word_type) (A B : Z) :
  match Xoshiro.characteristic_coefficients N T A B with
  | ok p =>
      length p = N /\
      ((T = uint32_t /\ N = 4%nat /\ A = 9 /\ B = 11 /\
        p = [0xde18fc01; 0x1b489db6; 0x6254b1; 0xfc65a2]) \/
       (T = uint64_t /\ N = 4%nat /\ A = 17 /\ B = 45 /\
        p = [0x9d116f2bb0f0f001; 0x280002bcefd1a5e; 0x4b4edcf26259f85; 0x3c03c3f3ecb19]) \/
       (T = uint64_t /\ N = 8%nat /\ A = 11 /\ B = 21 /\
        p = [0xcf3cff0c00000001; 0x7fdc78d886f00c63; 0xf05e63fca6d7b781; 0x7a67058e7bbab6f0;
             0xf11eef832e32518f; 0x51ba7c47edc758ad; 0x8f2d27268ce4b20b; 0x500055d8b77f]))
  | invalid_argument _ =>
      ~ (T = uint32_t /\ N = 4%nat /\ A = 9 /\ B = 11) /\
      ~ (T = uint64_t /\ N = 4%nat /\ A = 17 /\ B = 45) /\
      ~ (T = uint64_t /\ N = 8%nat /\ A = 11 /\ B = 21)
  end.
Proof.
  unfold Xoshiro.characteristic_coefficients.
  destruct T; cbn [word_type_eqb andb]; table_cases;
    try (split; [reflexivity|]; intuition congruence);
    intuition (try congruence; try lia).
Qed.

Lemma xoroshiro_table (N : nat) (T : word_type) (A B C : Z) :
  match Xoroshiro.characteristic_coefficients N T A B C with
  | ok p =>
      length p = N /\
      ((T = uint32_t /\ N = 2%nat /\ A = 26 /\ B = 9 /\ C = 13 /\
        p = [0x6e2286c1; 0x53be9da]) \/
       (T = uint64_t /\ N = 2%nat /\ A = 24 /\ B = 16 /\ C = 37 /\
        p = [0x95b8f76579aa001; 0x8828e513b43d5]) \/
       (T = uint64_t /\ N = 2%nat /\ A = 49 /\ B = 21 /\ C = 28 /\
        p = [0x8dae70779760b081; 0x31bcf2f855d6e5]) \/
       (T = uint64_t /\ N = 16%nat /\ A = 25 /\ B = 27 /\ C = 36 /\
        p = [0x5cfeb8cc48ddb211; 0xb73e379d035a06dd; 0x17d5100a20a0350e; 0x7550223f68f98cac;
             0x29d373b5c5ed3459; 0x3689b412ef70de48; 0xa1d3b6ee079a7cc6; 0x9bf0b669abd100f8;
             0x955c84e105f60997; 0x6ca140c61889cddd; 0xabaf68c5fc3a0e4a; 0xa46134526b83adc5;
             0x710704d05683d63;  0x580d080b44b606a2; 0x8040a0580158a1;   0x800081]))
  | invalid_argument _ =>
      ~ (T = uint32_t /\ N = 2%nat /\ A = 26 /\ B = 9 /\ C = 13) /\
      ~ (T = uint64_t /\ N = 2%nat /\ A = 24 /\ B = 16 /\ C = 37) /\
      ~ (T = uint64_t /\ N = 2%nat /\ A = 49 /\ B = 21 /\ C = 28) /\
      ~ (T = uint64_t /\ N = 16%nat /\ A = 25 /\ B = 27 /\ C = 36)
  end.
Proof.
  unfold Xoroshiro.characteristic_coefficients.
  destruct T; cbn [word_type_eqb andb]; table_cases;
    try (split; [reflexivity|]; intuition congruence);
    intuition (try congruence; try lia).
Qed.

(** Every state type with a table entry is one of the seven, and can jump. *)
Lemma state_type_jumpable (St : State) (p : list Z) :
  state_type St -> characteristic_coefficients St = ok p -> jumpable St p.
Proof.
  intros [N T A B St' E | N T A B C] Ep.
  - unfold xoshiro in E.
    assert (HN : (N = 4 \/ N = 8)%nat).
    { do 9 (destruct N as [|N]; try discriminate E; auto). }
    destruct HN; subst N; cbn in E; injection E as <-;
      cbn [characteristic_coefficients xoshiro_with] in Ep;
      match type of Ep with
      | Xoshiro.characteristic_coefficients ?n _ _ _ = _ =>
          pose proof (xoshiro_table n T A B) as H
      end; rewrite Ep in H;
      destruct H as [_ [H | [H | H]]]; destruct H as (-> & HN & -> & -> & _);
      try discriminate HN.
    + exact (xoshiro_4x32_jumpable p Ep).
    + exact (xoshiro_4x64_jumpable p Ep).
    + exact (xoshiro_8x64_jumpable p Ep).
  - cbn [characteristic_coefficients xoroshiro] in Ep.
    pose proof (xoroshiro_table N T A B C) as H; rewrite Ep in H.
    destruct H as [_ [H | [H | [H | H]]]]; destruct H as (-> & -> & -> & -> & -> & _).
    + exact (xoroshiro_2x32_jumpable p Ep).
    + exact (xoroshiro_2x64_jumpable p Ep).
    + exact (xoroshiro_2x64b_jumpable p Ep).
    + exact (xoroshiro_16x64_jumpable p Ep).
Qed.

(** What a jump does on a state type that can jump. *)
Lemma jumpable_steps (St : State) (p : list Z) (st : carrier St) (J : Z) (J_is_pow2 : bool) :
  jumpable St p -> wf St st -> 0 <= J ->
  wf St (jump St st (Internal.reduce (word_digits St) (word_count St) p J J_is_pow2)) /\
  get_state St (jump St st (Internal.reduce (word_digits St) (word_count St) p J J_is_pow2))
  = get_state St (Nat.iter (Z.to_nat (if J_is_pow2 then 2 ^ J else J)) (step St) st).
Proof.
  intros (F & T & HS & HT & Hp & H64 & _ & Hann) Hst HJ.
  exact (jump_reduce_steps St F T p HS HT Hp H64 Hann st J J_is_pow2 Hst HJ).
Qed.

(** * The claims *)

(** C2.  For the coefficient array [p] of [c(x) = x^n + p(x)],
    [n = N * digits], and every [J] of a [std::size_t],
    [internal::reduce(p, J, J_is_pow2)] returns [N] words that hold the
    remainder of [x^J], or of [x^(2^J)] when [J_is_pow2] is set, modulo
    [c(x)]: a polynomial of degree below [n], and the only remainder there
    is. *)
Theorem reduce_is_remainder (T : word_type) (N : nat) (p : list Z) (J : Z) (J_is_pow2 : bool) :
  (1 <= N)%nat -> words_ok (digits T) N p -> Internal.n (digits T) N < 2 ^ 64 ->
  0 <= J < 2 ^ 64 ->
  let n := Internal.n (digits T) N in
  let c := 2 ^ n + pack (digits T) p in
  let e := if J_is_pow2 then 2 ^ J else J in
  let r := Internal.reduce (digits T) N p J J_is_pow2 in
  words_ok (digits T) N r /\
  GF2.is_remainder n c (2 ^ e) (pack (digits T) r) /\
  (forall r', GF2.is_remainder n c (2 ^ e) r' -> r' = pack (digits T) r).
Proof.
  intros HN Hp Hn HJ n c e r. pose proof (digits_pos T) as HW.
  destruct (reduce_xpow T N p HN Hp Hn J J_is_pow2 (proj1 HJ)) as [Hr Hpk].
  fold r in Hr, Hpk. fold e in Hpk. fold n in Hpk.
  assert (He : 0 <= e) by (unfold e; destruct J_is_pow2; [apply Z.pow_nonneg|]; lia).
  assert (Hn0 : 0 < n) by (unfold n, Internal.n; nia).
  pose proof (pack_words_range _ _ _ (Z.lt_le_incl _ _ HW) Hp) as HP.
  fold (Internal.n (digits T) N) in HP. fold n in HP.
  assert (Hrem : GF2.is_remainder n c (2 ^ e) (pack (digits T) r)).
  { rewrite Hpk. rewrite <- (Z2Nat.id e He) at 1. apply xpow_remainder; auto. }
  split; [exact Hr|]. split; [exact Hrem|].
  intros r' Hr'. apply (remainder_unique n c (2 ^ e)); auto; try lia.
  unfold c. replace (n + 1) with (Z.succ n) by lia. rewrite Z.pow_succ_r by lia. lia.
Qed.

Lemma reduce_is_remainder_witness :
  let n := Internal.n (digits uint32_t) 4 in
  let c := 2 ^ n + pack (digits uint32_t) [0xde18fc01; 0x1b489db6; 0x6254b1; 0xfc65a2] in
  let e := 2 ^ 100 in
  let r := Internal.reduce (digits uint32_t) 4
             [0xde18fc01; 0x1b489db6; 0x6254b1; 0xfc65a2] 100 true in
  words_ok (digits uint32_t) 4 r /\
  GF2.is_remainder n c (2 ^ e) (pack (digits uint32_t) r) /\
  (forall r', GF2.is_remainder n c (2 ^ e) r' -> r' = pack (digits uint32_t) r).
Proof.
  apply (reduce_is_remainder uint32_t 4 [0xde18fc01; 0x1b489db6; 0x6254b1; 0xfc65a2] 100 true).
  - lia.
  - split; [reflexivity | repeat constructor; unfold Word.in_range; simpl; lia].
  - reflexivity.
  - lia.
Defined.

(** C3.  For every word count [N >= 2] and every seed, the array-shift
    [simple_step] and the ring-buffer [clever_step], where logical word [i]
    is read from the slot [(i + m_final + 1) mod N], go through the same
    logical states: after [k] steps of either kind from the same seeded
    state, [get_state] and [operator[]] give the same [N] words, the words
    of the transition applied [k] times to the seed. *)
Theorem simple_and_clever_agree (N : nat) (W A B C : Z) (words : list Z) (s0 : Xoroshiro.t)
  (k : nat) :
  (2 <= N)%nat -> length words = N -> length (Xoroshiro.m_state s0) = N ->
  let seeded := Xoroshiro.seed N words s0 in
  let s := Nat.iter k (Xoroshiro.simple_step N W A B C) seeded in
  let c := Nat.iter k (Xoroshiro.clever_step N W A B C) seeded in
  Xoroshiro.get_state N s = Nat.iter k (Logical.xoroshiro W A B C) words /\
  Xoroshiro.get_state N c = Xoroshiro.get_state N s /\
  (forall i, (i < N)%nat -> Xoroshiro.index N c i = Xoroshiro.index N s i).
Proof.
  intros HN Hw Hs seeded s c.
  set (F := Logical.xoroshiro W A B C).
  assert (Hseed : Xoroshiro.seed N words s0 = Xoroshiro.mk words (N - 1)).
  { unfold Xoroshiro.seed. rewrite copy_into_full by lia. reflexivity. }
  assert (HF : forall j, length (Nat.iter j F words) = N).
  { induction j; [exact Hw|]. rewrite Nat.iter_succ.
    apply (logical_xoroshiro_get N W A B C HN); auto. }
  assert (Hsimple : forall j,
            Nat.iter j (Xoroshiro.simple_step N W A B C) seeded
            = Xoroshiro.mk (Nat.iter j F words) (N - 1)).
  { induction j; [exact Hseed|]. rewrite !Nat.iter_succ, IHj.
    destruct (simple_step_logical N W A B C HN (Xoroshiro.mk (Nat.iter j F words) (N - 1)))
      as [E1 E2]; auto.
    { cbn [Xoroshiro.m_state]. apply HF. }
    cbn [Xoroshiro.m_state Xoroshiro.m_final] in *.
    destruct (Xoroshiro.simple_step N W A B C _) as [m f].
    cbn [Xoroshiro.m_state Xoroshiro.m_final] in *. subst. reflexivity. }
  assert (Hclever : forall j,
            length (Xoroshiro.m_state
                      (Nat.iter j (Xoroshiro.clever_step N W A B C) seeded)) = N /\
            (Xoroshiro.m_final
               (Nat.iter j (Xoroshiro.clever_step N W A B C) seeded) < N)%nat /\
            Xoroshiro.get_state N (Nat.iter j (Xoroshiro.clever_step N W A B C) seeded)
            = Nat.iter j F words).
  { induction j.
    - cbn [Nat.iter nat_rect]. unfold seeded. rewrite Hseed.
      cbn [Xoroshiro.m_state Xoroshiro.m_final].
      split; [exact Hw|]. split; [lia|].
      apply (get_state_in_place N HN); auto.
    - rewrite !Nat.iter_succ. destruct IHj as (L & M & G).
      destruct (clever_step_logical N W A B C HN _ L M) as (L' & M' & G').
      split; [exact L'|]. split; [exact M'|]. rewrite G', G. reflexivity. }
  assert (Hs' : Xoroshiro.get_state N s = Nat.iter k F words).
  { unfold s. rewrite Hsimple. apply (get_state_in_place N HN); auto.
    cbn [Xoroshiro.m_state]. apply HF. }
  assert (Hc' : Xoroshiro.get_state N c = Xoroshiro.get_state N s).
  { rewrite Hs'. apply Hclever. }
  split; [exact Hs'|]. split; [exact Hc'|].
  intros i Hi.
  assert (E : forall x, Xoroshiro.index N x i = get (Xoroshiro.get_state N x) i).
  { intros x. rewrite get_get_state by auto. reflexivity. }
  rewrite !E, Hc'. reflexivity.
Qed.

Lemma simple_and_clever_agree_witness :
  let seeded := Xoroshiro.seed 16 (map Z.of_nat (seq 1 16)) (Xoroshiro.init 16) in
  let s := Nat.iter 40 (Xoroshiro.simple_step 16 64 25 27 36) seeded in
  let c := Nat.iter 40 (Xoroshiro.clever_step 16 64 25 27 36) seeded in
  Xoroshiro.get_state 16 s
  = Nat.iter 40 (Logical.xoroshiro 64 25 27 36) (map Z.of_nat (seq 1 16)) /\
  Xoroshiro.get_state 16 c = Xoroshiro.get_state 16 s /\
  (forall i, (i < 16)%nat -> Xoroshiro.index 16 c i = Xoroshiro.index 16 s i).
Proof.
  apply (simple_and_clever_agree 16 64 25 27 36 (map Z.of_nat (seq 1 16))
           (Xoroshiro.init 16) 40).
  - lia.
  - reflexivity.
  - reflexivity.
Defined.

(** C9.  [characteristic_coefficients] throws exactly when the word type,
    the word count and the shift parameters have no entry in the table of
    its class; for each of the seven shipped parameterizations it gives the
    [N] stored words, and whatever it gives for any parameters is one of
    those entries. *)
Theorem characteristic_coefficients_table :
  (forall N T A B,
     ((exists what, Xoshiro.characteristic_coefficients N T A B = invalid_argument what) <->
      ~ ((T = uint32_t /\ N = 4%nat /\ A = 9 /\ B = 11) \/
         (T = uint64_t /\ N = 4%nat /\ A = 17 /\ B = 45) \/
         (T = uint64_t /\ N = 8%nat /\ A = 11 /\ B = 21))) /\
     (forall p, Xoshiro.characteristic_coefficients N T A B = ok p -> length p = N)) /\
  Xoshiro.characteristic_coefficients 4 uint32_t 9 11
  = ok [0xde18fc01; 0x1b489db6; 0x6254b1; 0xfc65a2] /\
  Xoshiro.characteristic_coefficients 4 uint64_t 17 45
  = ok [0x9d116f2bb0f0f001; 0x280002bcefd1a5e; 0x4b4edcf26259f85; 0x3c03c3f3ecb19] /\
  Xoshiro.characteristic_coefficients 8 uint64_t 11 21
  = ok [0xcf3cff0c00000001; 0x7fdc78d886f00c63; 0xf05e63fca6d7b781; 0x7a67058e7bbab6f0;
        0xf11eef832e32518f; 0x51ba7c47edc758ad; 0x8f2d27268ce4b20b; 0x500055d8b77f] /\
  (forall N T A B C,
     ((exists what, Xoroshiro.characteristic_coefficients N T A B C = invalid_argument what) <->
      ~ ((T = uint32_t /\ N = 2%nat /\ A = 26 /\ B = 9 /\ C = 13) \/
         (T = uint64_t /\ N = 2%nat /\ A = 24 /\ B = 16 /\ C = 37) \/
         (T = uint64_t /\ N = 2%nat /\ A = 49 /\ B = 21 /\ C = 28) \/
         (T = uint64_t /\ N = 16%nat /\ A = 25 /\ B = 27 /\ C = 36))) /\
     (forall p, Xoroshiro.characteristic_coefficients N T A B C = ok p -> length p = N)) /\
  Xoroshiro.characteristic_coefficients 2 uint32_t 26 9 13
  = ok [0x6e2286c1; 0x53be9da] /\
  Xoroshiro.characteristic_coefficients 2 uint64_t 24 16 37
  = ok [0x95b8f76579aa001; 0x8828e513b43d5] /\
  Xoroshiro.characteristic_coefficients 2 uint64_t 49 21 28
  = ok [0x8dae70779760b081; 0x31bcf2f855d6e5] /\
  Xoroshiro.characteristic_coefficients 16 uint64_t 25 27 36
  = ok [0x5cfeb8cc48ddb211; 0xb73e379d035a06dd; 0x17d5100a20a0350e; 0x7550223f68f98cac;
        0x29d373b5c5ed3459; 0x3689b412ef70de48; 0xa1d3b6ee079a7cc6; 0x9bf0b669abd100f8;
        0x955c84e105f60997; 0x6ca140c61889cddd; 0xabaf68c5fc3a0e4a; 0xa46134526b83adc5;
        0x710704d05683d63;  0x580d080b44b606a2; 0x8040a0580158a1;   0x800081].
Proof.
  split; [|split; [reflexivity|]; split; [reflexivity|]; split; [reflexivity|];
           split; [|repeat split; reflexivity]].
  - intros N T A B. pose proof (xoshiro_table N T A B) as H.
    destruct (Xoshiro.characteristic_coefficients N T A B) as [p|what].
    + destruct H as [L H]. split.
      * split; [intros [w Hw]; discriminate Hw|]. intros Hn. exfalso. apply Hn. tauto.
      * intros q Hq. injection Hq as <-. exact L.
    + split.
      * split; [intros _; tauto | intros _; exists what; reflexivity].
      * intros q Hq. discriminate Hq.
  - intros N T A B C. pose proof (xoroshiro_table N T A B C) as H.
    destruct (Xoroshiro.characteristic_coefficients N T A B C) as [p|what].
    + destruct H as [L H]. split.
      * split; [intros [w Hw]; discriminate Hw|]. intros Hn. exfalso. apply Hn. tauto.
      * intros q Hq. injection Hq as <-. exact L.
    + split.
      * split; [intros _; tauto | intros _; exists what; reflexivity].
      * intros q Hq. discriminate Hq.
Qed.

Lemma get_state_default (N : nat) (s : Xoroshiro.t) :
  (1 <= N)%nat -> length (Xoroshiro.m_state s) = N -> Xoroshiro.m_final s = (N - 1)%nat ->
  Xoroshiro.get_state N s = Xoroshiro.m_state s.
Proof.
  intros HN Hl Hf. apply list_get_ext.
  - rewrite length_get_state. auto.
  - intros i Hi. rewrite length_get_state in Hi. rewrite get_get_state by auto.
    rewrite Hf. f_equal.
    replace (i + (N - 1) + 1)%nat with (i + 1 * N)%nat by lia.
    rewrite Nat.Div0.mod_add. apply Nat.mod_small. lia.
Qed.

(** C10.  A default-constructed xoshiro or xoroshiro state holds the words
    [1, 0, ..., 0]; for xoroshiro [m_final] starts at [N - 1], so that the
    logical order of the words is the physical one.  The words are not all
    zero. *)
Theorem default_state_is_one (N : nat) :
  (1 <= N)%nat ->
  Xoshiro.m_state_init N = 1 :: repeat 0 (N - 1) /\
  Xoshiro.get_state (Xoshiro.m_state_init N) = 1 :: repeat 0 (N - 1) /\
  not_all_zero (Xoshiro.get_state (Xoshiro.m_state_init N)) /\
  Xoroshiro.m_state (Xoroshiro.init N) = 1 :: repeat 0 (N - 1) /\
  Xoroshiro.m_final (Xoroshiro.init N) = (N - 1)%nat /\
  Xoroshiro.get_state N (Xoroshiro.init N) = Xoroshiro.m_state (Xoroshiro.init N) /\
  (forall i, (i < N)%nat ->
     Xoroshiro.index N (Xoroshiro.init N) i = get (Xoroshiro.m_state (Xoroshiro.init N)) i) /\
  not_all_zero (Xoroshiro.get_state N (Xoroshiro.init N)).
Proof.
  intros HN.
  assert (E : aggregate_init N [1] = 1 :: repeat 0 (N - 1)) by reflexivity.
  assert (G : Xoroshiro.get_state N (Xoroshiro.init N) = Xoroshiro.m_state (Xoroshiro.init N)).
  { apply get_state_default; auto. unfold Xoroshiro.init. cbn [Xoroshiro.m_state].
    rewrite E. cbn [length]. rewrite repeat_length. lia. }
  split; [exact E|]. split; [exact E|].
  split; [exists 0%nat; unfold Xoshiro.get_state, Xoshiro.m_state_init; rewrite E;
          cbn [get nth]; lia|].
  split; [exact E|]. split; [reflexivity|]. split; [exact G|].
  split.
  - intros i Hi. rewrite <- G. rewrite get_get_state by auto. reflexivity.
  - exists 0%nat. rewrite G. unfold Xoroshiro.init. cbn [Xoroshiro.m_state].
    rewrite E. cbn [get nth]. lia.
Qed.

Lemma default_state_is_one_witness :
  Xoshiro.m_state_init 4 = 1 :: repeat 0 (4 - 1) /\
  Xoshiro.get_state (Xoshiro.m_state_init 4) = 1 :: repeat 0 (4 - 1) /\
  not_all_zero (Xoshiro.get_state (Xoshiro.m_state_init 4)) /\
  Xoroshiro.m_state (Xoroshiro.init 4) = 1 :: repeat 0 (4 - 1) /\
  Xoroshiro.m_final (Xoroshiro.init 4) = (4 - 1)%nat /\
  Xoroshiro.get_state 4 (Xoroshiro.init 4) = Xoroshiro.m_state (Xoroshiro.init 4) /\
  (forall i, (i < 4)%nat ->
     Xoroshiro.index 4 (Xoroshiro.init 4) i = get (Xoroshiro.m_state (Xoroshiro.init 4)) i) /\
  not_all_zero (Xoroshiro.get_state 4 (Xoroshiro.init 4)).
Proof. apply (default_state_is_one 4). lia. Defined.

(** * Jumps of the state types with a table entry *)

Lemma jump_coefficients_ok (St : State) (p : list Z) (J : Z) (b : bool) :
  characteristic_coefficients St = ok p ->
  jump_coefficients St J b = ok (Internal.reduce (word_digits St) (word_count St) p J b).
Proof. intros E. unfold jump_coefficients. rewrite E. reflexivity. Qed.

Lemma jumpable_reduce_ok (St : State) (p : list Z) (J : Z) (b : bool) :
  jumpable St p -> 0 <= J ->
  words_ok (word_digits St) (word_count St)
    (Internal.reduce (word_digits St) (word_count St) p J b).
Proof.
  intros (F & T & HS & HT & Hp & H64 & _) HJ. unfold bit_count in H64. rewrite HT in *.
  exact (proj1 (reduce_xpow T (word_count St) p (refines_count St F HS) Hp H64 J b HJ)).
Qed.

(** The logical words after a step, and after a jump, depend on the
    logical words before only. *)
Lemma step_congruence (St : State) (p : list Z) (a b : carrier St) :
  jumpable St p -> wf St a -> wf St b ->
  get_state St a = get_state St b ->
  get_state St (step St a) = get_state St (step St b).
Proof.
  intros (F & T & HS & _) Ha Hb E.
  rewrite !(refines_step St F HS) by auto. rewrite E. reflexivity.
Qed.

Lemma iter_step_congruence (St : State) (p : list Z) (a b : carrier St) (k : nat) :
  jumpable St p -> wf St a -> wf St b ->
  get_state St a = get_state St b ->
  get_state St (Nat.iter k (step St) a) = get_state St (Nat.iter k (step St) b).
Proof.
  intros (F & T & HS & _) Ha Hb E.
  rewrite (proj2 (iter_step St F HS k a Ha)), (proj2 (iter_step St F HS k b Hb)), E.
  reflexivity.
Qed.

Lemma iter_step_wf (St : State) (p : list Z) (a : carrier St) (k : nat) :
  jumpable St p -> wf St a -> wf St (Nat.iter k (step St) a).
Proof. intros (F & T & HS & _) Ha. apply (iter_step St F HS k a Ha). Qed.

Lemma iter_plus {A : Type} (f : A -> A) (n m : nat) (x : A) :
  Nat.iter (n + m) f x = Nat.iter n f (Nat.iter m f x).
Proof. induction n; [reflexivity|]. rewrite Nat.add_succ_l, !Nat.iter_succ, IHn. reflexivity. Qed.

(** Two jumps by [2^J] are one jump by [2^(J + 1)], on the logical words. *)
Lemma jump_twice (St : State) (p : list Z) (st : carrier St) (J : Z) :
  jumpable St p -> wf St st -> 0 <= J ->
  let r := Internal.reduce (word_digits St) (word_count St) p J true in
  let r2 := Internal.reduce (word_digits St) (word_count St) p (J + 1) true in
  get_state St (jump St (jump St st r) r) = get_state St (jump St st r2).
Proof.
  intros HJp Hst HJ r r2.
  destruct (jumpable_steps St p st J true HJp Hst HJ) as [W1 E1]. fold r in W1, E1.
  destruct (jumpable_steps St p (jump St st r) J true HJp W1 HJ) as [W2 E2].
  fold r in W2, E2.
  destruct (jumpable_steps St p st (J + 1) true HJp Hst ltac:(lia)) as [W3 E3].
  fold r2 in W3, E3.
  rewrite E2, E3.
  rewrite (iter_step_congruence St p _ (Nat.iter (Z.to_nat (2 ^ J)) (step St) st)); auto.
  - rewrite <- iter_plus. do 2 f_equal. rewrite Z.pow_add_r by lia. change (2 ^ 1) with 2.
    assert (0 < 2 ^ J) by (apply Z.pow_pos_nonneg; lia). lia.
  - apply (iter_step_wf St p); auto.
Qed.

(** The state that a jump leaves is the seeded one: its logical words say
    what it is. *)
Lemma jump_canonical (St : State) (p : list Z) :
  state_type St -> characteristic_coefficients St = ok p ->
  forall (a b : carrier St) (r r' : list Z),
  wf St (jump St a r) -> wf St (jump St b r') ->
  get_state St (jump St a r) = get_state St (jump St b r') ->
  jump St a r = jump St b r'.
Proof.
  intros [N T A B St' E | N T A B C] Ep.
  - unfold xoshiro in E.
    destruct (Xoshiro.step N (digits T) A B) as [f|]; [|discriminate E].
    injection E as <-. intros a b r r' _ _ H. exact H.
  - cbn [characteristic_coefficients xoroshiro] in Ep.
    pose proof (xoroshiro_table N T A B C) as H. rewrite Ep in H.
    assert (HN : (2 <= N)%nat) by (destruct H as [_ H]; intuition lia).
    clear H. intros a b r r'. unfold jump.
    destruct (jump_loop (xoroshiro N T A B C) r _) as [sum1 st1].
    destruct (jump_loop (xoroshiro N T A B C) r' _) as [sum2 st2].
    cbn [seed wf get_state xoroshiro].
    intros [[L1 _] _] [[L2 _] _] H.
    rewrite !(get_state_in_place N HN) in H by auto.
    unfold Xoroshiro.seed in *. cbn [Xoroshiro.m_state] in H. rewrite H. reflexivity.
Qed.

Lemma index_congruence (St : State) (p : list Z) (a b : carrier St) (w : nat) :
  jumpable St p -> wf St a -> wf St b ->
  get_state St a = get_state St b -> (w < word_count St)%nat ->
  index St a w = index St b w.
Proof.
  intros (F & T & HS & _) Ha Hb E Hw.
  rewrite !(refines_index St F HS) by auto. rewrite E. reflexivity.
Qed.

Lemma step_wf (St : State) (p : list Z) (a : carrier St) :
  jumpable St p -> wf St a -> wf St (step St a).
Proof. intros (F & T & HS & _) Ha. apply (refines_step_wf St F HS); auto. Qed.

Lemma wf_4x32_default : wf xoshiro_4x32 [1; 0; 0; 0].
Proof. split; [reflexivity | repeat constructor; unfold Word.in_range; simpl; lia]. Defined.

Lemma state_type_4x32 : state_type xoshiro_4x32.
Proof. apply (state_xoshiro 4 uint32_t 9 11). reflexivity. Defined.

(** C1.  For every state type with a table of characteristic coefficients,
    every state [st] and every jump size [J] of a [std::size_t],
    [jump_coefficients] does not throw, and [jump(state, coeffs)] leaves
    the state that [J] calls of [step] reach from [st], or [2^J] calls when
    [J_is_pow2] is set: the words that [get_state] and [operator[]] give
    are the same. *)
Theorem jump_is_J_steps (St : State) (p : list Z) (st : carrier St) (J : Z) (J_is_pow2 : bool) :
  state_type St -> characteristic_coefficients St = ok p -> wf St st ->
  0 <= J < 2 ^ 64 ->
  exists coeffs,
    jump_coefficients St J J_is_pow2 = ok coeffs /\
    wf St (jump St st coeffs) /\
    get_state St (jump St st coeffs)
    = get_state St (Nat.iter (Z.to_nat (if J_is_pow2 then 2 ^ J else J)) (step St) st) /\
    (forall w, (w < word_count St)%nat ->
       index St (jump St st coeffs) w
       = index St (Nat.iter (Z.to_nat (if J_is_pow2 then 2 ^ J else J)) (step St) st) w).
Proof.
  intros HT Ep Hst HJ. pose proof (state_type_jumpable St p HT Ep) as Hj.
  exists (Internal.reduce (word_digits St) (word_count St) p J J_is_pow2).
  destruct (jumpable_steps St p st J J_is_pow2 Hj Hst (proj1 HJ)) as [Hw E].
  split; [apply jump_coefficients_ok; exact Ep|].
  split; [exact Hw|]. split; [exact E|].
  intros w Hlt. apply (index_congruence St p); auto.
  apply (iter_step_wf St p); auto.
Qed.

Lemma jump_is_J_steps_witness :
  exists coeffs,
    jump_coefficients xoshiro_4x32 100 true = ok coeffs /\
    wf xoshiro_4x32 (jump xoshiro_4x32 [1; 0; 0; 0] coeffs) /\
    get_state xoshiro_4x32 (jump xoshiro_4x32 [1; 0; 0; 0] coeffs)
    = get_state xoshiro_4x32
        (Nat.iter (Z.to_nat (if true then 2 ^ 100 else 100)) (step xoshiro_4x32) [1; 0; 0; 0]) /\
    (forall w, (w < word_count xoshiro_4x32)%nat ->
       index xoshiro_4x32 (jump xoshiro_4x32 [1; 0; 0; 0] coeffs) w
       = index xoshiro_4x32
           (Nat.iter (Z.to_nat (if true then 2 ^ 100 else 100)) (step xoshiro_4x32)
              [1; 0; 0; 0]) w).
Proof.
  refine (jump_is_J_steps xoshiro_4x32 [0xde18fc01; 0x1b489db6; 0x6254b1; 0xfc65a2]
            [1; 0; 0; 0] 100 true state_type_4x32 eq_refl wf_4x32_default _).
  lia.
Defined.

(** C5, as the code has it.  The state after
    [jump(s, jump_coefficients(J))] is the state after [J] steps from [s],
    so one more step gives the state after [J + 1] steps: the values that
    the jumped generator and a generator that discarded [J] values return
    next are the same.  This holds for the literal [J] in 0, 1, 17 and
    1000000 and, with [2^J] in place of [J], for the power-of-two [J] in
    1, 10 and 32. *)
Theorem jump_then_step (St : State) (p : list Z) (st : carrier St) (J : Z) (J_is_pow2 : bool) :
  state_type St -> characteristic_coefficients St = ok p -> wf St st ->
  (J_is_pow2 = false /\ In J [0; 1; 17; 1000000]) \/ (J_is_pow2 = true /\ In J [1; 10; 32]) ->
  exists coeffs,
    jump_coefficients St J J_is_pow2 = ok coeffs /\
    get_state St (jump St st coeffs)
    = get_state St (Nat.iter (Z.to_nat (if J_is_pow2 then 2 ^ J else J)) (step St) st) /\
    get_state St (step St (jump St st coeffs))
    = get_state St (Nat.iter (S (Z.to_nat (if J_is_pow2 then 2 ^ J else J))) (step St) st).
Proof.
  intros HT Ep Hst HJ. pose proof (state_type_jumpable St p HT Ep) as Hj.
  assert (HJ0 : 0 <= J).
  { destruct HJ as [[_ H] | [_ H]]; cbn [In] in H; lia. }
  exists (Internal.reduce (word_digits St) (word_count St) p J J_is_pow2).
  destruct (jumpable_steps St p st J J_is_pow2 Hj Hst HJ0) as [Hw E].
  split; [apply jump_coefficients_ok; exact Ep|]. split; [exact E|].
  rewrite Nat.iter_succ. apply (step_congruence St p); auto.
  apply (iter_step_wf St p); auto.
Qed.

Lemma jump_then_step_witness :
  exists coeffs,
    jump_coefficients xoshiro_4x32 17 false = ok coeffs /\
    get_state xoshiro_4x32 (jump xoshiro_4x32 [1; 0; 0; 0] coeffs)
    = get_state xoshiro_4x32
        (Nat.iter (Z.to_nat (if false then 2 ^ 17 else 17)) (step xoshiro_4x32) [1; 0; 0; 0]) /\
    get_state xoshiro_4x32 (step xoshiro_4x32 (jump xoshiro_4x32 [1; 0; 0; 0] coeffs))
    = get_state xoshiro_4x32
        (Nat.iter (S (Z.to_nat (if false then 2 ^ 17 else 17))) (step xoshiro_4x32)
           [1; 0; 0; 0]).
Proof.
  refine (jump_then_step xoshiro_4x32 [0xde18fc01; 0x1b489db6; 0x6254b1; 0xfc65a2]
            [1; 0; 0; 0] 17 false state_type_4x32 eq_refl wf_4x32_default _).
  left. split; [reflexivity|]. right. right. left. reflexivity.
Defined.

(** C5, as the claim has it, fails: for [J = 0] the jump leaves the state
    where it is, and the step after it moves the default state of
    xoshiro 4x32 away from the state after no step. *)
Lemma jump_then_step_is_not_J_steps :
  jump_coefficients xoshiro_4x32 0 false = ok [1; 0; 0; 0] /\
  jump xoshiro_4x32 [1; 0; 0; 0] [1; 0; 0; 0] = [1; 0; 0; 0] /\
  Nat.iter (Z.to_nat 0) (step xoshiro_4x32) [1; 0; 0; 0] = [1; 0; 0; 0] /\
  get_state xoshiro_4x32 (step xoshiro_4x32 (jump xoshiro_4x32 [1; 0; 0; 0] [1; 0; 0; 0]))
  = [1; 1; 1; 0] /\
  get_state xoshiro_4x32 (step xoshiro_4x32 (jump xoshiro_4x32 [1; 0; 0; 0] [1; 0; 0; 0]))
  <> get_state xoshiro_4x32 (Nat.iter (Z.to_nat 0) (step xoshiro_4x32) [1; 0; 0; 0]).
Proof.
  split; [vm_compute; reflexivity|]. split; [vm_compute; reflexivity|].
  split; [vm_compute; reflexivity|]. split; [vm_compute; reflexivity|].
  vm_compute. intros H. discriminate H.
Qed.

Lemma reduce_pow2_zero (T : word_type) (N : nat) (p : list Z) :
  (1 <= N)%nat -> words_ok (digits T) N p -> Internal.n (digits T) N < 2 ^ 64 ->
  Internal.reduce (digits T) N p 0 true = 2 :: repeat 0 (N - 1).
Proof.
  intros HN Hp Hn. pose proof (digits_pos T) as HW.
  destruct (reduce_xpow T N p HN Hp Hn 0 true ltac:(lia)) as [Hr Hpk].
  assert (H2 : words_ok (digits T) N (2 :: repeat 0 (N - 1))).
  { destruct N as [|N]; [lia|]. apply words_ok_cons.
    - destruct T; unfold Word.in_range; simpl; lia.
    - replace (S N - 1)%nat with N by lia. apply words_ok_repeat. lia. }
  apply (pack_inj (digits T) N); auto.
  rewrite Hpk. change (Z.to_nat (2 ^ 0)) with 1%nat. cbn [Nat.iter nat_rect pack].
  rewrite pack_repeat_0.
  rewrite mulx_small; try lia.
  - unfold Internal.n. nia.
  - assert (8 <= Internal.n (digits T) N) by (unfold Internal.n; destruct T; simpl digits; nia).
    split; [lia|]. apply Z.pow_lt_mono_r with (a := 2) (b := 0) (c := Internal.n (digits T) N - 1);
      lia.
Qed.

(** C6.  For every coefficient array [p], [internal::reduce(p, 0, true)]
    returns the polynomial [x]: only the coefficient of [x^1] is set.  A
    jump by [2^0] steps is then one step: the state after
    [jump(s, jump_coefficients(0, true))] is the state after one call of
    [step] from [s]. *)
Theorem jump_by_pow2_zero (T : word_type) (N : nat) (p : list Z) (St : State) (q : list Z)
  (st : carrier St) :
  (1 <= N)%nat -> words_ok (digits T) N p -> Internal.n (digits T) N < 2 ^ 64 ->
  state_type St -> characteristic_coefficients St = ok q -> wf St st ->
  Internal.reduce (digits T) N p 0 true = 2 :: repeat 0 (N - 1) /\
  pack (digits T) (Internal.reduce (digits T) N p 0 true) = 2 ^ 1 /\
  jump_coefficients St 0 true = ok (2 :: repeat 0 (word_count St - 1)) /\
  get_state St (jump St st (2 :: repeat 0 (word_count St - 1))) = get_state St (step St st).
Proof.
  intros HN Hp Hn HT Eq Hst. pose proof (state_type_jumpable St q HT Eq) as Hj.
  pose proof (reduce_pow2_zero T N p HN Hp Hn) as E.
  split; [exact E|]. split.
  { rewrite E. cbn [pack]. rewrite pack_repeat_0. lia. }
  assert (E' : Internal.reduce (word_digits St) (word_count St) q 0 true
               = 2 :: repeat 0 (word_count St - 1)).
  { destruct Hj as (F & T' & HS & HT' & Hq & H64 & _). unfold bit_count in H64.
    rewrite HT' in *. apply reduce_pow2_zero; auto. apply (refines_count St F HS). }
  split.
  - rewrite (jump_coefficients_ok St q 0 true Eq), E'. reflexivity.
  - rewrite <- E'. apply (jumpable_steps St q st 0 true Hj Hst). lia.
Qed.

Lemma jump_by_pow2_zero_witness :
  Internal.reduce (digits uint64_t) 2 [5; 7] 0 true = 2 :: repeat 0 (2 - 1) /\
  pack (digits uint64_t) (Internal.reduce (digits uint64_t) 2 [5; 7] 0 true) = 2 ^ 1 /\
  jump_coefficients xoshiro_4x32 0 true = ok (2 :: repeat 0 (word_count xoshiro_4x32 - 1)) /\
  get_state xoshiro_4x32 (jump xoshiro_4x32 [1; 0; 0; 0]
                            (2 :: repeat 0 (word_count xoshiro_4x32 - 1)))
  = get_state xoshiro_4x32 (step xoshiro_4x32 [1; 0; 0; 0]).
Proof.
  refine (jump_by_pow2_zero uint64_t 2 [5; 7] xoshiro_4x32
            [0xde18fc01; 0x1b489db6; 0x6254b1; 0xfc65a2] [1; 0; 0; 0]
            _ _ _ state_type_4x32 eq_refl wf_4x32_default).
  - lia.
  - split; [reflexivity | repeat constructor; unfold Word.in_range; simpl; lia].
  - reflexivity.
Defined.

(** C7.  From every state, two jumps by [2^10] steps, each with
    [jump_coefficients(10, true)], leave exactly the state that one jump by
    [2^11] steps, with [jump_coefficients(11, true)], leaves. *)
Theorem two_jumps_by_pow2_10 (St : State) (p : list Z) (st : carrier St) :
  state_type St -> characteristic_coefficients St = ok p -> wf St st ->
  exists c10 c11,
    jump_coefficients St 10 true = ok c10 /\
    jump_coefficients St 11 true = ok c11 /\
    jump St (jump St st c10) c10 = jump St st c11.
Proof.
  intros HT Ep Hst. pose proof (state_type_jumpable St p HT Ep) as Hj.
  exists (Internal.reduce (word_digits St) (word_count St) p 10 true),
         (Internal.reduce (word_digits St) (word_count St) p 11 true).
  split; [apply jump_coefficients_ok; exact Ep|].
  split; [apply jump_coefficients_ok; exact Ep|].
  destruct (jumpable_steps St p st 10 true Hj Hst ltac:(lia)) as [W1 _].
  destruct (jumpable_steps St p _ 10 true Hj W1 ltac:(lia)) as [W2 _].
  destruct (jumpable_steps St p st 11 true Hj Hst ltac:(lia)) as [W3 _].
  apply (jump_canonical St p HT Ep); auto.
  exact (jump_twice St p st 10 Hj Hst ltac:(lia)).
Qed.

Lemma two_jumps_by_pow2_10_witness :
  exists c10 c11,
    jump_coefficients xoshiro_4x32 10 true = ok c10 /\
    jump_coefficients xoshiro_4x32 11 true = ok c11 /\
    jump xoshiro_4x32 (jump xoshiro_4x32 [1; 0; 0; 0] c10) c10
    = jump xoshiro_4x32 [1; 0; 0; 0] c11.
Proof.
  exact (two_jumps_by_pow2_10 xoshiro_4x32 [0xde18fc01; 0x1b489db6; 0x6254b1; 0xfc65a2]
           [1; 0; 0; 0] state_type_4x32 eq_refl wf_4x32_default).
Defined.

(** * Counting the steps of a jump *)

Lemma counting_word (St : State) (ji : Z) (l : list nat) (sum : list Z) (s : carrier St)
  (c : nat) :
  fold_left
    (fun (acc : list Z * carrier (counting St)) b =>
       let (sum, state) := acc in
       let sum :=
         if Z.land ji (Word.shl (word_digits (counting St)) 1 (Z.of_nat b)) =? 0
         then sum else add_state (counting St) state sum in
       (sum, step (counting St) state))
    l (sum, (s, c))
  = let r := fold_left
               (fun (acc : list Z * carrier St) b =>
                  let (sum, state) := acc in
                  let sum :=
                    if Z.land ji (Word.shl (word_digits St) 1 (Z.of_nat b)) =? 0
                    then sum else add_state St state sum in
                  (sum, step St state))
               l (sum, s) in
    (fst r, (snd r, (c + length l)%nat)).
Proof.
  revert sum s c. induction l as [|b l IH]; intros sum s c.
  - cbn [fold_left fst snd length]. rewrite Nat.add_0_r. reflexivity.
  - cbn [fold_left]. cbn [step counting fst snd]. rewrite IH. cbv zeta.
    cbn [length]. rewrite Nat.add_succ_r. reflexivity.
Qed.

Lemma counting_loop (St : State) (jump_coeff : list Z) (l : list nat) (sum : list Z)
  (s : carrier St) (c : nat) :
  fold_left
    (fun acc i =>
       let ji := get jump_coeff i in
       fold_left
         (fun (acc : list Z * carrier (counting St)) b =>
            let (sum, state) := acc in
            let sum :=
              if Z.land ji (Word.shl (word_digits (counting St)) 1 (Z.of_nat b)) =? 0
              then sum else add_state (counting St) state sum in
            (sum, step (counting St) state))
         (seq 0 (Z.to_nat (word_digits (counting St)))) acc)
    l (sum, (s, c))
  = let r := fold_left
               (fun acc i =>
                  let ji := get jump_coeff i in
                  fold_left
                    (fun (acc : list Z * carrier St) b =>
                       let (sum, state) := acc in
                       let sum :=
                         if Z.land ji (Word.shl (word_digits St) 1 (Z.of_nat b)) =? 0
                         then sum else add_state St state sum in
                       (sum, step St state))
                    (seq 0 (Z.to_nat (word_digits St))) acc)
               l (sum, s) in
    (fst r, (snd r, (c + length l * Z.to_nat (word_digits St))%nat)).
Proof.
  revert sum s c. induction l as [|i l IH]; intros sum s c.
  - cbn [fold_left fst snd length]. rewrite Nat.mul_0_l, Nat.add_0_r. reflexivity.
  - cbn [fold_left]. cbv zeta. rewrite counting_word. cbv zeta.
    rewrite IH. cbv zeta. cbn [word_digits counting].
    rewrite <- surjective_pairing.
    rewrite length_seq. cbn [length]. f_equal. f_equal. lia.
Qed.

Lemma counting_jump_loop (St : State) (r : list Z) (sum : list Z) (s : carrier St) (c : nat) :
  jump_loop (counting St) r (sum, (s, c))
  = (fst (jump_loop St r (sum, s)),
     (snd (jump_loop St r (sum, s)), (c + word_count St * Z.to_nat (word_digits St))%nat)).
Proof.
  pose proof (counting_loop St r (seq 0 (word_count St)) sum s c) as H.
  rewrite length_seq in H. exact H.
Qed.

(** C8, as the code has it.  [jump(state, r)] calls the [step] of the state
    once for every bit position of the [N] words of [r], set or not, up to
    the last one of the last word: the number of calls is [N] times the
    digits of a word, whatever [r] is.  The state it leaves is the one the
    jump leaves without the count. *)
Theorem jump_step_count (St : State) (st : carrier St) (c : nat) (r : list Z) :
  snd (jump (counting St) (st, c) r) = (c + word_count St * Z.to_nat (word_digits St))%nat /\
  fst (jump (counting St) (st, c) r) = jump St st r.
Proof.
  unfold jump. cbv zeta.
  change (word_count (counting St)) with (word_count St).
  rewrite counting_jump_loop.
  destruct (jump_loop St r (repeat 0 (word_count St), st)) as [sum st'].
  cbn [fst snd seed counting]. split; reflexivity.
Qed.

(** C8, as the claim has it, fails: for the polynomial [x], whose highest
    set coefficient is at position 1, the jump of xoshiro 4x32 calls [step]
    128 times, not twice. *)
Lemma jump_steps_past_the_top_bit :
  Z.log2 (pack 32 [2; 0; 0; 0]) = 1 /\
  snd (jump (counting xoshiro_4x32) ([1; 0; 0; 0], 0%nat) [2; 0; 0; 0]) = 128%nat /\
  snd (jump (counting xoshiro_4x32) ([1; 0; 0; 0], 0%nat) [2; 0; 0; 0])
  <> Z.to_nat (1 + Z.log2 (pack 32 [2; 0; 0; 0])).
Proof.
  split; [vm_compute; reflexivity|]. split; [vm_compute; reflexivity|].
  vm_compute. intros H. discriminate H.
Qed.

(** * Partitions *)

(** [std::bit_width(m - 1)] is the smallest [k] with [m <= 2^k]. *)
Lemma bit_width_pred (m : Z) :
  1 <= m ->
  0 <= Internal.bit_width (m - 1) /\
  m <= 2 ^ Internal.bit_width (m - 1) /\
  (forall j, 0 <= j -> m <= 2 ^ j -> Internal.bit_width (m - 1) <= j).
Proof.
  intros Hm. destruct (Z.eq_dec m 1) as [->|Hn].
  - cbn. split; [lia|]. split; lia.
  - rewrite bit_width_log2 by lia.
    pose proof (Z.log2_nonneg (m - 1)) as H0.
    pose proof (Z.log2_spec (m - 1) ltac:(lia)) as [H1 H2].
    replace (Z.succ (Z.log2 (m - 1))) with (Z.log2 (m - 1) + 1) in H2 by lia.
    split; [lia|]. split; [lia|].
    intros j Hj Hle. assert (Z.log2 (m - 1) < j); [|lia].
    apply Z.log2_lt_pow2; lia.
Qed.

Lemma bit_width_pred_64 (m : Z) : 1 <= m < 2 ^ 64 -> Internal.bit_width (m - 1) <= 64.
Proof.
  intros Hm. apply (bit_width_pred m); lia.
Qed.

Lemma partition_next_iter (St : State) (p : list Z) (part : Partition.t St) (J : Z) (i : nat) :
  jumpable St p -> 0 <= J -> wf St (Partition.m_state part) ->
  Partition.m_jump_coefficients part
  = Internal.reduce (word_digits St) (word_count St) p J true ->
  wf St (Partition.m_state (Nat.iter i (fun q => snd (Partition.next q)) part)) /\
  Partition.m_jump_coefficients (Nat.iter i (fun q => snd (Partition.next q)) part)
  = Partition.m_jump_coefficients part.
Proof.
  intros Hj HJ Hw Hc. induction i as [|i [IH1 IH2]]; [split; auto|].
  rewrite Nat.iter_succ. unfold Partition.next at 1 3.
  cbn [snd Partition.m_state Partition.m_jump_coefficients].
  split; [|exact IH2]. rewrite IH2, Hc.
  apply (jumpable_steps St p _ J true Hj IH1 HJ).
Qed.

(** C4.  For every parent state and every partition count [P] of a
    [std::size_t], zero included, [partition(s, P)] stores the jump
    polynomial for [2^(n - k)] steps, [n] the bit count of the state and
    [k] the smallest number with [max(P, 1) <= 2^k].  Every call of [next]
    returns the state the partition holds and jumps that state with the
    stored polynomial, so the state a call returns is the state the call
    before returned, [2^(n - k)] steps on. *)
Theorem partition_substreams (St : State) (p : list Z) (st : carrier St) (P : Z) :
  state_type St -> characteristic_coefficients St = ok p -> wf St st ->
  0 <= P < 2 ^ 64 ->
  let k := Internal.bit_width (Z.max P 1 - 1) in
  (0 <= k <= bit_count St /\ Z.max P 1 <= 2 ^ k /\
   forall j, 0 <= j -> Z.max P 1 <= 2 ^ j -> k <= j) /\
  exists part,
    Partition.partition St st P = ok part /\
    Partition.m_state part = st /\
    jump_coefficients St (bit_count St - k) true = ok (Partition.m_jump_coefficients part) /\
    forall i : nat,
      let before := Nat.iter i (fun q => snd (Partition.next q)) part in
      let after := snd (Partition.next before) in
      fst (Partition.next before) = Partition.m_state before /\
      Partition.m_state after
      = jump St (Partition.m_state before) (Partition.m_jump_coefficients part) /\
      Partition.m_jump_coefficients after = Partition.m_jump_coefficients part /\
      get_state St (fst (Partition.next after))
      = get_state St (Nat.iter (Z.to_nat (2 ^ (bit_count St - k))) (step St)
                        (fst (Partition.next before))).
Proof.
  intros HT Ep Hst HP k. pose proof (state_type_jumpable St p HT Ep) as Hj.
  assert (Hlow : 64 <= bit_count St /\ bit_count St < 2 ^ 64).
  { destruct Hj as (F & T & _ & _ & _ & H1 & H2 & _). lia. }
  assert (HP1 : 1 <= Z.max P 1 < 2 ^ 64) by lia.
  destruct (bit_width_pred (Z.max P 1) (proj1 HP1)) as (K0 & K1 & K2).
  pose proof (bit_width_pred_64 (Z.max P 1) HP1) as K64. fold k in K0, K1, K2, K64.
  split; [split; [lia|]; split; [exact K1 | exact K2]|].
  assert (E : Partition.partition St st P
              = ok (Partition.mk st
                      (Internal.reduce (word_digits St) (word_count St) p
                         (bit_count St - k) true))).
  { unfold Partition.partition. cbv zeta.
    replace (if P =? 0 then 1 else P) with (Z.max P 1)
      by (destruct (Z.eqb_spec P 0); lia).
    rewrite (Z.mod_small (Z.max P 1 - 1)) by lia. fold k.
    rewrite (Z.mod_small (bit_count St - k)) by lia.
    rewrite (jump_coefficients_ok St p _ true Ep). reflexivity. }
  exists (Partition.mk st (Internal.reduce (word_digits St) (word_count St) p
                             (bit_count St - k) true)).
  split; [exact E|]. split; [reflexivity|].
  split; [apply jump_coefficients_ok; exact Ep|].
  intros i before after.
  destruct (partition_next_iter St p
              (Partition.mk st (Internal.reduce (word_digits St) (word_count St) p
                                  (bit_count St - k) true))
              (bit_count St - k) i Hj ltac:(lia) Hst eq_refl) as [W C].
  fold before in W, C. cbn [Partition.m_jump_coefficients] in C.
  unfold after, Partition.next. cbn [fst snd Partition.m_state Partition.m_jump_coefficients].
  rewrite C. split; [reflexivity|]. split; [reflexivity|]. split; [reflexivity|].
  apply (jumpable_steps St p _ (bit_count St - k) true Hj W). lia.
Qed.

Lemma partition_substreams_witness :
  let k := Internal.bit_width (Z.max 100 1 - 1) in
  (0 <= k <= bit_count xoshiro_4x32 /\ Z.max 100 1 <= 2 ^ k /\
   forall j, 0 <= j -> Z.max 100 1 <= 2 ^ j -> k <= j) /\
  exists part,
    Partition.partition xoshiro_4x32 [1; 0; 0; 0] 100 = ok part /\
    Partition.m_state part = [1; 0; 0; 0] /\
    jump_coefficients xoshiro_4x32 (bit_count xoshiro_4x32 - k) true
    = ok (Partition.m_jump_coefficients part) /\
    forall i : nat,
      let before := Nat.iter i (fun q => snd (Partition.next q)) part in
      let after := snd (Partition.next before) in
      fst (Partition.next before) = Partition.m_state before /\
      Partition.m_state after
      = jump xoshiro_4x32 (Partition.m_state before) (Partition.m_jump_coefficients part) /\
      Partition.m_jump_coefficients after = Partition.m_jump_coefficients part /\
      get_state xoshiro_4x32 (fst (Partition.next after))
      = get_state xoshiro_4x32
          (Nat.iter (Z.to_nat (2 ^ (bit_count xoshiro_4x32 - k))) (step xoshiro_4x32)
             (fst (Partition.next before))).
Proof.
  refine (partition_substreams xoshiro_4x32 [0xde18fc01; 0x1b489db6; 0x6254b1; 0xfc65a2]
            [1; 0; 0; 0] 100 state_type_4x32 eq_refl wf_4x32_default _).
  lia.
Defined.

(** * More of the header *)

Lemma words_ok_4x32 (a b c d : Z) :
  0 <= a < 2 ^ 32 -> 0 <= b < 2 ^ 32 -> 0 <= c < 2 ^ 32 -> 0 <= d < 2 ^ 32 ->
  words_ok (word_digits xoshiro_4x32) (word_count xoshiro_4x32) [a; b; c; d].
Proof.
  intros Ha Hb Hc Hd. split; [reflexivity|].
  apply Forall_cons; [exact Ha|]. apply Forall_cons; [exact Hb|].
  apply Forall_cons; [exact Hc|]. apply Forall_cons; [exact Hd|]. apply Forall_nil.
Defined.

(** ** The riffles *)

(** X1.  The word riffle spreads the low half of [src] over [lo] and the
    high half over [hi], a zero after every bit: bit [i] of a half is bit
    [2 i] of its word, and the odd bits are zero.  Read as polynomials over
    GF(2), [lo(x) + x^digits hi(x)] is the square of [src(x)]. *)
Theorem riffle_interleaves (T : word_type) (src : Z) :
  Word.in_range (digits T) src ->
  let lo := fst (Internal.riffle (digits T) src) in
  let hi := snd (Internal.riffle (digits T) src) in
  Word.in_range (digits T) lo /\ Word.in_range (digits T) hi /\
  (forall i, 0 <= i < digits T / 2 ->
     Z.testbit lo (2 * i) = Z.testbit src i /\
     Z.testbit hi (2 * i) = Z.testbit src (i + digits T / 2) /\
     Z.testbit lo (2 * i + 1) = false /\ Z.testbit hi (2 * i + 1) = false) /\
  lo + 2 ^ digits T * hi = GF2.spread src.
Proof.
  intros Hsrc lo hi. pose proof (digits_pos T) as HW. pose proof (digits_even T) as He.
  pose proof (riffle_spread T src Hsrc) as E. cbv zeta in E.
  set (h := digits T / 2) in *.
  assert (Hh : 0 < h /\ digits T = 2 * h) by (unfold h; destruct T; split; reflexivity).
  destruct Hh as [Hh HWh].
  assert (Hlo : lo = GF2.spread (src mod 2 ^ h)) by (unfold lo; rewrite E; reflexivity).
  assert (Hhi : hi = GF2.spread (Z.shiftr src h)) by (unfold hi; rewrite E; reflexivity).
  assert (Rl : 0 <= src mod 2 ^ h < 2 ^ h) by (apply Z.mod_pos_bound, Z.pow_pos_nonneg; lia).
  assert (Rh : 0 <= Z.shiftr src h < 2 ^ h).
  { destruct Hsrc as [S0 S1]. rewrite Z.shiftr_div_pow2 by lia. split.
    - apply Z.div_pos; [lia | apply Z.pow_pos_nonneg; lia].
    - apply Z.div_lt_upper_bound; [apply Z.pow_pos_nonneg; lia|].
      rewrite <- Z.pow_add_r by lia. replace (h + h) with (digits T) by lia. exact S1. }
  assert (Il : Word.in_range (digits T) lo).
  { rewrite Hlo, HWh. apply spread_range; lia. }
  assert (Ih : Word.in_range (digits T) hi).
  { rewrite Hhi, HWh. apply spread_range; lia. }
  split; [exact Il|]. split; [exact Ih|]. split.
  - intros i Hi. rewrite Hlo, Hhi, !testbit_spread by lia.
    replace (2 * i) with (i * 2) by lia. rewrite Z.div_mul by lia.
    replace ((i * 2 + 1) / 2) with i by (apply Z.div_unique with (r := 1); lia).
    assert (E0 : Z.even (i * 2) = true) by (rewrite Z.even_mul; apply orb_true_r).
    assert (E1 : Z.even (i * 2 + 1) = false).
    { rewrite Z.even_add, E0. reflexivity. }
    rewrite E0, E1. cbn [andb].
    rewrite Z.mod_pow2_bits_low, Z.shiftr_spec by lia.
    repeat split; reflexivity.
  - rewrite add_pow2_lxor by (try lia; exact Il).
    apply Z.bits_inj'. intros i Hi.
    rewrite Z.lxor_spec, Z.mul_pow2_bits by lia.
    rewrite (testbit_spread src i) by (try lia; apply Hsrc).
    rewrite Hlo, (testbit_spread (src mod 2 ^ h) i) by lia.
    destruct (Z.ltb_spec i (digits T)) as [L|L].
    + rewrite (Z.testbit_neg_r _ (i - digits T)) by lia.
      rewrite Z.mod_pow2_bits_low; [btauto|].
      apply Z.div_lt_upper_bound; lia.
    + rewrite Hhi, testbit_spread by lia.
      rewrite Z.mod_pow2_bits_high by (split; [lia | apply Z.div_le_lower_bound; lia]).
      rewrite Z.shiftr_spec by (apply Z.div_pos; lia).
      replace (i - digits T) with (i + 2 * (- h)) by lia.
      rewrite Z.even_add_mul_2. rewrite (Z.mul_comm 2 (- h)), Z.div_add by lia.
      replace (i / 2 + - h + h) with (i / 2) by lia. btauto.
Qed.

Lemma riffle_interleaves_witness :
  let lo := fst (Internal.riffle (digits uint8_t) 0xb5) in
  let hi := snd (Internal.riffle (digits uint8_t) 0xb5) in
  Word.in_range (digits uint8_t) lo /\ Word.in_range (digits uint8_t) hi /\
  (forall i, 0 <= i < digits uint8_t / 2 ->
     Z.testbit lo (2 * i) = Z.testbit 0xb5 i /\
     Z.testbit hi (2 * i) = Z.testbit 0xb5 (i + digits uint8_t / 2) /\
     Z.testbit lo (2 * i + 1) = false /\ Z.testbit hi (2 * i + 1) = false) /\
  lo + 2 ^ digits uint8_t * hi = GF2.spread 0xb5.
Proof.
  apply (riffle_interleaves uint8_t 0xb5). unfold Word.in_range. simpl. lia.
Defined.

(** X2.  The array riffle, called in place as [riffle(poly, poly, hi)],
    leaves [N] words in [poly] and [N] in [hi] that together hold the
    square of the polynomial it was given:
    [poly'(x) + x^n hi(x) = poly(x)^2], whatever [hi] held before. *)
Theorem riffle_array_squares (T : word_type) (N : nat) (poly hi : list Z) :
  (1 <= N)%nat -> words_ok (digits T) N poly -> length hi = N ->
  let r := Internal.riffle_array (digits T) N poly hi in
  words_ok (digits T) N (fst r) /\ words_ok (digits T) N (snd r) /\
  pack (digits T) (fst r) + 2 ^ Internal.n (digits T) N * pack (digits T) (snd r)
  = GF2.spread (pack (digits T) poly).
Proof.
  intros HN Hp Hh. exact (pack_riffle_array T N HN poly hi Hp Hh).
Qed.

Lemma riffle_array_squares_witness :
  let r := Internal.riffle_array (digits uint32_t) 3 [0xdeadbeef; 7; 0x80000001] [9; 9; 9] in
  words_ok (digits uint32_t) 3 (fst r) /\ words_ok (digits uint32_t) 3 (snd r) /\
  pack (digits uint32_t) (fst r)
  + 2 ^ Internal.n (digits uint32_t) 3 * pack (digits uint32_t) (snd r)
  = GF2.spread (pack (digits uint32_t) [0xdeadbeef; 7; 0x80000001]).
Proof.
  apply (riffle_array_squares uint32_t 3 [0xdeadbeef; 7; 0x80000001] [9; 9; 9]).
  - lia.
  - split; [reflexivity | repeat constructor; unfold Word.in_range; simpl; lia].
  - reflexivity.
Defined.

(** ** The steps *)

(** X3.  The step of xoshiro, with four words and with eight, is linear
    over GF(2): the step of the word-wise exclusive or of two states is the
    exclusive or of their steps.  It keeps the words in the range of the
    word type. *)
Theorem xoshiro_step_linear (T : word_type) (A B : Z) (a b : list Z) (N : nat)
  (f : list Z -> list Z) :
  0 <= A -> Xoshiro.step N (digits T) A B = Some f ->
  words_ok (digits T) N a -> words_ok (digits T) N b ->
  f (vxor a b) = vxor (f a) (f b) /\ words_ok (digits T) N (f a).
Proof.
  intros HA Hf Ha Hb. unfold Xoshiro.step in Hf.
  assert (HN : (N = 4 \/ N = 8)%nat).
  { do 9 (destruct N as [|N]; try discriminate Hf; auto). }
  destruct HN; subst N; injection Hf as <-.
  - pose proof (xoshiro4_refines T A B HA) as R.
    assert (S4 : forall x, words_ok (digits T) 4 x ->
                 Xoshiro.step4 (digits T) A B x = Logical.xoshiro4 (digits T) A B x)
      by (intros x Hx; exact (refines_step _ _ R x Hx)).
    split.
    + rewrite !S4; auto.
      * apply (refines_lin _ _ R); auto.
      * apply (words_ok_vxor (digits T) 4); auto. pose proof (digits_pos T); lia.
    + exact (refines_step_wf _ _ R a Ha).
  - pose proof (xoshiro8_refines T A B HA) as R.
    assert (S8 : forall x, words_ok (digits T) 8 x ->
                 Xoshiro.step8 (digits T) A B x = Logical.xoshiro8 (digits T) A B x)
      by (intros x Hx; exact (refines_step _ _ R x Hx)).
    split.
    + rewrite !S8; auto.
      * apply (refines_lin _ _ R); auto.
      * apply (words_ok_vxor (digits T) 8); auto. pose proof (digits_pos T); lia.
    + exact (refines_step_wf _ _ R a Ha).
Qed.

Lemma xoshiro_step_linear_witness :
  Xoshiro.step8 (digits uint64_t) 11 21 (vxor [1; 2; 3; 4; 5; 6; 7; 8] [8; 7; 6; 5; 4; 3; 2; 1])
  = vxor (Xoshiro.step8 (digits uint64_t) 11 21 [1; 2; 3; 4; 5; 6; 7; 8])
         (Xoshiro.step8 (digits uint64_t) 11 21 [8; 7; 6; 5; 4; 3; 2; 1]) /\
  words_ok (digits uint64_t) 8 (Xoshiro.step8 (digits uint64_t) 11 21 [1; 2; 3; 4; 5; 6; 7; 8]).
Proof.
  apply (xoshiro_step_linear uint64_t 11 21 [1; 2; 3; 4; 5; 6; 7; 8] [8; 7; 6; 5; 4; 3; 2; 1] 8).
  - lia.
  - reflexivity.
  - split; [reflexivity | repeat constructor; unfold Word.in_range; simpl; lia].
  - split; [reflexivity | repeat constructor; unfold Word.in_range; simpl; lia].
Defined.

(** X4.  The step of xoroshiro is linear over GF(2) on the words in
    logical order, wherever the ring buffer stands: for states [s], [sa],
    [sb] whose logical words are [a xor b], [a] and [b], the logical words
    after a step of [s] are the exclusive or of those after a step of [sa]
    and of [sb]. *)
Theorem xoroshiro_step_linear (N : nat) (T : word_type) (A B C : Z) (s sa sb : Xoroshiro.t) :
  (2 <= N)%nat -> 0 <= B ->
  Xoroshiro.invariant N (digits T) s -> Xoroshiro.invariant N (digits T) sa ->
  Xoroshiro.invariant N (digits T) sb ->
  Xoroshiro.get_state N s = vxor (Xoroshiro.get_state N sa) (Xoroshiro.get_state N sb) ->
  Xoroshiro.get_state N (Xoroshiro.step N (digits T) A B C s)
  = vxor (Xoroshiro.get_state N (Xoroshiro.step N (digits T) A B C sa))
         (Xoroshiro.get_state N (Xoroshiro.step N (digits T) A B C sb)) /\
  Xoroshiro.invariant N (digits T) (Xoroshiro.step N (digits T) A B C s).
Proof.
  intros HN HB Hs Ha Hb E. pose proof (xoroshiro_refines N T A B C HN HB) as R.
  split.
  - assert (S : forall x, Xoroshiro.invariant N (digits T) x ->
                 Xoroshiro.get_state N (Xoroshiro.step N (digits T) A B C x)
                 = Logical.xoroshiro (digits T) A B C (Xoroshiro.get_state N x))
      by (intros x Hx; exact (refines_step _ _ R x Hx)).
    rewrite !S by auto. rewrite E.
    apply (refines_lin _ _ R);
      [exact (refines_words _ _ R sa Ha) | exact (refines_words _ _ R sb Hb)].
  - exact (refines_step_wf _ _ R s Hs).
Qed.

Lemma invariant_16x64 (m : list Z) (f : nat) :
  words_ok 64 16 m -> (f < 16)%nat ->
  Xoroshiro.invariant 16 (digits uint64_t) (Xoroshiro.mk m f).
Proof. intros Hm Hf. split; [exact Hm|]. split; [exact Hf|]. intros H. discriminate H. Defined.

Lemma words_ok_seq_16 (k : nat) : (k < 1000)%nat -> words_ok 64 16 (map Z.of_nat (seq k 16)).
Proof.
  intros Hk. split; [rewrite length_map, length_seq; reflexivity|].
  apply Forall_forall. intros x Hx. apply in_map_iff in Hx. destruct Hx as [j [<- Hj]].
  apply in_seq in Hj. unfold Word.in_range. change (2 ^ 64) with 18446744073709551616. lia.
Defined.

Lemma xoroshiro_step_linear_witness :
  Xoroshiro.get_state 16
    (Xoroshiro.step 16 (digits uint64_t) 25 27 36
       (Xoroshiro.mk (vxor (map Z.of_nat (seq 1 16)) (map Z.of_nat (seq 20 16))) 15))
  = vxor (Xoroshiro.get_state 16
            (Xoroshiro.step 16 (digits uint64_t) 25 27 36
               (Xoroshiro.mk (map Z.of_nat (seq 1 16)) 15)))
         (Xoroshiro.get_state 16
            (Xoroshiro.step 16 (digits uint64_t) 25 27 36
               (Xoroshiro.mk (map Z.of_nat (seq 20 16)) 15))) /\
  Xoroshiro.invariant 16 (digits uint64_t)
    (Xoroshiro.step 16 (digits uint64_t) 25 27 36
       (Xoroshiro.mk (vxor (map Z.of_nat (seq 1 16)) (map Z.of_nat (seq 20 16))) 15)).
Proof.
  apply (xoroshiro_step_linear 16 uint64_t 25 27 36).
  - lia.
  - lia.
  - apply invariant_16x64; [|lia].
    apply (words_ok_vxor 64 16); [lia | apply words_ok_seq_16; lia | apply words_ok_seq_16; lia].
  - apply invariant_16x64; [apply words_ok_seq_16; lia | lia].
  - apply invariant_16x64; [apply words_ok_seq_16; lia | lia].
  - reflexivity.
Defined.

(** The constant coefficient of every characteristic polynomial of the
    tables is one. *)
Lemma table_constant_term (St : State) (p : list Z) :
  state_type St -> characteristic_coefficients St = ok p ->
  Z.testbit (pack (word_digits St) p) 0 = true.
Proof.
  intros [N T A B St' E | N T A B C] Ep.
  - unfold xoshiro in E.
    assert (HN : (N = 4 \/ N = 8)%nat).
    { do 9 (destruct N as [|N]; try discriminate E; auto). }
    destruct HN; subst N; cbn in E; injection E as <-;
      cbn [characteristic_coefficients xoshiro_with] in Ep;
      match type of Ep with
      | Xoshiro.characteristic_coefficients ?n _ _ _ = _ =>
          pose proof (xoshiro_table n T A B) as H
      end; rewrite Ep in H;
      destruct H as [_ [H | [H | H]]]; destruct H as (-> & HN & -> & -> & ->);
      try discriminate HN; reflexivity.
  - cbn [characteristic_coefficients xoroshiro] in Ep.
    pose proof (xoroshiro_table N T A B C) as H; rewrite Ep in H.
    destruct H as [_ [H | [H | [H | H]]]]; destruct H as (-> & -> & -> & -> & -> & ->);
      reflexivity.
Qed.

Lemma zero_or_not (s : list Z) : s = repeat 0 (length s) \/ not_all_zero s.
Proof.
  induction s as [|x s [IH|[i Hi]]].
  - left. reflexivity.
  - destruct (Z.eq_dec x 0) as [->|Hx].
    + left. cbn [length repeat]. rewrite <- IH. reflexivity.
    + right. exists 0%nat. exact Hx.
  - right. exists (S i). exact Hi.
Qed.

Lemma not_all_zero_repeat (N : nat) : ~ not_all_zero (repeat 0 N).
Proof. intros [i Hi]. apply Hi. apply get_repeat. Qed.

(** On a state type with a table entry the transition has no kernel: from
    [c(T) = 0] and [c(0) = 1], [T] has the inverse [(c(T) - 1) / T]. *)
Lemma transition_kernel (St : State) (p : list Z) (F : list Z -> list Z) (s : list Z) :
  refines St F ->
  words_ok (word_digits St) (word_count St) p ->
  (forall k : nat, Z.of_nat k < bit_count St ->
     all_zero (peval_words F (Z.to_pos (2 ^ bit_count St + pack (word_digits St) p))
                 (unpack (word_digits St) (word_count St) (2 ^ Z.of_nat k))) = true) ->
  Z.testbit (pack (word_digits St) p) 0 = true ->
  words_ok (word_digits St) (word_count St) s ->
  F s = repeat 0 (word_count St) -> s = repeat 0 (word_count St).
Proof.
  intros HS Hp Hann Hodd Hs HF.
  pose proof (refines_digits St F HS) as HW.
  pose proof (pack_words_range _ _ _ (Z.lt_le_incl _ _ HW) Hs) as Hz.
  pose proof (pack_words_range _ _ _ (Z.lt_le_incl _ _ HW) Hp) as HP.
  fold (bit_count St) in Hz, HP.
  pose proof (annihilated St F p HS Hp Hann (pack (word_digits St) s) Hz) as H0.
  set (Tb := on_bits (word_digits St) (word_count St) F) in *.
  set (c := 2 ^ bit_count St + pack (word_digits St) p) in *.
  assert (Tlin : forall a b, Tb (Z.lxor a b) = Z.lxor (Tb a) (Tb b))
    by (apply (on_bits_lin St F HS)).
  assert (Hn : 0 < bit_count St) by (apply (bit_count_pos St F HS)).
  assert (Hc : c = 2 * (c / 2) + Z.b2z true).
  { assert (Hb : Z.testbit c 0 = true).
    { rewrite Z.bit0_odd in *. unfold c. rewrite Z.odd_add, Hodd.
      rewrite Z.odd_pow by lia. reflexivity. }
    rewrite Z.bit0_odd in Hb. rewrite (Z.div_mod c 2) at 1 by lia.
    rewrite Zmod_odd, Hb. reflexivity. }
  assert (Hq : 0 <= c / 2) by (apply Z.div_pos; unfold c; lia).
  rewrite Hc, (peval_double_bit Tb Tlin true (c / 2)) in H0 by exact Hq.
  apply Z.lxor_eq in H0.
  rewrite <- (peval_commute Tb Tlin) in H0.
  assert (HT0 : Tb (pack (word_digits St) s) = 0).
  { unfold Tb. rewrite (on_bits_pack St F HS) by auto. rewrite HF. apply pack_repeat_0. }
  rewrite HT0, (peval_0_r Tb Tlin) in H0.
  apply (pack_inj (word_digits St) (word_count St)); auto.
  - apply words_ok_repeat. lia.
  - rewrite pack_repeat_0. exact H0.
Qed.

Lemma jumpable_kernel (St : State) (p : list Z) (st : carrier St) :
  state_type St -> characteristic_coefficients St = ok p -> wf St st ->
  get_state St (step St st) = repeat 0 (word_count St) ->
  get_state St st = repeat 0 (word_count St).
Proof.
  intros HT Ep Hst H0. pose proof (table_constant_term St p HT Ep) as Hodd.
  destruct (state_type_jumpable St p HT Ep) as (F & T & HS & _ & Hp & _ & _ & Hann).
  apply (transition_kernel St p F); auto.
  - apply (refines_words St F HS); auto.
  - rewrite <- (refines_step St F HS) by auto. exact H0.
Qed.

(** X5.  On every state type with a table of characteristic coefficients,
    [step] has an inverse: states with different words go to states with
    different words.  The all-zero state stays where it is, and no other
    state ever reaches it: a state that is not all zeros is not all zeros
    after a step. *)
Theorem step_is_injective (St : State) (p : list Z) (a b : carrier St) :
  state_type St -> characteristic_coefficients St = ok p -> wf St a -> wf St b ->
  (get_state St (step St a) = get_state St (step St b) -> get_state St a = get_state St b) /\
  (get_state St a = repeat 0 (word_count St) ->
   get_state St (step St a) = repeat 0 (word_count St)) /\
  (not_all_zero (get_state St a) -> not_all_zero (get_state St (step St a))).
Proof.
  intros HT Ep Ha Hb. pose proof (table_constant_term St p HT Ep) as Hodd.
  destruct (state_type_jumpable St p HT Ep) as (F & T & HS & _ & Hp & _ & _ & Hann).
  pose proof (refines_digits St F HS) as HW.
  pose proof (refines_words St F HS a Ha) as Wa.
  pose proof (refines_words St F HS b Hb) as Wb.
  rewrite !(refines_step St F HS) by auto.
  split; [|split].
  - intros E.
    assert (Hx : vxor (get_state St a) (get_state St b) = repeat 0 (word_count St)).
    { apply (transition_kernel St p F); auto.
      - apply words_ok_vxor; auto. lia.
      - rewrite (refines_lin St F HS) by auto. rewrite E, vxor_self.
        rewrite (words_ok_length _ _ _ (refines_ok St F HS _ Wb)). reflexivity. }
    apply (pack_inj (word_digits St) (word_count St)); auto.
    apply (f_equal (pack (word_digits St))) in Hx.
    rewrite (pack_vxor _ (word_count St)), pack_repeat_0 in Hx by auto.
    apply Z.lxor_eq in Hx. exact Hx.
  - intros ->. apply (transition_zero St F HS).
  - intros Hnz.
    destruct (zero_or_not (F (get_state St a))) as [Hz|Hz]; [|exact Hz].
    exfalso. rewrite (words_ok_length _ _ _ (refines_ok St F HS _ Wa)) in Hz.
    apply (transition_kernel St p F) in Hz; auto.
    rewrite Hz in Hnz. exact (not_all_zero_repeat _ Hnz).
Qed.

Lemma step_is_injective_witness :
  (get_state xoshiro_4x32 (step xoshiro_4x32 [1; 0; 0; 0])
   = get_state xoshiro_4x32 (step xoshiro_4x32 [0; 7; 0; 0]) ->
   get_state xoshiro_4x32 [1; 0; 0; 0] = get_state xoshiro_4x32 [0; 7; 0; 0]) /\
  (get_state xoshiro_4x32 [1; 0; 0; 0] = repeat 0 (word_count xoshiro_4x32) ->
   get_state xoshiro_4x32 (step xoshiro_4x32 [1; 0; 0; 0])
   = repeat 0 (word_count xoshiro_4x32)) /\
  (not_all_zero (get_state xoshiro_4x32 [1; 0; 0; 0]) ->
   not_all_zero (get_state xoshiro_4x32 (step xoshiro_4x32 [1; 0; 0; 0]))).
Proof.
  refine (step_is_injective xoshiro_4x32 [0xde18fc01; 0x1b489db6; 0x6254b1; 0xfc65a2]
            [1; 0; 0; 0] [0; 7; 0; 0] state_type_4x32 eq_refl wf_4x32_default _).
  apply words_ok_4x32; lia.
Defined.

(** ** Seeding a generator from one word *)

Lemma xorshift_zero (z k : Z) : 0 <= z -> 0 < k -> Z.lxor z (Z.shiftr z k) = 0 -> z = 0.
Proof.
  intros Hz Hk H. apply Z.lxor_eq in H. rewrite Z.shiftr_div_pow2 in H by lia.
  destruct (Z.eq_dec z 0) as [|Hn]; auto.
  assert (1 < 2 ^ k) by (apply Z.pow_gt_1; lia).
  pose proof (Z.div_lt z (2 ^ k) ltac:(lia) ltac:(lia)). lia.
Qed.

Lemma xorshift_inj (a b k : Z) :
  0 <= a -> 0 <= b -> 0 < k ->
  Z.lxor a (Z.shiftr a k) = Z.lxor b (Z.shiftr b k) -> a = b.
Proof.
  intros Ha Hb Hk H. apply Z.lxor_eq. apply (xorshift_zero _ k); auto.
  - apply Z.lxor_nonneg. tauto.
  - rewrite Z.shiftr_lxor.
    replace (Z.lxor (Z.lxor a b) (Z.lxor (Z.shiftr a k) (Z.shiftr b k)))
      with (Z.lxor (Z.lxor a (Z.shiftr a k)) (Z.lxor b (Z.shiftr b k))) by Z.bitblast.
    rewrite H. apply Z.lxor_nilpotent.
Qed.

Lemma xorshift_range (z k : Z) :
  0 <= k -> Word.in_range 64 z -> Word.in_range 64 (Z.lxor z (Word.shr z k)).
Proof.
  intros Hk Hz. apply in_range_lxor; try lia; auto. apply in_range_shr; auto; lia.
Qed.

(** Multiplication by an odd constant is one to one on the words. *)
Lemma mul_wrap_inj (m m' a b : Z) :
  (m * m') mod 2 ^ 64 = 1 ->
  Word.in_range 64 a -> Word.in_range 64 b ->
  Word.wrap 64 (a * m) = Word.wrap 64 (b * m) -> a = b.
Proof.
  unfold Word.wrap, Word.in_range. intros Hm Ha Hb H.
  assert (E : forall x, 0 <= x < 2 ^ 64 -> x = (((x * m) mod 2 ^ 64) * m') mod 2 ^ 64).
  { intros x Hx. rewrite Z.mul_mod_idemp_l by lia.
    rewrite <- Z.mul_assoc, <- Z.mul_mod_idemp_r, Hm, Z.mul_1_r by lia.
    symmetry. apply Z.mod_small. exact Hx. }
  rewrite (E a Ha), (E b Hb), H. reflexivity.
Qed.

Lemma add_wrap_inj (c a b : Z) :
  Word.in_range 64 a -> Word.in_range 64 b ->
  Word.wrap 64 (a + c) = Word.wrap 64 (b + c) -> a = b.
Proof.
  unfold Word.wrap, Word.in_range. intros Ha Hb H.
  assert (E : forall x, 0 <= x < 2 ^ 64 -> x = (((x + c) mod 2 ^ 64) - c) mod 2 ^ 64).
  { intros x Hx. rewrite Zminus_mod_idemp_l. replace (x + c - c) with x by lia.
    symmetry. apply Z.mod_small. exact Hx. }
  rewrite (E a Ha), (E b Hb), H. reflexivity.
Qed.

Lemma wrap_range (x : Z) : Word.in_range 64 (Word.wrap 64 x).
Proof. apply in_range_wrap. lia. Qed.

Lemma murmur_scramble64_inj (a b : Z) :
  Word.in_range 64 a -> Word.in_range 64 b ->
  Generator.murmur_scramble64 a = Generator.murmur_scramble64 b -> a = b.
Proof.
  intros Ha Hb H. unfold Generator.murmur_scramble64 in H. cbv zeta in H.
  apply xorshift_inj in H; try lia; try apply wrap_range.
  apply (mul_wrap_inj _ 0x9cb4b2f8129337db) in H;
    [ | reflexivity | apply xorshift_range; [lia | apply wrap_range]
      | apply xorshift_range; [lia | apply wrap_range] ].
  apply xorshift_inj in H; try lia; try apply wrap_range.
  apply (mul_wrap_inj _ 0x4f74430c22a54005) in H;
    [ | reflexivity | apply xorshift_range; [lia | exact Ha]
      | apply xorshift_range; [lia | exact Hb] ].
  apply xorshift_inj in H; [exact H | apply Ha | apply Hb | lia].
Qed.

Lemma murmur_scramble64_range (a : Z) :
  Word.in_range 64 a -> Word.in_range 64 (Generator.murmur_scramble64 a).
Proof.
  intros Ha. unfold Generator.murmur_scramble64. cbv zeta.
  apply xorshift_range; [lia | apply wrap_range].
Qed.

Lemma split_mix64_range (s : Z) :
  Word.in_range 64 (fst (Generator.split_mix64 s)) /\
  Word.in_range 64 (snd (Generator.split_mix64 s)).
Proof.
  unfold Generator.split_mix64. cbv zeta. cbn [fst snd]. split.
  - apply xorshift_range; [lia | apply wrap_range].
  - apply wrap_range.
Qed.

Lemma split_mix64_state (s : Z) :
  snd (Generator.split_mix64 s) = Word.wrap 64 (s + 0x9e3779b97f4a7c15).
Proof. reflexivity. Qed.

(** The output of [split_mix64] is a one-to-one function of the state of
    the call, and zero for one state only. *)
Lemma split_mix64_inj (s t : Z) :
  Word.in_range 64 s -> Word.in_range 64 t ->
  fst (Generator.split_mix64 s) = fst (Generator.split_mix64 t) -> s = t.
Proof.
  intros Hs Ht H. unfold Generator.split_mix64 in H. cbv zeta in H. cbn [fst] in H.
  apply xorshift_inj in H; try lia; try apply wrap_range.
  apply (mul_wrap_inj _ 0x319642b2d24d8ec3) in H;
    [ | reflexivity | apply xorshift_range; [lia | apply wrap_range]
      | apply xorshift_range; [lia | apply wrap_range] ].
  apply xorshift_inj in H; try lia; try apply wrap_range.
  apply (mul_wrap_inj _ 0x96de1b173f119089) in H;
    [ | reflexivity | apply xorshift_range; [lia | apply wrap_range]
      | apply xorshift_range; [lia | apply wrap_range] ].
  apply xorshift_inj in H; try lia; try apply wrap_range.
  apply (add_wrap_inj _ s t Hs Ht H).
Qed.

Lemma split_mix64_zero : fst (Generator.split_mix64 0x61c8864680b583eb) = 0.
Proof. vm_compute. reflexivity. Qed.

Lemma fill_words_ok (W : Z) (n : nat) (s : Z) :
  0 <= W -> words_ok W n (Generator.fill_words W n s).
Proof.
  intros HW. revert s. induction n as [|n IH]; intros s.
  - apply words_ok_nil.
  - cbn [Generator.fill_words]. destruct (Generator.split_mix64 s) as [z s'].
    apply words_ok_cons; [apply in_range_wrap; exact HW | apply IH].
Qed.

Lemma fill_words_first (n : nat) (s : Z) :
  get (Generator.fill_words 64 (S n) s) 0 = fst (Generator.split_mix64 s).
Proof.
  cbn [Generator.fill_words]. pose proof (split_mix64_range s) as [R _].
  destruct (Generator.split_mix64 s) as [z s']. cbn [get nth fst] in *.
  apply Z.mod_small. exact R.
Qed.

Lemma fill_words_second (n : nat) (s : Z) :
  get (Generator.fill_words 64 (S (S n)) s) 1
  = fst (Generator.split_mix64 (snd (Generator.split_mix64 s))).
Proof.
  change (get (Generator.fill_words 64 (S (S n)) s) 1)
    with (get (Generator.fill_words 64 (S n) (snd (Generator.split_mix64 s))) 0).
  apply fill_words_first.
Qed.

Lemma table_word_count (St : State) (p : list Z) :
  state_type St -> characteristic_coefficients St = ok p -> (2 <= word_count St)%nat.
Proof.
  intros [N T A B St' E | N T A B C] Ep.
  - unfold xoshiro in E.
    assert (HN : (N = 4 \/ N = 8)%nat).
    { do 9 (destruct N as [|N]; try discriminate E; auto). }
    destruct HN; subst N; cbn in E; injection E as <-; cbn [word_count xoshiro_with]; lia.
  - cbn [characteristic_coefficients xoroshiro] in Ep.
    pose proof (xoroshiro_table N T A B C) as H; rewrite Ep in H.
    cbn [word_count xoroshiro]. destruct H as [_ H]. intuition lia.
Qed.

(** X6.  On the 64-bit state types with a table entry,
    [seed(word_type seed)] never leaves the all-zero state, whatever the
    seed is: of the first two words it writes, one is not zero.  Seeds
    that differ leave states that differ. *)
Theorem seed_word_not_zero (St : State) (p : list Z) (g : carrier St) (s s' : Z) :
  state_type St -> characteristic_coefficients St = ok p -> word_digits St = 64 ->
  wf St g -> Word.in_range 64 s -> Word.in_range 64 s' ->
  wf St (Generator.seed_word St s g) /\
  not_all_zero (get_state St (Generator.seed_word St s g)) /\
  (get_state St (Generator.seed_word St s g) = get_state St (Generator.seed_word St s' g) ->
   s = s').
Proof.
  intros HT Ep HW Hg Hs Hs'. pose proof (table_word_count St p HT Ep) as HN.
  destruct (state_type_jumpable St p HT Ep) as (F & T & HS & _).
  assert (Hok : forall x, words_ok (word_digits St) (word_count St)
                            (Generator.fill_words (word_digits St) (word_count St) x))
    by (intros x; apply fill_words_ok; lia).
  assert (G : forall x, get_state St (Generator.seed_word St x g)
                        = Generator.fill_words 64 (word_count St) (Generator.murmur_scramble64 x)).
  { intros x. unfold Generator.seed_word. cbv zeta.
    rewrite (refines_seed St F HS) by auto. rewrite HW. reflexivity. }
  split; [apply (refines_seed_wf St F HS); auto|].
  rewrite !G. destruct (word_count St) as [|[|n]]; try lia.
  pose proof (murmur_scramble64_range s Hs) as Rm.
  pose proof (murmur_scramble64_range s' Hs') as Rm'.
  split.
  - set (m := Generator.murmur_scramble64 s) in *.
    destruct (Z.eq_dec (get (Generator.fill_words 64 (S (S n)) m) 0) 0) as [E0|E0];
      [|exists 0%nat; exact E0].
    exists 1%nat. intros E1. rewrite fill_words_first in E0. rewrite fill_words_second in E1.
    pose proof (split_mix64_range m) as [_ R1].
    assert (E : m = snd (Generator.split_mix64 m)).
    { apply split_mix64_inj; auto. congruence. }
    rewrite split_mix64_state in E. unfold Word.wrap, Word.in_range in *.
    change (2 ^ 64) with 18446744073709551616 in *. 
    pose proof (Z.div_mod (m + 11400714819323198485) 18446744073709551616 ltac:(lia)) as D.
    pose proof (Z.mod_pos_bound (m + 11400714819323198485) 18446744073709551616 ltac:(lia)).
    change 0x9e3779b97f4a7c15 with 11400714819323198485 in E. lia.
  - intros E. apply murmur_scramble64_inj; auto.
    apply split_mix64_inj; auto.
    rewrite <- !(fill_words_first (S n)). rewrite E. reflexivity.
Qed.

Lemma wf_4x64_default : wf xoshiro_4x64 [1; 0; 0; 0].
Proof. split; [reflexivity | repeat constructor; unfold Word.in_range; simpl; lia]. Defined.

Lemma state_type_4x64 : state_type xoshiro_4x64.
Proof. apply (state_xoshiro 4 uint64_t 17 45). reflexivity. Defined.

Lemma seed_word_not_zero_witness :
  wf xoshiro_4x64 (Generator.seed_word xoshiro_4x64 0 [1; 0; 0; 0]) /\
  not_all_zero (get_state xoshiro_4x64 (Generator.seed_word xoshiro_4x64 0 [1; 0; 0; 0])) /\
  (get_state xoshiro_4x64 (Generator.seed_word xoshiro_4x64 0 [1; 0; 0; 0])
   = get_state xoshiro_4x64 (Generator.seed_word xoshiro_4x64 1 [1; 0; 0; 0]) ->
   0 = 1).
Proof.
  refine (seed_word_not_zero xoshiro_4x64
            [0x9d116f2bb0f0f001; 0x280002bcefd1a5e; 0x4b4edcf26259f85; 0x3c03c3f3ecb19]
            [1; 0; 0; 0] 0 1 state_type_4x64 eq_refl eq_refl wf_4x64_default _ _);
    unfold Word.in_range; simpl; lia.
Defined.

(** ** Generators that jump *)

(** The values a generator returns depend on the logical words of its
    state only. *)
Lemma outputs_congruence (St : State) (p : list Z) (scrambler : (nat -> Z) -> Z) (k : nat)
  (a b : carrier St) :
  jumpable St p ->
  (forall f f', (forall w, (w < word_count St)%nat -> f w = f' w) ->
                scrambler f = scrambler f') ->
  wf St a -> wf St b -> get_state St a = get_state St b ->
  Generator.outputs St scrambler k a = Generator.outputs St scrambler k b.
Proof.
  intros Hj Hscr. revert a b. induction k as [|k IH]; intros a b Ha Hb E; [reflexivity|].
  cbn [Generator.outputs Generator.call fst snd]. f_equal.
  - apply Hscr. intros w Hw. apply (index_congruence St p); auto.
  - apply IH; try (apply (step_wf St p); auto). apply (step_congruence St p); auto.
Qed.

(** X7.  A generator over a state type with a table entry that is jumped
    with [jump_coefficients(J)] returns, from then on, the values of the
    same generator after [discard(J)], for every scrambler that reads the
    state through [operator[]] at indices below the word count. *)
Theorem jump_is_discard (St : State) (p : list Z) (scrambler : (nat -> Z) -> Z)
  (g : carrier St) (J : Z) (k : nat) :
  state_type St -> characteristic_coefficients St = ok p -> wf St g -> 0 <= J < 2 ^ 64 ->
  (forall f f', (forall w, (w < word_count St)%nat -> f w = f' w) ->
                scrambler f = scrambler f') ->
  exists coeffs,
    jump_coefficients (Generator.as_state St) J false = ok coeffs /\
    Generator.outputs St scrambler k (jump (Generator.as_state St) g coeffs)
    = Generator.outputs St scrambler k (Generator.discard St J g).
Proof.
  intros HT Ep Hg HJ Hscr. pose proof (state_type_jumpable St p HT Ep) as Hj.
  exists (Internal.reduce (word_digits St) (word_count St) p J false).
  split; [exact (jump_coefficients_ok St p J false Ep)|].
  change (jump (Generator.as_state St) g
            (Internal.reduce (word_digits St) (word_count St) p J false))
    with (jump St g (Internal.reduce (word_digits St) (word_count St) p J false)).
  destruct (jumpable_steps St p g J false Hj Hg (proj1 HJ)) as [W E].
  apply (outputs_congruence St p); auto.
  apply (iter_step_wf St p); auto.
Qed.

Lemma plus_reads_state (W : Z) (N w0 w1 : nat) (f f' : nat -> Z) :
  (w0 < N)%nat -> (w1 < N)%nat -> (forall w, (w < N)%nat -> f w = f' w) ->
  Scrambler.plus W w0 w1 f = Scrambler.plus W w0 w1 f'.
Proof. intros H0 H1 H. unfold Scrambler.plus. rewrite (H w0 H0), (H w1 H1). reflexivity. Defined.

Lemma jump_is_discard_witness :
  exists coeffs,
    jump_coefficients (Generator.as_state xoshiro_4x32) 1000000 false = ok coeffs /\
    Generator.outputs xoshiro_4x32 (Scrambler.plus 32 0 3) 5
      (jump (Generator.as_state xoshiro_4x32) [1; 0; 0; 0] coeffs)
    = Generator.outputs xoshiro_4x32 (Scrambler.plus 32 0 3) 5
        (Generator.discard xoshiro_4x32 1000000 [1; 0; 0; 0]).
Proof.
  refine (jump_is_discard xoshiro_4x32 [0xde18fc01; 0x1b489db6; 0x6254b1; 0xfc65a2]
            (Scrambler.plus 32 0 3) [1; 0; 0; 0] 1000000 5
            state_type_4x32 eq_refl wf_4x32_default _ _).
  - lia.
  - intros f f' H. apply (plus_reads_state 32 4); [lia | lia | exact H].
Defined.

(** ** Jumps with any polynomial *)

Lemma jump_logical (St : State) (p : list Z) (st : carrier St) (r : list Z) :
  jumpable St p -> wf St st -> words_ok (word_digits St) (word_count St) r ->
  exists F,
    refines St F /\ wf St (jump St st r) /\
    pack (word_digits St) (get_state St (jump St st r))
    = GF2.peval (on_bits (word_digits St) (word_count St) F)
        (pack (word_digits St) r) (pack (word_digits St) (get_state St st)).
Proof.
  intros (F & T & HS & _) Hst Hr. exists F. split; [exact HS|].
  apply (jump_peval St F HS); auto.
Qed.

(** X8.  The two smallest polynomials.  A jump with the all-zero
    coefficient array leaves the all-zero state, the one state a generator
    must never be in, whatever the state was; a jump with the polynomial 1
    leaves the words of the state as they were. *)
Theorem jump_by_zero_and_one (St : State) (p : list Z) (st : carrier St) :
  state_type St -> characteristic_coefficients St = ok p -> wf St st ->
  get_state St (jump St st (repeat 0 (word_count St))) = repeat 0 (word_count St) /\
  get_state St (jump St st (1 :: repeat 0 (word_count St - 1))) = get_state St st.
Proof.
  intros HT Ep Hst. pose proof (state_type_jumpable St p HT Ep) as Hj.
  pose proof (table_word_count St p HT Ep) as HN.
  assert (HW : 0 < word_digits St) by (destruct Hj as (F & T & HS & _); apply (refines_digits St F HS)).
  assert (H0 : words_ok (word_digits St) (word_count St) (repeat 0 (word_count St)))
    by (apply words_ok_repeat; lia).
  assert (H1 : words_ok (word_digits St) (word_count St) (1 :: repeat 0 (word_count St - 1))).
  { destruct (word_count St) as [|n]; [lia|]. apply words_ok_cons.
    - unfold Word.in_range. split; [lia|]. apply Z.pow_gt_1; lia.
    - replace (S n - 1)%nat with n by lia. apply words_ok_repeat. lia. }
  split.
  - destruct (jump_logical St p st _ Hj Hst H0) as (F & HS & Wj & E).
    rewrite pack_repeat_0 in E. cbn [GF2.peval] in E.
    apply (pack_inj (word_digits St) (word_count St)); auto.
    + apply (refines_words St F HS); auto.
    + rewrite pack_repeat_0. exact E.
  - destruct (jump_logical St p st _ Hj Hst H1) as (F & HS & Wj & E).
    cbn [pack] in E. rewrite pack_repeat_0 in E.
    replace (1 + 2 ^ word_digits St * 0) with 1 in E by lia.
    cbn [GF2.peval GF2.peval_pos] in E.
    apply (pack_inj (word_digits St) (word_count St)); auto;
      apply (refines_words St F HS); auto.
Qed.

Lemma jump_by_zero_and_one_witness :
  get_state xoshiro_4x32 (jump xoshiro_4x32 [1; 0; 0; 0] (repeat 0 (word_count xoshiro_4x32)))
  = repeat 0 (word_count xoshiro_4x32) /\
  get_state xoshiro_4x32
    (jump xoshiro_4x32 [1; 0; 0; 0] (1 :: repeat 0 (word_count xoshiro_4x32 - 1)))
  = get_state xoshiro_4x32 [1; 0; 0; 0].
Proof.
  exact (jump_by_zero_and_one xoshiro_4x32 [0xde18fc01; 0x1b489db6; 0x6254b1; 0xfc65a2]
           [1; 0; 0; 0] state_type_4x32 eq_refl wf_4x32_default).
Defined.

(** ** Seeding and reading back *)

(** X9.  [seed] followed by [get_state] gives back the [N] words of the
    seed, in their order.  For xoroshiro this holds wherever the ring
    buffer stood before: [seed] puts [m_final] back to [N - 1], and
    [operator[]] then reads word [i] of the seed at index [i]. *)
Theorem seed_then_get_state (N : nat) (words m : list Z) (s : Xoroshiro.t) :
  (1 <= N)%nat -> length words = N -> length m = N -> length (Xoroshiro.m_state s) = N ->
  Xoshiro.get_state (Xoshiro.seed words m) = words /\
  Xoroshiro.get_state N (Xoroshiro.seed N words s) = words /\
  Xoroshiro.m_final (Xoroshiro.seed N words s) = (N - 1)%nat /\
  (forall i, (i < N)%nat -> Xoroshiro.index N (Xoroshiro.seed N words s) i = get words i).
Proof.
  intros HN Hw Hm Hs.
  assert (E : Xoroshiro.seed N words s = Xoroshiro.mk words (N - 1)).
  { unfold Xoroshiro.seed. rewrite copy_into_full by lia. reflexivity. }
  assert (G : Xoroshiro.get_state N (Xoroshiro.seed N words s) = words).
  { rewrite E. apply (get_state_default N); auto. }
  split; [unfold Xoshiro.get_state, Xoshiro.seed; apply copy_into_full; lia|].
  split; [exact G|]. split; [rewrite E; reflexivity|].
  intros i Hi. rewrite <- G at 2. rewrite get_get_state by auto. reflexivity.
Qed.

Lemma seed_then_get_state_witness :
  Xoshiro.get_state (Xoshiro.seed [5; 6; 7] [1; 0; 0]) = [5; 6; 7] /\
  Xoroshiro.get_state 3 (Xoroshiro.seed 3 [5; 6; 7] (Xoroshiro.mk [1; 2; 3] 0)) = [5; 6; 7] /\
  Xoroshiro.m_final (Xoroshiro.seed 3 [5; 6; 7] (Xoroshiro.mk [1; 2; 3] 0)) = (3 - 1)%nat /\
  (forall i, (i < 3)%nat ->
     Xoroshiro.index 3 (Xoroshiro.seed 3 [5; 6; 7] (Xoroshiro.mk [1; 2; 3] 0)) i
     = get [5; 6; 7] i).
Proof.
  apply (seed_then_get_state 3 [5; 6; 7] [1; 0; 0] (Xoroshiro.mk [1; 2; 3] 0));
    [lia | reflexivity | reflexivity | reflexivity].
Defined.

(** ** How jumps compose *)

Lemma peval_pos_commutes (T U : Z -> Z) (q : positive) (v : Z) :
  (forall a b, U (Z.lxor a b) = Z.lxor (U a) (U b)) ->
  (forall a, U (T a) = T (U a)) ->
  GF2.peval_pos T q (U v) = U (GF2.peval_pos T q v).
Proof.
  intros Ulin UT. revert v. induction q as [q IH|q IH|]; intros v; cbn [GF2.peval_pos].
  - rewrite Ulin, <- IH, UT. reflexivity.
  - rewrite <- IH, UT. reflexivity.
  - reflexivity.
Qed.

Lemma peval_peval_comm (T : Z -> Z) (q r v : Z) :
  (forall a b, T (Z.lxor a b) = Z.lxor (T a) (T b)) ->
  GF2.peval T q (GF2.peval T r v) = GF2.peval T r (GF2.peval T q v).
Proof.
  intros Tlin.
  destruct q as [|q|q]; cbn [GF2.peval]; try (symmetry; apply (peval_0_r T Tlin)).
  apply peval_pos_commutes.
  - intros a b. apply (peval_lxor_r T Tlin).
  - intros a. apply (peval_commute T Tlin).
Qed.

(** X10.  Jumps commute: for any two coefficient arrays, the jump with
    the one and then with the other leaves the state that the jumps in the
    other order leave. *)
Theorem jumps_commute (St : State) (p : list Z) (st : carrier St) (r1 r2 : list Z) :
  state_type St -> characteristic_coefficients St = ok p -> wf St st ->
  words_ok (word_digits St) (word_count St) r1 ->
  words_ok (word_digits St) (word_count St) r2 ->
  jump St (jump St st r1) r2 = jump St (jump St st r2) r1.
Proof.
  intros HT Ep Hst H1 H2. pose proof (state_type_jumpable St p HT Ep) as Hj.
  destruct Hj as (F & T & HS & _).
  pose proof (refines_digits St F HS) as HW.
  destruct (jump_peval St F HS st r1 Hst H1) as [W1 E1].
  destruct (jump_peval St F HS st r2 Hst H2) as [W2 E2].
  destruct (jump_peval St F HS _ r2 W1 H2) as [W12 E12].
  destruct (jump_peval St F HS _ r1 W2 H1) as [W21 E21].
  apply (jump_canonical St p HT Ep); auto.
  apply (pack_inj (word_digits St) (word_count St)); auto;
    try (apply (refines_words St F HS); auto).
  rewrite E12, E21, E1, E2. apply peval_peval_comm. apply (on_bits_lin St F HS).
Qed.

Lemma jumps_commute_witness :
  jump xoshiro_4x32 (jump xoshiro_4x32 [1; 0; 0; 0] [6; 0; 1; 0]) [0; 9; 0; 5]
  = jump xoshiro_4x32 (jump xoshiro_4x32 [1; 0; 0; 0] [0; 9; 0; 5]) [6; 0; 1; 0].
Proof.
  refine (jumps_commute xoshiro_4x32 [0xde18fc01; 0x1b489db6; 0x6254b1; 0xfc65a2]
            [1; 0; 0; 0] [6; 0; 1; 0] [0; 9; 0; 5] state_type_4x32 eq_refl wf_4x32_default _ _);
    apply words_ok_4x32; lia.
Defined.

(** X11.  Jumps add up: a jump by [J1] steps and then one by [J2] steps
    leaves the state that one jump by [J1 + J2] steps leaves, as long as
    the sum is a [std::size_t]. *)
Theorem jumps_add (St : State) (p : list Z) (st : carrier St) (J1 J2 : Z) :
  state_type St -> characteristic_coefficients St = ok p -> wf St st ->
  0 <= J1 -> 0 <= J2 -> J1 + J2 < 2 ^ 64 ->
  exists c1 c2 c12,
    jump_coefficients St J1 false = ok c1 /\
    jump_coefficients St J2 false = ok c2 /\
    jump_coefficients St (J1 + J2) false = ok c12 /\
    jump St (jump St st c1) c2 = jump St st c12.
Proof.
  intros HT Ep Hst H1 H2 H12. pose proof (state_type_jumpable St p HT Ep) as Hj.
  exists (Internal.reduce (word_digits St) (word_count St) p J1 false),
         (Internal.reduce (word_digits St) (word_count St) p J2 false),
         (Internal.reduce (word_digits St) (word_count St) p (J1 + J2) false).
  split; [apply jump_coefficients_ok; exact Ep|].
  split; [apply jump_coefficients_ok; exact Ep|].
  split; [apply jump_coefficients_ok; exact Ep|].
  destruct (jumpable_steps St p st J1 false Hj Hst H1) as [W1 E1].
  destruct (jumpable_steps St p _ J2 false Hj W1 H2) as [W2 E2].
  destruct (jumpable_steps St p st (J1 + J2) false Hj Hst ltac:(lia)) as [W3 E3].
  apply (jump_canonical St p HT Ep); auto.
  rewrite E2, E3.
  rewrite (iter_step_congruence St p _ (Nat.iter (Z.to_nat J1) (step St) st)); auto.
  - rewrite <- iter_plus. do 2 f_equal. lia.
  - apply (iter_step_wf St p); auto.
Qed.

Lemma jumps_add_witness :
  exists c1 c2 c12,
    jump_coefficients xoshiro_4x32 1000 false = ok c1 /\
    jump_coefficients xoshiro_4x32 24 false = ok c2 /\
    jump_coefficients xoshiro_4x32 (1000 + 24) false = ok c12 /\
    jump xoshiro_4x32 (jump xoshiro_4x32 [1; 0; 0; 0] c1) c2
    = jump xoshiro_4x32 [1; 0; 0; 0] c12.
Proof.
  refine (jumps_add xoshiro_4x32 [0xde18fc01; 0x1b489db6; 0x6254b1; 0xfc65a2]
            [1; 0; 0; 0] 1000 24 state_type_4x32 eq_refl wf_4x32_default _ _ _); lia.
Defined.

(** ** Where the sub-streams of a partition start *)

Lemma partition_ok (St : State) (p : list Z) (st : carrier St) (P : Z) :
  jumpable St p -> characteristic_coefficients St = ok p -> 0 <= P < 2 ^ 64 ->
  let k := Internal.bit_width (Z.max P 1 - 1) in
  0 <= k <= bit_count St /\
  Partition.partition St st P
  = ok (Partition.mk st (Internal.reduce (word_digits St) (word_count St) p
                           (bit_count St - k) true)).
Proof.
  intros Hj Ep HP k.
  assert (Hlow : 64 <= bit_count St /\ bit_count St < 2 ^ 64).
  { destruct Hj as (F & T & _ & _ & _ & H1 & H2 & _). lia. }
  assert (HP1 : 1 <= Z.max P 1 < 2 ^ 64) by lia.
  destruct (bit_width_pred (Z.max P 1) (proj1 HP1)) as (K0 & _).
  pose proof (bit_width_pred_64 (Z.max P 1) HP1) as K64. fold k in K0, K64.
  split; [lia|].
  unfold Partition.partition. cbv zeta.
  replace (if P =? 0 then 1 else P) with (Z.max P 1)
    by (destruct (Z.eqb_spec P 0); lia).
  rewrite (Z.mod_small (Z.max P 1 - 1)) by lia. fold k.
  rewrite (Z.mod_small (bit_count St - k)) by lia.
  rewrite (jump_coefficients_ok St p _ true Ep). reflexivity.
Qed.

(** X12.  The sub-stream that the [(i + 1)]-th call of [next] returns
    starts [i * 2^(n - k)] steps into the stream of the parent state, for
    [k] the bit width of [max(P, 1) - 1]: the sub-streams are laid end to
    end along the parent stream, each [2^(n - k)] steps long. *)
Theorem partition_offsets (St : State) (p : list Z) (st : carrier St) (P : Z) (i : nat) :
  state_type St -> characteristic_coefficients St = ok p -> wf St st ->
  0 <= P < 2 ^ 64 ->
  exists part,
    Partition.partition St st P = ok part /\
    get_state St (fst (Partition.next (Nat.iter i (fun q => snd (Partition.next q)) part)))
    = get_state St
        (Nat.iter (i * Z.to_nat (2 ^ (bit_count St - Internal.bit_width (Z.max P 1 - 1))))
           (step St) st).
Proof.
  intros HT Ep Hst HP. pose proof (state_type_jumpable St p HT Ep) as Hj.
  destruct (partition_ok St p st P Hj Ep HP) as [Hk E].
  set (k := Internal.bit_width (Z.max P 1 - 1)) in *.
  set (r := Internal.reduce (word_digits St) (word_count St) p (bit_count St - k) true) in *.
  exists (Partition.mk st r). split; [exact E|].
  change (fst (Partition.next (Nat.iter i (fun q => snd (Partition.next q))
                                 (Partition.mk st r))))
    with (Partition.m_state (Nat.iter i (fun q => snd (Partition.next q))
                               (Partition.mk st r))).
  induction i as [|i IH]; [reflexivity|].
  destruct (partition_next_iter St p (Partition.mk st r) (bit_count St - k) i Hj
              ltac:(lia) Hst eq_refl) as [W C].
  rewrite Nat.iter_succ. unfold Partition.next at 1.
  cbn [snd Partition.m_state]. rewrite C. cbn [Partition.m_jump_coefficients].
  destruct (jumpable_steps St p _ (bit_count St - k) true Hj W ltac:(lia)) as [_ E1].
  fold r in E1. rewrite E1.
  rewrite (iter_step_congruence St p _ _ _ Hj W (iter_step_wf St p st _ Hj Hst) IH).
  rewrite <- iter_plus. reflexivity.
Qed.

Lemma partition_offsets_witness :
  exists part,
    Partition.partition xoshiro_4x32 [1; 0; 0; 0] 100 = ok part /\
    get_state xoshiro_4x32
      (fst (Partition.next (Nat.iter 3 (fun q => snd (Partition.next q)) part)))
    = get_state xoshiro_4x32
        (Nat.iter (3 * Z.to_nat (2 ^ (bit_count xoshiro_4x32
                                      - Internal.bit_width (Z.max 100 1 - 1))))
           (step xoshiro_4x32) [1; 0; 0; 0]).
Proof.
  refine (partition_offsets xoshiro_4x32 [0xde18fc01; 0x1b489db6; 0x6254b1; 0xfc65a2]
            [1; 0; 0; 0] 100 3 state_type_4x32 eq_refl wf_4x32_default _).
  lia.
Defined.

(** ** The generators against the reference ones *)

(** X13.  [xoshiro_4x64_star_star], the default generator [rng64], returns
    value for value what the reference [next] of xoshiro256** returns from
    the same four words, and goes through the same states: the comparison
    of [examples/basic02.cpp], for every state and any number of calls. *)
Theorem xoshiro_4x64_star_star_is_reference (k : nat) (s : list Z) :
  Generator.outputs xoshiro_4x64 (Scrambler.star_star 64 5 7 9 1) k s
  = Vigna.outputs Vigna.xoshiro_4x64_star_star_next k s /\
  Generator.call xoshiro_4x64 (Scrambler.star_star 64 5 7 9 1) s
  = Vigna.xoshiro_4x64_star_star_next s.
Proof.
  split; [|reflexivity].
  revert s. induction k as [|k IH]; intros s; [reflexivity|].
  cbn [Generator.outputs Vigna.outputs]. rewrite IH. reflexivity.
Qed.

Lemma lxor_rotate (a b c : Z) : Z.lxor (Z.lxor a b) c = Z.lxor (Z.lxor a c) b.
Proof. Z.bitblast. Qed.

Lemma xoroshiro_2x64_plus_call (m : list Z) :
  length m = 2%nat ->
  Generator.call xoroshiro_2x64 (Scrambler.plus 64 0 1) (Xoroshiro.mk m 1)
  = (fst (Vigna.xoroshiro_2x64_plus_next m),
     Xoroshiro.mk (snd (Vigna.xoroshiro_2x64_plus_next m)) 1).
Proof.
  intros Hm. destruct m as [|a [|b [|c m]]]; try discriminate Hm.
  unfold Generator.call, Vigna.xoroshiro_2x64_plus_next. cbv zeta. cbn [fst snd].
  f_equal. cbn. rewrite (lxor_rotate _ (Z.lxor b a)). reflexivity.
Qed.

(** X14.  [xoroshiro_2x64_plus], whose two words are stepped by the
    array-shift [simple_step], returns value for value what the reference
    [next] of xoroshiro128+ returns from the same two words. *)
Theorem xoroshiro_2x64_plus_is_reference (k : nat) (m : list Z) :
  length m = 2%nat ->
  Generator.outputs xoroshiro_2x64 (Scrambler.plus 64 0 1) k (Xoroshiro.mk m 1)
  = Vigna.outputs Vigna.xoroshiro_2x64_plus_next k m.
Proof.
  revert m. induction k as [|k IH]; intros m Hm; [reflexivity|].
  cbn [Generator.outputs Vigna.outputs]. rewrite xoroshiro_2x64_plus_call by exact Hm.
  cbn [fst snd]. f_equal. apply IH.
  destruct m as [|a [|b [|c m]]]; try discriminate Hm. reflexivity.
Qed.

Lemma xoroshiro_2x64_plus_is_reference_witness :
  Generator.outputs xoroshiro_2x64 (Scrambler.plus 64 0 1) 10 (Xoroshiro.mk [1; 2] 1)
  = Vigna.outputs Vigna.xoroshiro_2x64_plus_next 10 [1; 2].
Proof. apply (xoroshiro_2x64_plus_is_reference 10 [1; 2]). reflexivity. Defined.

Lemma land_15 (f : nat) : (f < 16)%nat -> Nat.land (f + 1) 15 = ((f + 1) mod 16)%nat.
Proof. intros H. do 16 (destruct f as [|f]; [reflexivity|]). lia. Qed.

Lemma xoroshiro_16x64_star_star_call (m : list Z) (f : nat) :
  length m = 16%nat -> (f < 16)%nat ->
  let r := Vigna.xoroshiro_16x64_star_star_next (Vigna.mk_ring f m) in
  Generator.call xoroshiro_16x64 (Scrambler.star_star 64 5 7 9 0) (Xoroshiro.mk m f)
  = (fst r, Xoroshiro.mk (Vigna.s (snd r)) (Vigna.p (snd r))) /\
  length (Vigna.s (snd r)) = 16%nat /\ (Vigna.p (snd r) < 16)%nat.
Proof.
  intros Hm Hf r. subst r.
  unfold Generator.call, Vigna.xoroshiro_16x64_star_star_next. cbv zeta.
  cbn [fst snd Vigna.s Vigna.p]. rewrite (land_15 f Hf).
  split; [|split].
  - apply f_equal2.
    + reflexivity.
    + unfold xoroshiro_16x64, xoroshiro. cbn [step].
      unfold Xoroshiro.step, Xoroshiro.clever_step.
      cbn [Nat.eqb Xoroshiro.m_state Xoroshiro.m_final].
      rewrite (lxor_rotate _ (Z.lxor (get m f) (get m ((f + 1) mod 16)))). reflexivity.
  - rewrite !length_upd. exact Hm.
  - apply Nat.mod_upper_bound. lia.
Qed.

(** X15.  [xoroshiro_16x64_star_star], whose sixteen words sit in a ring
    buffer, returns value for value what the reference [next] of
    xoroshiro1024** returns, for a ring that stands at the same place:
    [m_final] and the index [p] of the reference move together. *)
Theorem xoroshiro_16x64_star_star_is_reference (k : nat) (m : list Z) (f : nat) :
  length m = 16%nat -> (f < 16)%nat ->
  Generator.outputs xoroshiro_16x64 (Scrambler.star_star 64 5 7 9 0) k (Xoroshiro.mk m f)
  = Vigna.outputs Vigna.xoroshiro_16x64_star_star_next k (Vigna.mk_ring f m).
Proof.
  revert m f. induction k as [|k IH]; intros m f Hm Hf; [reflexivity|].
  cbn [Generator.outputs Vigna.outputs].
  destruct (xoroshiro_16x64_star_star_call m f Hm Hf) as (E & L & P). cbv zeta in E, L, P.
  rewrite E. cbn [fst snd]. f_equal. rewrite IH by auto.
  destruct (snd (Vigna.xoroshiro_16x64_star_star_next (Vigna.mk_ring f m))). reflexivity.
Qed.

Lemma xoroshiro_16x64_star_star_is_reference_witness :
  Generator.outputs xoroshiro_16x64 (Scrambler.star_star 64 5 7 9 0) 40
    (Xoroshiro.mk (map Z.of_nat (seq 1 16)) 15)
  = Vigna.outputs Vigna.xoroshiro_16x64_star_star_next 40
      (Vigna.mk_ring 15 (map Z.of_nat (seq 1 16))).
Proof.
  apply (xoroshiro_16x64_star_star_is_reference 40 (map Z.of_nat (seq 1 16)) 15).
  - reflexivity.
  - lia.
Defined.

(** ** What throws, and what a single word of xoroshiro does *)


Lemma rotl_zero (W s : Z) : Word.rotl W 0 s = 0.
Proof.
  unfold Word.rotl, Word.shl, Word.shr, Word.wrap.
  destruct (s mod W =? 0); [reflexivity|].
  rewrite Z.shiftl_0_l, Z.shiftr_0_l, Zmod_0_l. reflexivity.
Qed.

(** X17.  The class template takes a single word of state, and [step]
    then wipes it: with [N = 1] the first and the final word are the same
    word, their exclusive or is zero, and the second write of
    [clever_step] puts the rotation of that zero over the first.  After
    one step the state is all zeros, whatever it was. *)
Theorem xoroshiro_single_word_dies (W A B C : Z) (s : Xoroshiro.t) :
  length (Xoroshiro.m_state s) = 1%nat -> Xoroshiro.m_final s = 0%nat ->
  Xoroshiro.m_state (Xoroshiro.step 1 W A B C s) = [0] /\
  Xoroshiro.m_final (Xoroshiro.step 1 W A B C s) = 0%nat /\
  Xoroshiro.get_state 1 (Xoroshiro.step 1 W A B C s) = [0].
Proof.
  intros Hl Hf. destruct s as [m f]. cbn [Xoroshiro.m_state Xoroshiro.m_final] in Hl, Hf.
  subst f. destruct m as [|x [|y m]]; try discriminate Hl.
  unfold Xoroshiro.step, Xoroshiro.clever_step, Xoroshiro.get_state, Xoroshiro.index.
  cbn [Nat.eqb Xoroshiro.m_state Xoroshiro.m_final Nat.add].
  rewrite !Nat.mod_1_r. cbn [get nth upd map seq].
  rewrite Z.lxor_nilpotent, rotl_zero. repeat split; reflexivity.
Qed.

Lemma xoroshiro_single_word_dies_witness :
  Xoroshiro.m_state (Xoroshiro.step 1 64 25 27 36 (Xoroshiro.mk [12345] 0)) = [0] /\
  Xoroshiro.m_final (Xoroshiro.step 1 64 25 27 36 (Xoroshiro.mk [12345] 0)) = 0%nat /\
  Xoroshiro.get_state 1 (Xoroshiro.step 1 64 25 27 36 (Xoroshiro.mk [12345] 0)) = [0].
Proof.
  apply (xoroshiro_single_word_dies 64 25 27 36 (Xoroshiro.mk [12345] 0)); reflexivity.
Defined.
